(** * dioptra.task_engine.error_message: readable messages for jsonschema
    validation errors.

    A shallow embedding of [src/dioptra/task_engine/error_message.py].
    Python values are modelled as follows.

    - JSON documents (schemas and instances) are the type [json].  Python
      loads JSON [null] as [None], so [JNull] is also the value of a
      defaulted [schema=None] argument.  Numbers are integers: the module
      only tests numbers for truth, hashes them and prints them, and the
      printing of Python floats is not modelled.
    - A mapping is an association list in insertion order, looked up by the
      first matching key.
    - Strings are Rocq strings (sequences of bytes), so character positions
      agree with Python for ASCII text.
    - An exception is the [Raise] outcome of the [res] monad.  The resolver
      recurses without a structural bound (a reference can point back to
      itself), so it takes the number of frames that may still be pushed,
      [depth], and raises [RecursionError] when none is left, as the
      interpreter does at its recursion limit.
    - Where a property is about the objects a call writes, the module is
      embedded a second time, on a heap (module [Heap]): the schema, the
      failures and every list, dict and iterator are objects with an
      address, and each [append], [extend], item assignment and [next] of
      the source is a write to the heap. *)

From Stdlib Require Import ZArith Ascii String List Bool Lia.
From stdpp Require Import base tactics option list strings pretty.

#[local] Set Warnings "-register-all".
Local Open Scope string_scope.
Local Open Scope list_scope.

(** ** Outcomes *)

Inductive pyerr : Type :=
  | KeyError
  | IndexError
  | TypeError
  | ValueError
  | AttributeError
  | AssertionError
  | RecursionError
  | ExternalError.

Inductive res (A : Type) : Type :=
  | Ok (a : A)
  | Raise (e : pyerr).

Arguments Ok {A} a.
Arguments Raise {A} e.

#[global] Instance res_ret : MRet res := fun _ a => Ok a.
#[global] Instance res_bind : MBind res := fun _ _ f m =>
  match m with
  | Ok a => f a
  | Raise e => Raise e
  end.
#[global] Instance res_fmap : FMap res := fun _ _ f m =>
  match m with
  | Ok a => Ok (f a)
  | Raise e => Raise e
  end.

(** [KeyError] and [IndexError] are the subclasses of [LookupError]. *)
Definition is_lookup_error (e : pyerr) : bool :=
  match e with
  | KeyError | IndexError => true
  | _ => false
  end.

(** A left-to-right loop whose body may raise. *)
Fixpoint foldM {A B : Type} (f : A -> B -> res A) (a : A) (l : list B) : res A :=
  match l with
  | [] => Ok a
  | x :: l' => a' ← f a x; foldM f a' l'
  end.

(** ** Values *)

Inductive json : Type :=
  | JNull
  | JBool (b : bool)
  | JInt (i : Z)
  | JStr (s : string)
  | JList (l : list json)
  | JDict (d : list (string * json)).

(** An element of a path: jsonschema uses strings and ints. *)
Inductive token : Type :=
  | TInt (i : Z)
  | TStr (s : string).

#[global] Instance token_eq_dec : EqDecision token.
Proof. solve_decision. Defined.

(** The hashable scalars, which are the values a display name can be. *)
Inductive pyname : Type :=
  | NNone
  | NBool (b : bool)
  | NInt (i : Z)
  | NStr (s : string).

#[global] Instance pyname_eq_dec : EqDecision pyname.
Proof. solve_decision. Defined.

(** ** Python primitives used by the module *)

Definition dquote : string := String "034"%char EmptyString.
Definition newline : string := String "010"%char EmptyString.

(** [d.get(key)] / [d[key]] on a mapping. *)
Fixpoint dict_get (d : list (string * json)) (key : string) : option json :=
  match d with
  | [] => None
  | (k, v) :: d' => if String.eqb k key then Some v else dict_get d' key
  end.

(** [bool(x)] *)
Definition truthy (x : json) : bool :=
  match x with
  | JNull => false
  | JBool b => b
  | JInt i => negb (i =? 0)%Z
  | JStr s => negb (String.eqb s "")
  | JList l => negb (Nat.eqb (length l) 0)
  | JDict d => negb (Nat.eqb (length d) 0)
  end.

Definition truthy_token (t : token) : bool :=
  match t with
  | TInt i => negb (i =? 0)%Z
  | TStr s => negb (String.eqb s "")
  end.

(** [bool(x)] where [x] is a token or [None]. *)
Definition truthy_opt_token (t : option token) : bool :=
  match t with
  | None => false
  | Some t => truthy_token t
  end.

(** [str(x)] for an int. *)
Definition str_of_int (i : Z) : string := pretty i.

Definition str_of_token (t : token) : string :=
  match t with
  | TInt i => str_of_int i
  | TStr s => s
  end.

(** [str(x)], which is what ["{}".format(x)] prints. *)
Definition str_of_name (n : pyname) : string :=
  match n with
  | NNone => "None"
  | NBool true => "True"
  | NBool false => "False"
  | NInt i => str_of_int i
  | NStr s => s
  end.

(** [sep.join(parts)] on strings. *)
Fixpoint str_join (sep : string) (parts : list string) : string :=
  match parts with
  | [] => ""
  | [s] => s
  | s :: rest => s +:+ sep +:+ str_join sep rest
  end.

(** [sep.join(names)]: every item has to be a [str]. *)
Definition name_as_str (n : pyname) : res string :=
  match n with
  | NStr s => Ok s
  | _ => Raise TypeError
  end.

Definition join_names (sep : string) (names : list pyname) : res string :=
  parts ← mapM name_as_str names; Ok (str_join sep parts).

(** [s.split("/")] *)
Fixpoint split_slash_go (cur : string) (s : string) : list string :=
  match s with
  | EmptyString => [String.rev cur]
  | String c s' =>
      if Ascii.eqb c "/"%char then String.rev cur :: split_slash_go "" s'
      else split_slash_go (String c cur) s'
  end.

Definition split_slash (s : string) : list string := split_slash_go "" s.

(** [s[2:]] *)
Definition drop2 (s : string) : string :=
  match s with
  | String _ (String _ s') => s'
  | _ => ""
  end.

(** [seq[i]] on a Python sequence: a negative index counts from the end. *)
Definition py_index {A : Type} (l : list A) (i : Z) : res A :=
  let n := Z.of_nat (length l) in
  let j := if (i <? 0)%Z then (n + i)%Z else i in
  if (j <? 0)%Z then Raise IndexError
  else match l !! Z.to_nat j with
       | Some x => Ok x
       | None => Raise IndexError
       end.

(** [int(s)] for a string, on ASCII input: surrounding whitespace, an
    optional sign, then decimal digits which single underscores may
    separate. *)
Definition is_space (c : ascii) : bool :=
  let n := nat_of_ascii c in
  ((9 <=? n)%nat && (n <=? 13)%nat) || ((28 <=? n)%nat && (n <=? 32)%nat).

Definition digit_value (c : ascii) : option Z :=
  let n := nat_of_ascii c in
  if ((48 <=? n)%nat && (n <=? 57)%nat) then Some (Z.of_nat n - 48)%Z else None.

Fixpoint parse_digits (cs : list ascii) (acc : Z) (after_digit : bool) : option Z :=
  match cs with
  | [] => if after_digit then Some acc else None
  | c :: cs' =>
      match digit_value c with
      | Some v => parse_digits cs' (10 * acc + v)%Z true
      | None =>
          if Ascii.eqb c "_"%char && after_digit
          then parse_digits cs' acc false
          else None
      end
  end.

Fixpoint lstrip (cs : list ascii) : list ascii :=
  match cs with
  | c :: cs' => if is_space c then lstrip cs' else cs
  | [] => []
  end.

Definition strip (cs : list ascii) : list ascii :=
  rev (lstrip (rev (lstrip cs))).

Definition int_of_str (s : string) : res Z :=
  let parsed :=
    match strip (list_ascii_of_string s) with
    | c :: cs =>
        if Ascii.eqb c "-"%char then Z.opp <$> parse_digits cs 0 false
        else if Ascii.eqb c "+"%char then parse_digits cs 0 false
        else parse_digits (c :: cs) 0 false
    | [] => None
    end in
  match parsed with
  | Some z => Ok z
  | None => Raise ValueError
  end.

(** [int(x)] where [x] is a path element. *)
Definition int_of_token (t : token) : res Z :=
  match t with
  | TInt i => Ok i
  | TStr s => int_of_str s
  end.

(** [schema[key]]: a key lookup in a dict, an index lookup in a list (or in
    a string, which Python also subscripts); nothing else is subscriptable.
    The keys of a JSON mapping are strings, so an int is never among
    them. *)
Definition py_getitem (schema : json) (key : token) : res json :=
  match schema, key with
  | JDict d, TStr k =>
      match dict_get d k with
      | Some v => Ok v
      | None => Raise KeyError
      end
  | JDict _, TInt _ => Raise KeyError
  | JList l, TInt i => py_index l i
  | JList _, TStr _ => Raise TypeError
  | JStr s, TInt i =>
      c ← py_index (list_ascii_of_string s) i; Ok (JStr (String c EmptyString))
  | JStr _, TStr _ => Raise TypeError
  | _, _ => Raise TypeError
  end.

(** Iterating a value: the items of a list, the keys of a dict, the
    characters of a string. *)
Definition py_iter (x : json) : res (list json) :=
  match x with
  | JList l => Ok l
  | JDict d => Ok (map (fun kv => JStr (fst kv)) d)
  | JStr s => Ok (map (fun c => JStr (String c EmptyString)) (list_ascii_of_string s))
  | _ => Raise TypeError
  end.

(** ** Indentation and paths *)

(** Controls indentation of sub-parts of error messages *)
Definition _INDENT_SIZE : nat := 4.

Fixpoint spaces (n : nat) : string :=
  match n with
  | O => ""
  | S n' => String " "%char (spaces n')
  end.

(** The caller owns the list it passes, so the in-place update is the map
    (module [InPlace] below keeps the store). *)
Definition _indent_lines (lines : list string) : list string :=
  map (fun line => spaces _INDENT_SIZE +:+ line) lines.

Definition _json_path_to_string (path : list token) : string :=
  "/" +:+ str_join "/" (map str_of_token path).

Definition _schema_reference_to_path (ref : string) : list string :=
  if String.eqb ref "#" then []
  else split_slash (drop2 ref).

(** ** Domain Locator *)

(** [tok == "literal"]: an int never equals a string. *)
Definition token_is (tok : token) (s : string) : bool :=
  match tok with
  | TStr s' => String.eqb s' s
  | TInt _ => false
  end.

Definition _instance_path_to_description (instance_path : list token) : res string :=
  let path_len := length instance_path in
  message_parts ←
    (if Nat.eqb path_len 0 then Ok ["root level of experiment description"]
     else
       first ← py_index instance_path 0;
       if token_is first "parameters" then
         if Nat.eqb path_len 1 then Ok ["global parameters section"]
         else
           parameter_id ← py_index instance_path 1;
           Ok ("parameter" ::
               match parameter_id with
               | TStr s => [dquote +:+ s +:+ dquote]
               | TInt i => ["#" +:+ str_of_int (i + 1)]
               end)
       else if token_is first "tasks" then
         if Nat.eqb path_len 1 then Ok ["tasks section"]
         else
           second ← py_index instance_path 1;
           let parts := ["task plugin " +:+ dquote +:+ str_of_token second +:+ dquote] in
           if (2 <? length instance_path)%nat then
             third ← py_index instance_path 2;
             if token_is third "outputs" then Ok (parts ++ ["outputs"])
             else if token_is third "plugin" then Ok (parts ++ ["plugin ID"])
             else Ok parts
           else Ok parts
       else if token_is first "graph" then
         if Nat.eqb path_len 1 then Ok ["graph section"]
         else
           second ← py_index instance_path 1;
           let parts := ["step " +:+ dquote +:+ str_of_token second +:+ dquote] in
           if (2 <? length instance_path)%nat then
             third ← py_index instance_path 2;
             if token_is third "dependencies" then Ok (parts ++ ["dependencies"])
             else Ok parts
           else Ok parts
       else Ok []);
  match message_parts with
  | _ :: _ => Ok (str_join " " message_parts)
  | [] =>
      (* fallbacks if we don't know another way of describing the location *)
      let instance_path_str := _json_path_to_string instance_path in
      Ok ("experiment description location " +:+ instance_path_str)
  end.

(** ** Schema Reference Resolver *)

(** [isinstance(schema, dict) and "$ref" in schema], with [schema["$ref"]]. *)
Definition ref_of (schema : json) : option json :=
  match schema with
  | JDict d => dict_get d "$ref"
  | _ => None
  end.

(** [_schema_reference_to_path(schema["$ref"])]: the function slices its
    argument and splits it, which only a string supports (a list can be
    sliced but has no [split]; slicing a dict is a TypeError up to Python
    3.11). *)
Definition reference_path (ref : json) : res (list token) :=
  match ref with
  | JStr r => Ok (map TStr (_schema_reference_to_path r))
  | JList _ => Raise AttributeError
  | _ => Raise TypeError
  end.

Definition is_list (schema : json) : bool :=
  match schema with
  | JList _ => true
  | _ => false
  end.

Fixpoint _extract_schema_by_schema_path
    (depth : nat) (schema_path : list token) (full_schema schema : json)
    : res json :=
  match depth with
  | O => Raise RecursionError
  | S depth' =>
      let schema := match schema with JNull => full_schema | _ => schema end in
      match ref_of schema with
      | Some ref =>
          ref_schema_path ← reference_path ref;
          (* Here, schema_path may have integer list indices. *)
          let ref_schema_path := ref_schema_path ++ schema_path in
          _extract_schema_by_schema_path depth' ref_schema_path full_schema JNull
      | None =>
          let next_path_component := head schema_path in
          let schema_path_it := tail schema_path in
          if negb (truthy_opt_token next_path_component) then Ok schema
          else
            match next_path_component with
            | None => Ok schema
            | Some next_path_component =>
                next_path_component ←
                  (if is_list schema
                   then TInt <$> int_of_token next_path_component
                   else Ok next_path_component);
                subschema ← py_getitem schema next_path_component;
                _extract_schema_by_schema_path
                  depth' schema_path_it full_schema subschema
            end
      end
  end.

Definition _extract_schema_by_reference (depth : nat) (ref : string) (schema : json)
    : res json :=
  let ref_schema_path := map TStr (_schema_reference_to_path ref) in
  _extract_schema_by_schema_path depth ref_schema_path schema JNull.

(** ** Alternative Namer *)

(** [enumerate(l)] *)
Definition enumerate {A : Type} (l : list A) : list (Z * A) :=
  imap (fun i x => (Z.of_nat i, x)) l.

(** Using a value as a dictionary key hashes it; lists and dicts are
    unhashable. *)
Definition hash_key (x : json) : res pyname :=
  match x with
  | JNull => Ok NNone
  | JBool b => Ok (NBool b)
  | JInt i => Ok (NInt i)
  | JStr s => Ok (NStr s)
  | JList _ | JDict _ => Raise TypeError
  end.

(** Equality of dictionary keys: [True == 1] and [False == 0]. *)
Definition key_norm (n : pyname) : pyname :=
  match n with
  | NBool true => NInt 1
  | NBool false => NInt 0
  | _ => n
  end.

Definition key_eqb (a b : pyname) : bool :=
  bool_decide (key_norm a = key_norm b).

(** [collections.defaultdict(int)], read and written at one key. *)
Fixpoint counts_get (name_counts : list (pyname * Z)) (name : pyname) : Z :=
  match name_counts with
  | [] => 0
  | (k, c) :: rest => if key_eqb k name then c else counts_get rest name
  end.

Fixpoint counts_set (name_counts : list (pyname * Z)) (name : pyname) (c : Z)
    : list (pyname * Z) :=
  match name_counts with
  | [] => [(name, c)]
  | (k, c') :: rest =>
      if key_eqb k name then (k, c) :: rest
      else (k, c') :: counts_set rest name c
  end.

(** [alternative_schema.get("title")]: only a dict has [get]. *)
Definition get_title (alternative_schema : json) : res json :=
  match alternative_schema with
  | JDict d => Ok (default JNull (dict_get d "title"))
  | _ => Raise AttributeError
  end.

Definition fallback_name (idx : Z) : json :=
  JStr ("Alternative #" +:+ str_of_int (idx + 1)).

(** One turn of the loop over the alternatives: the state is
    [name_counts] and [names]. *)
Definition naming_step (depth : nat) (full_schema : json)
    (acc : list (pyname * Z) * list pyname) (ia : Z * json)
    : res (list (pyname * Z) * list pyname) :=
  let '(name_counts, names) := acc in
  let '(idx, alternative_schema) := ia in
  name ←
    match alternative_schema with
    | JDict _ =>
        alternative_schema ←
          _extract_schema_by_schema_path depth [] full_schema alternative_schema;
        name ← get_title alternative_schema;
        if negb (truthy name) then Ok (fallback_name idx) else Ok name
    | _ => Ok (fallback_name idx)
    end;
  name ← hash_key name;
  let name_count := counts_get name_counts name in
  let name_counts := counts_set name_counts name (name_count + 1) in
  if (name_count =? 0)%Z then Ok (name_counts, names ++ [name])
  else
    Ok (name_counts,
        names ++ [NStr (str_of_name name +:+ "(" +:+ str_of_int (name_count + 1) +:+ ")")]).

Definition _get_one_of_alternative_names
    (depth : nat) (alternative_schemas : json) (full_schema : json)
    : res (list pyname) :=
  alternatives ← py_iter alternative_schemas;
  '(_, names) ← foldM (naming_step depth full_schema) ([], []) (enumerate alternatives);
  Ok names.

(** ** Validation failures *)

(** The attributes of [jsonschema.exceptions.ValidationError] that the
    module reads. *)
Inductive ValidationError : Type := mkValidationError {
  validator : string;
  absolute_path : list token;
  absolute_schema_path : list token;
  instance : json;
  validator_value : json;
  context : list ValidationError;
  message : string
}.

(** [errors_by_alt[name].append(v)] on a [collections.defaultdict(list)]: a
    new key goes to the end, an old key keeps its place. *)
Fixpoint group_append {V : Type}
    (errors_by_alt : list (pyname * list V)) (name : pyname) (v : V)
    : list (pyname * list V) :=
  match errors_by_alt with
  | [] => [(name, [v])]
  | (k, vs) :: rest =>
      if key_eqb k name then (k, vs ++ [v]) :: rest
      else (k, vs) :: group_append rest name v
  end.

(** [assert isinstance(error_alt_idx, int)] *)
Definition assert_int (tok : token) : res Z :=
  match tok with
  | TInt i => Ok i
  | TStr _ => Raise AssertionError
  end.

Definition alternative_header (alt_name : pyname) : string :=
  "Errors associated with alternative " +:+ dquote +:+ str_of_name alt_name
  +:+ dquote +:+ ":".

(** ** Message Composer *)

(** One turn of the loop over [error.context]: the nested error goes to
    the alternative that the element of its schema path after the oneOf
    path names.  [V] is what travels with the error. *)
Definition attribute_step {V : Type} (alt_names : list pyname)
    (one_of_schema_path_len : nat)
    (errors_by_alt : list (pyname * list (ValidationError * V)))
    (ctx_error : ValidationError * V)
    : res (list (pyname * list (ValidationError * V))) :=
  error_alt_idx ←
    py_index (absolute_schema_path (fst ctx_error)) (Z.of_nat one_of_schema_path_len);
  error_alt_idx ← assert_int error_alt_idx;
  alt_name ← py_index alt_names error_alt_idx;
  Ok (group_append errors_by_alt alt_name ctx_error).

(** One turn of the loop over the errors of an alternative. *)
Definition emit_error (message_lines : list string)
    (alt_error : ValidationError * res (list string)) : res (list string) :=
  sub_message_lines ← snd alt_error;
  Ok (message_lines ++ _indent_lines sub_message_lines).

(** One turn of the loop over [errors_by_alt.items()]. *)
Definition emit_alternative (message_lines : list string)
    (item : pyname * list (ValidationError * res (list string)))
    : res (list string) :=
  let '(alt_name, alt_errors) := item in
  let message_lines := message_lines ++ [alternative_header alt_name] in
  foldM emit_error message_lines alt_errors.

Section Composer.

(** The validator of the jsonschema library, built for a sub-schema with
    a resolver for the full schema: [is_valid] answers for an instance,
    or an exception of the library comes through. *)
Variable jsonschema_is_valid : json -> json -> json -> res bool.

Definition _is_valid_for_sub_schema (full_schema sub_schema sub_instance : json)
    : res bool :=
  jsonschema_is_valid full_schema sub_schema sub_instance.

(** One turn of the loop over [zip(alt_names, error.validator_value)]. *)
Definition probe_step (schema sub_instance : json)
    (satisfied_alt_names : list pyname) (pair : pyname * json)
    : res (list pyname) :=
  let '(alt_name, alt_schema) := pair in
  (* Perform a little "mini" validation to determine which alternatives
     were satisfied. *)
  satisfied ← _is_valid_for_sub_schema schema alt_schema sub_instance;
  if satisfied : bool then Ok (satisfied_alt_names ++ [alt_name])
  else Ok satisfied_alt_names.

Definition _one_of_too_many_alternatives_satisfied_message_lines
    (depth : nat) (error : ValidationError) (schema : json) : res (list string) :=
  alt_names ← _get_one_of_alternative_names depth (validator_value error) schema;
  joined ← join_names ", " alt_names;
  let error_desc := "Must be exactly one of: " +:+ joined in
  alternatives ← py_iter (validator_value error);
  satisfied_alt_names ←
    foldM (probe_step schema (instance error)) [] (zip alt_names alternatives);
  joined_satisfied ← join_names ", " satisfied_alt_names;
  let error_desc :=
    error_desc +:+ ".  Content satisfied more than one alternative: "
    +:+ joined_satisfied +:+ "." in
  Ok [error_desc].

(** [explained_context] is [error.context], each nested error paired with
    the outcome of [_validation_error_to_message_lines] on it; the
    outcome is only looked at where the source makes the call. *)
Definition _one_of_no_alternatives_satisfied_message_lines
    (depth : nat) (error : ValidationError) (schema : json)
    (explained_context : list (ValidationError * res (list string)))
    : res (list string) :=
  let message_lines := [] in
  (* First error message line describes the error in basic terms. *)
  alt_names ← _get_one_of_alternative_names depth (validator_value error) schema;
  joined ← join_names ", " alt_names;
  let basic_desc :=
    "Must be exactly one of: " +:+ joined
    +:+ "; all alternatives failed validation." in
  let message_lines := message_lines ++ [basic_desc] in
  let one_of_schema_path_len := length (absolute_schema_path error) in
  (* assert error.context *)
  _ ← (match explained_context with [] => Raise AssertionError | _ => Ok tt end);
  errors_by_alt ←
    foldM (attribute_step alt_names one_of_schema_path_len) [] explained_context;
  foldM emit_alternative message_lines errors_by_alt.

Fixpoint _validation_error_to_message_lines
    (depth : nat) (error : ValidationError) (schema : json) {struct error}
    : res (list string) :=
  (* Describe "where" the error occurred *)
  location_desc ← _instance_path_to_description (absolute_path error);
  (* Describe "what" error(s) occurred *)
  what_lines ←
    (if String.eqb (validator error) "oneOf" then
       match context error with
       | _ :: _ =>
           _one_of_no_alternatives_satisfied_message_lines depth error schema
             (map (fun ctx_error =>
                     (ctx_error,
                      _validation_error_to_message_lines depth ctx_error schema))
                  (context error))
       | [] =>
           _one_of_too_many_alternatives_satisfied_message_lines depth error schema
       end
     else
       (* fallback if we can't be more clever about our message *)
       Ok [message error]);
  if Nat.eqb (length what_lines) 1 then
    first_line ← py_index what_lines 0;
    Ok ["In " +:+ location_desc +:+ ": " +:+ first_line]
  else
    Ok (("In " +:+ location_desc +:+ ":") :: _indent_lines what_lines).

(** ** Public Entry Points *)

Definition validation_error_to_message
    (depth : nat) (error : ValidationError) (schema : json) : res string :=
  message_lines ← _validation_error_to_message_lines depth error schema;
  Ok (str_join newline message_lines).

Definition validation_errors_to_message
    (depth : nat) (errors : list ValidationError) (schema : json) : res string :=
  messages ←
    mapM (fun error => validation_error_to_message depth error schema) errors;
  Ok (str_join (newline +:+ newline) messages).

End Composer.

(** ** The specification's wording, for comparison with the code *)

Module Spec.

(** The section case analysis of the Domain Locator. *)
Definition quoted (s : string) : string := dquote +:+ s +:+ dquote.

Definition locate (path : list token) : string :=
  match path with
  | [] => "root level of experiment description"
  | first :: rest =>
      if token_is first "parameters" then
        match rest with
        | [] => "global parameters section"
        | TStr name :: _ => "parameter " +:+ quoted name
        | TInt n :: _ => "parameter #" +:+ str_of_int (n + 1)
        end
      else if token_is first "tasks" then
        match rest with
        | [] => "tasks section"
        | name :: [] => "task plugin " +:+ quoted (str_of_token name)
        | name :: third :: _ =>
            "task plugin " +:+ quoted (str_of_token name) +:+
            (if token_is third "outputs" then " outputs"
             else if token_is third "plugin" then " plugin ID"
             else "")
        end
      else if token_is first "graph" then
        match rest with
        | [] => "graph section"
        | name :: [] => "step " +:+ quoted (str_of_token name)
        | name :: third :: _ =>
            "step " +:+ quoted (str_of_token name) +:+
            (if token_is third "dependencies" then " dependencies" else "")
        end
      else "experiment description location " +:+ _json_path_to_string path
  end.

(** The candidate name of the alternative at position [idx] as one turn
    of the namer's loop computes it, with the steps of the code (the
    resolver, [get], the test of the title); the loop is compared with
    [uniquify] through it.  The words of the specification for the
    candidate are [stated_candidate] below. *)
Definition candidate_name (depth : nat) (full_document : json)
    (idx : Z) (alternative : json) : res pyname :=
  match alternative with
  | JDict _ =>
      node ← _extract_schema_by_schema_path depth [] full_document alternative;
      title ← get_title node;
      hash_key (if truthy title then title else fallback_name idx)
  | _ => hash_key (fallback_name idx)
  end.

(** How often [name] occurs in [earlier]. *)
Definition occurrences (earlier : list pyname) (name : pyname) : nat :=
  length (filter (fun c => key_eqb c name = true) earlier).

(** The first occurrence of a candidate is used unmodified, its k-th
    repeat is rendered with the suffix (k+1). *)
Definition render (name : pyname) (k : nat) : pyname :=
  match k with
  | O => name
  | S _ => NStr (str_of_name name +:+ "(" +:+ str_of_int (Z.of_nat k + 1) +:+ ")")
  end.

Fixpoint uniquify (earlier : list pyname) (candidates : list pyname) : list pyname :=
  match candidates with
  | [] => []
  | c :: rest => render c (occurrences earlier c) :: uniquify (earlier ++ [c]) rest
  end.

(** The namer as its loop computes it: the candidates, then their
    uniquification. *)
Definition names (depth : nat) (alternatives : list json) (full_document : json)
    : res (list pyname) :=
  candidates ←
    mapM (fun ia => candidate_name depth full_document (fst ia) (snd ia))
         (enumerate alternatives);
  Ok (uniquify [] candidates).

(** The alternative a nested failure belongs to: the token of its schema
    path that follows the outer failure's schema path is the index. *)
Definition owner (alt_names : list string) (outer nested : ValidationError)
    : option string :=
  match absolute_schema_path nested !! length (absolute_schema_path outer) with
  | Some (TInt idx) =>
      if (idx <? 0)%Z then None else alt_names !! Z.to_nat idx
  | _ => None
  end.

(** The names in the order they are first met. *)
Fixpoint first_seen (seen : list string) (owners : list string) : list string :=
  match owners with
  | [] => []
  | o :: rest =>
      if bool_decide (o ∈ seen) then first_seen seen rest
      else o :: first_seen (o :: seen) rest
  end.

Definition indent (line : string) : string := "    " +:+ line.

(** The block of one alternative: its header, then the explanations of
    the nested failures it owns, in their order, one level deeper. *)
Definition block (explained : list (string * list string)) (name : string)
    : list string :=
  ("Errors associated with alternative " +:+ quoted name +:+ ":") ::
  flat_map (fun ol => if String.eqb (fst ol) name then map indent (snd ol) else [])
           explained.

Definition none_satisfied_body (alt_names : list string)
    (explained : list (string * list string)) : list string :=
  ("Must be exactly one of: " +:+ str_join ", " alt_names
     +:+ "; all alternatives failed validation.") ::
  flat_map (block explained) (first_seen [] (map fst explained)).

(** The names of the alternatives the probe found valid, in order. *)
Definition satisfied (alt_names : list string) (valid : list bool) : list string :=
  map fst (filter (fun nv => snd nv = true) (zip alt_names valid)).

Definition too_many_line (alt_names : list string) (valid : list bool) : string :=
  ("Must be exactly one of: " +:+ str_join ", " alt_names) +:+
  (".  Content satisfied more than one alternative: "
     +:+ str_join ", " (satisfied alt_names valid) +:+ ".").

(** *** The Alternative Namer in the words of the specification

    Written from 4.2 and 4.3 alone: none of the functions of the code is
    used, only the operations on values ([get] on a mapping, [split]). *)









End Spec.

(** ** Invariants *)

(** The running counter of a name is the number of its earlier
    occurrences. *)
Definition counts_agree (name_counts : list (pyname * Z)) (earlier : list pyname)
    : Prop :=
  forall name, counts_get name_counts name = Z.of_nat (Spec.occurrences earlier name).

(** A reference whose path has no empty segment, and a document in which
    every reference is such: there the walk of the resolver never meets a
    token that tests false on the path of a reference. *)
Definition clean_reference (d : list (string * json)) : bool :=
  match dict_get d "$ref" with
  | Some (JStr r) => forallb (fun s => negb (String.eqb s "")) (_schema_reference_to_path r)
  | _ => true
  end.

Fixpoint clean_references (x : json) : bool :=
  match x with
  | JList l =>
      (fix all (l : list json) : bool :=
         match l with
         | [] => true
         | y :: l' => clean_references y && all l'
         end) l
  | JDict d =>
      clean_reference d &&
      (fix all (d : list (string * json)) : bool :=
         match d with
         | [] => true
         | (_, y) :: d' => clean_references y && all d'
         end) d
  | _ => true
  end.

(** A path segment that [split("/")] leaves whole. *)
Definition slash_free (s : string) : bool :=
  forallb (fun c => negb (Ascii.eqb c "/"%char)) (list_ascii_of_string s).

(** What the grouping loop has built after the items [(owner, value)]:
    one entry per owner in the order the owners are first met, holding the
    values of that owner in their order. *)
Definition groups_of {V : Type} (items : list (string * V)) : list (pyname * list V) :=
  map (fun name =>
         (NStr name, map snd (filter (fun item => fst item = name) items)))
      (Spec.first_seen [] (map fst items)).

(** The lines an explained nested error adds to the message. *)
Definition lines_of (alt_error : ValidationError * res (list string)) : list string :=
  match snd alt_error with
  | Ok sub_message_lines => _indent_lines sub_message_lines
  | Raise _ => []
  end.

(** ** The composer with its lists kept in a store

    The composer builds its message in Python lists and updates them in
    place ([_indent_lines], [append], [extend]).  In this module a list of
    lines is an object of a store, named by its address, and a function
    returns the address of the list it built.  What does not touch such a
    list (locator, resolver, namer, probe) is used as above. *)

Module InPlace.

(** The list objects allocated so far; an address is a position. *)
Abbreviation store := (list (list string)).

(** A computation reads and writes the store; when it raises, the
    writes it made before remain. *)
Definition M (A : Type) : Type := store -> res A * store.

#[global] Instance M_ret : MRet M := fun _ a s => (Ok a, s).
#[global] Instance M_bind : MBind M := fun _ _ f m s =>
  match m s with
  | (Ok a, s') => f a s'
  | (Raise e, s') => (Raise e, s')
  end.

Definition lift {A : Type} (r : res A) : M A := fun s => (r, s).

(** [[x, ...]]: a new list object. *)
Definition new_list (xs : list string) : M nat :=
  fun s => (Ok (length s), s ++ [xs]).

Definition contents (lines : nat) : M (list string) :=
  fun s => (Ok (default [] (s !! lines)), s).

(** An update of the list object at one address. *)
Definition update (lines : nat) (f : list string -> list string) : M unit :=
  fun s => (Ok tt, alter f lines s).

(** [len(lines)] *)
Definition list_len (lines : nat) : M nat :=
  xs ← contents lines; mret (length xs).

(** [lines[i]] *)
Definition list_getitem (lines : nat) (i : Z) : M string :=
  xs ← contents lines; lift (py_index xs i).

(** [lines[i] = x] *)
Definition list_setitem (lines : nat) (i : nat) (x : string) : M unit :=
  xs ← contents lines;
  if (i <? length xs)%nat then update lines (fun xs => <[i := x]> xs)
  else lift (Raise IndexError).

(** [lines.append(x)] *)
Definition list_append (lines : nat) (x : string) : M unit :=
  update lines (fun xs => xs ++ [x]).

(** [lines.extend(other)] *)
Definition list_extend (lines other : nat) : M unit :=
  ys ← contents other;
  update lines (fun xs => xs ++ ys).

(** [for x in l: body(x)] *)
Fixpoint for_each {A : Type} (body : A -> M unit) (l : list A) : M unit :=
  match l with
  | [] => mret tt
  | x :: l' => _ ← body x; for_each body l'
  end.

Definition _indent_lines (lines : nat) : M nat :=
  n ← list_len lines;
  _ ← for_each (fun i =>
         line ← list_getitem lines (Z.of_nat i);
         list_setitem lines i (spaces _INDENT_SIZE +:+ line))
       (seq 0 n);
  mret lines.

Definition emit_error (message_lines : nat) (alt_error : ValidationError * M nat)
    : M unit :=
  sub_message_lines ← snd alt_error;
  indented ← _indent_lines sub_message_lines;
  list_extend message_lines indented.

Definition emit_alternative (message_lines : nat)
    (item : pyname * list (ValidationError * M nat)) : M unit :=
  let '(alt_name, alt_errors) := item in
  _ ← list_append message_lines (alternative_header alt_name);
  for_each (emit_error message_lines) alt_errors.

Section Composer.

Variable jsonschema_is_valid : json -> json -> json -> res bool.

Definition _one_of_too_many_alternatives_satisfied_message_lines
    (depth : nat) (error : ValidationError) (schema : json) : M nat :=
  alt_names ← lift (_get_one_of_alternative_names depth (validator_value error) schema);
  joined ← lift (join_names ", " alt_names);
  let error_desc := "Must be exactly one of: " +:+ joined in
  alternatives ← lift (py_iter (validator_value error));
  satisfied_alt_names ←
    lift (foldM (probe_step jsonschema_is_valid schema (instance error))
                [] (zip alt_names alternatives));
  joined_satisfied ← lift (join_names ", " satisfied_alt_names);
  let error_desc :=
    error_desc +:+ ".  Content satisfied more than one alternative: "
    +:+ joined_satisfied +:+ "." in
  new_list [error_desc].

Definition _one_of_no_alternatives_satisfied_message_lines
    (depth : nat) (error : ValidationError) (schema : json)
    (explained_context : list (ValidationError * M nat)) : M nat :=
  message_lines ← new_list [];
  alt_names ← lift (_get_one_of_alternative_names depth (validator_value error) schema);
  joined ← lift (join_names ", " alt_names);
  let basic_desc :=
    "Must be exactly one of: " +:+ joined
    +:+ "; all alternatives failed validation." in
  _ ← list_append message_lines basic_desc;
  let one_of_schema_path_len := length (absolute_schema_path error) in
  _ ← lift (match explained_context with [] => Raise AssertionError | _ => Ok tt end);
  errors_by_alt ←
    lift (foldM (attribute_step alt_names one_of_schema_path_len)
                [] explained_context);
  _ ← for_each (emit_alternative message_lines) errors_by_alt;
  mret message_lines.

Fixpoint _validation_error_to_message_lines
    (depth : nat) (error : ValidationError) (schema : json) {struct error}
    : M nat :=
  location_desc ← lift (_instance_path_to_description (absolute_path error));
  what_lines ←
    (if String.eqb (validator error) "oneOf" then
       match context error with
       | _ :: _ =>
           _one_of_no_alternatives_satisfied_message_lines depth error schema
             (map (fun ctx_error =>
                     (ctx_error,
                      _validation_error_to_message_lines depth ctx_error schema))
                  (context error))
       | [] =>
           _one_of_too_many_alternatives_satisfied_message_lines depth error schema
       end
     else new_list [message error]);
  n ← list_len what_lines;
  if Nat.eqb n 1 then
    first_line ← list_getitem what_lines 0;
    new_list ["In " +:+ location_desc +:+ ": " +:+ first_line]
  else
    message_lines ← new_list ["In " +:+ location_desc +:+ ":"];
    indented ← _indent_lines what_lines;
    _ ← list_extend message_lines indented;
    mret message_lines.

Definition validation_error_to_message
    (depth : nat) (error : ValidationError) (schema : json) : M string :=
  message_lines ← _validation_error_to_message_lines depth error schema;
  lines ← contents message_lines;
  mret (str_join newline lines).

Definition validation_errors_to_message
    (depth : nat) (errors : list ValidationError) (schema : json) : M string :=
  messages ←
    mapM (fun error => validation_error_to_message depth error schema) errors;
  mret (str_join (newline +:+ newline) messages).

End Composer.

End InPlace.

(** ** What a computation on the store may do

    [builds m r]: from any store, [m] leaves the objects that were there
    as they were, and either raises as [r] does or returns the address of
    an object it allocated, which holds the lines of [r]. *)
Definition builds (m : InPlace.M nat) (r : res (list string)) : Prop :=
  forall s,
    s `prefix_of` snd (m s) /\
    match r with
    | Ok lines =>
        exists l, fst (m s) = Ok l /\ length s <= l /\ snd (m s) !! l = Some lines
    | Raise e => fst (m s) = Raise e
    end.

(** [extends m a f]: in a store that has grown from [s0] and holds the
    lines [acc] at the address [a] allocated since, [m] leaves the objects
    of [s0] as they were, and either raises as [f acc] does or leaves the
    lines of [f acc] at [a]. *)
Definition extends (m : InPlace.M unit) (a : nat)
    (f : list string -> res (list string)) : Prop :=
  forall s0 s acc,
    s0 `prefix_of` s -> length s0 <= a -> s !! a = Some acc ->
    s0 `prefix_of` snd (m s) /\
    match f acc with
    | Ok acc' => fst (m s) = Ok tt /\ snd (m s) !! a = Some acc'
    | Raise e => fst (m s) = Raise e
    end.

(** A nested error with its explanation, in the store and as a value. *)
Definition explained_alike (x : ValidationError * InPlace.M nat)
    (y : ValidationError * res (list string)) : Prop :=
  fst x = fst y /\ builds (snd x) (snd y).

Definition grouped_alike (g : pyname * list (ValidationError * InPlace.M nat))
    (h : pyname * list (ValidationError * res (list string))) : Prop :=
  fst g = fst h /\ Forall2 explained_alike (snd g) (snd h).

(** ** The module on a heap of objects

    The schema document, the validation failures and every list and
    dictionary the module builds are objects of one heap, named by their
    addresses; a call reads and writes the heap.  Strings and numbers are
    immutable values. *)

Module Heap.

Inductive value : Type :=
  | VNone
  | VBool (b : bool)
  | VInt (i : Z)
  | VStr (s : string)
  | VRef (l : nat).

(** The attributes of a [jsonschema.exceptions.ValidationError] that the
    module reads. *)
Record failure : Type := mkFailure {
  validator : value;
  absolute_path : value;
  absolute_schema_path : value;
  instance : value;
  validator_value : value;
  context : value;
  message : value
}.

(** A list, a dict with its keys in insertion order, an iterator with the
    value it runs over and its position, a validation failure.  The paths
    of a failure, which the library keeps in deques, are lists here: the
    module measures them, indexes them and runs over them, which a deque
    and a list do alike. *)
Inductive object : Type :=
  | OList (items : list value)
  | ODict (entries : list (value * value))
  | OIter (source : value) (position : nat)
  | OError (attributes : failure).

Abbreviation heap := (list object).

(** A computation reads and writes the heap; when it raises, the writes
    it made before remain. *)
Definition M (A : Type) : Type := heap -> res A * heap.

#[global] Instance M_ret : MRet M := fun _ a h => (Ok a, h).
#[global] Instance M_bind : MBind M := fun _ _ f m h =>
  match m h with
  | (Ok a, h') => f a h'
  | (Raise e, h') => (Raise e, h')
  end.

Definition lift {A : Type} (r : res A) : M A := fun h => (r, h).
Definition raise {A : Type} (e : pyerr) : M A := lift (Raise e).

(** What a computation reads from the heap without writing. *)
Definition peek {A : Type} (f : heap -> A) : M A := fun h => (Ok (f h), h).
Definition attempt {A : Type} (f : heap -> res A) : M A := fun h => (f h, h).

(** A new object gets the next address. *)
Definition alloc (o : object) : M value :=
  fun h => (Ok (VRef (length h)), h ++ [o]).

(** The object at an address.  Addresses come from [alloc], so none is
    outside the heap; one that were reads as an empty list. *)
Definition object_at (h : heap) (l : nat) : object := default (OList []) (h !! l).

Definition put (l : nat) (o : object) : M unit :=
  fun h => (Ok tt, <[l := o]> h).

(** *** Reading values *)

(** [isinstance(v, dict)], [isinstance(v, list)], [isinstance(v, str)],
    [isinstance(v, int)] (a bool is an int). *)
Definition is_dict (h : heap) (v : value) : bool :=
  match v with
  | VRef l => match object_at h l with ODict _ => true | _ => false end
  | _ => false
  end.

Definition is_list (h : heap) (v : value) : bool :=
  match v with
  | VRef l => match object_at h l with OList _ => true | _ => false end
  | _ => false
  end.

Definition is_str (v : value) : bool :=
  match v with VStr _ => true | _ => false end.

Definition is_int (v : value) : bool :=
  match v with VInt _ | VBool _ => true | _ => false end.

(** [v == "literal"] *)
Definition eq_str (v : value) (s : string) : bool :=
  match v with VStr t => String.eqb t s | _ => false end.

Definition number (v : value) : option Z :=
  match v with
  | VInt i => Some i
  | VBool b => Some (Z.b2z b)
  | _ => None
  end.

(** [bool(v)] *)
Definition truth (h : heap) (v : value) : bool :=
  match v with
  | VNone => false
  | VBool b => b
  | VInt i => negb (i =? 0)%Z
  | VStr s => negb (String.eqb s "")
  | VRef l =>
      match object_at h l with
      | OList items => negb (Nat.eqb (length items) 0)
      | ODict entries => negb (Nat.eqb (length entries) 0)
      | OIter _ _ | OError _ => true
      end
  end.

(** [len(v)] *)
Definition len (h : heap) (v : value) : res nat :=
  match v with
  | VStr s => Ok (String.length s)
  | VRef l =>
      match object_at h l with
      | OList items => Ok (length items)
      | ODict entries => Ok (length entries)
      | OIter _ _ | OError _ => Raise TypeError
      end
  | _ => Raise TypeError
  end.

(** [int(v)] *)
Definition to_int (v : value) : res Z :=
  match v with
  | VInt i => Ok i
  | VBool b => Ok (Z.b2z b)
  | VStr s => int_of_str s
  | VNone | VRef _ => Raise TypeError
  end.

(** [v == 0] *)
Definition eq_zero (v : value) : bool :=
  match number v with
  | Some i => (i =? 0)%Z
  | None => false
  end.

(** [v + 1] *)
Definition plus_one (v : value) : res value :=
  match number v with
  | Some i => Ok (VInt (i + 1))
  | None => Raise TypeError
  end.

(** Equality of dictionary keys: [True == 1] and [False == 0]; lists and
    dicts are unhashable, other objects are keys by identity. *)
Definition key_eqb (a b : value) : bool :=
  match number a, number b with
  | Some i, Some j => (i =? j)%Z
  | None, None =>
      match a, b with
      | VNone, VNone => true
      | VStr s, VStr t => String.eqb s t
      | VRef l, VRef l' => Nat.eqb l l'
      | _, _ => false
      end
  | _, _ => false
  end.

Definition hashable (h : heap) (key : value) : bool :=
  match key with
  | VRef l => match object_at h l with OList _ | ODict _ => false | _ => true end
  | _ => true
  end.

Fixpoint assoc (entries : list (value * value)) (key : value) : option value :=
  match entries with
  | [] => None
  | (k, v) :: rest => if key_eqb k key then Some v else assoc rest key
  end.

(** [d[key] = v]: an old key keeps its place, a new one goes to the end. *)
Fixpoint assoc_set (entries : list (value * value)) (key v : value)
    : list (value * value) :=
  match entries with
  | [] => [(key, v)]
  | (k, w) :: rest =>
      if key_eqb k key then (k, v) :: rest else (k, w) :: assoc_set rest key v
  end.

Definition characters (s : string) : list value :=
  map (fun c => VStr (String c EmptyString)) (list_ascii_of_string s).

(** [container[key]] *)
Definition getitem (h : heap) (container key : value) : res value :=
  match container with
  | VStr s =>
      match number key with
      | Some i => py_index (characters s) i
      | None => Raise TypeError
      end
  | VRef l =>
      match object_at h l with
      | OList items =>
          match number key with
          | Some i => py_index items i
          | None => Raise TypeError
          end
      | ODict entries =>
          if hashable h key then
            match assoc entries key with
            | Some v => Ok v
            | None => Raise KeyError
            end
          else Raise TypeError
      | OIter _ _ | OError _ => Raise TypeError
      end
  | _ => Raise TypeError
  end.

(** [isinstance(schema, dict) and "$ref" in schema] *)
Definition is_reference (h : heap) (schema : value) : bool :=
  match schema with
  | VRef l =>
      match object_at h l with
      | ODict entries => bool_decide (is_Some (assoc entries (VStr "$ref")))
      | _ => false
      end
  | _ => false
  end.

(** [node.get(key)]: only a dict has [get]. *)
Definition dict_get_method (h : heap) (node key : value) : res value :=
  match node with
  | VRef l =>
      match object_at h l with
      | ODict entries =>
          if hashable h key then Ok (default VNone (assoc entries key))
          else Raise TypeError
      | _ => Raise AttributeError
      end
  | _ => Raise AttributeError
  end.

(** [d.items()] *)
Definition dict_items (h : heap) (d : value) : res (list (value * value)) :=
  match d with
  | VRef l =>
      match object_at h l with
      | ODict entries => Ok entries
      | _ => Raise AttributeError
      end
  | _ => Raise AttributeError
  end.

(** [error.attribute] *)
Definition attribute (h : heap) (error : value) (field : failure -> value)
    : res value :=
  match error with
  | VRef l =>
      match object_at h l with
      | OError attributes => Ok (field attributes)
      | _ => Raise AttributeError
      end
  | _ => Raise AttributeError
  end.

(** What an iterator over [source] runs over. *)
Definition source_items (h : heap) (source : value) : list value :=
  match source with
  | VStr s => characters s
  | VRef l =>
      match object_at h l with
      | OList items => items
      | ODict entries => map fst entries
      | OIter _ _ | OError _ => []
      end
  | _ => []
  end.

Section Calls.

(** [repr] of a container or of another object, which [str] and
    [format] print; it reads the heap. *)
Variable repr : heap -> nat -> string.

(** [str(v)], which is what ["{}".format(v)] prints. *)
Definition to_str (h : heap) (v : value) : string :=
  match v with
  | VNone => "None"
  | VBool true => "True"
  | VBool false => "False"
  | VInt i => str_of_int i
  | VStr s => s
  | VRef l => repr h l
  end.

Definition as_str (v : value) : res string :=
  match v with
  | VStr s => Ok s
  | _ => Raise TypeError
  end.

(** *** Iterators *)

(** [iter(v)]: an iterator is its own iterator, a list, a dict or a
    string gets a new one. *)
Definition iter (v : value) : M value :=
  fun h =>
    match v with
    | VStr _ => alloc (OIter v 0) h
    | VRef l =>
        match object_at h l with
        | OIter _ _ => (Ok v, h)
        | OList _ | ODict _ => alloc (OIter v 0) h
        | OError _ => (Raise TypeError, h)
        end
    | _ => (Raise TypeError, h)
    end.

(** [next(it, default)]: the iterator moves on when it gives an item. *)
Definition next (it default : value) : M value :=
  fun h =>
    match it with
    | VRef l =>
        match object_at h l with
        | OIter source position =>
            match source_items h source !! position with
            | Some item => (Ok item, <[l := OIter source (S position)]> h)
            | None => (Ok default, h)
            end
        | _ => (Raise TypeError, h)
        end
    | _ => (Raise TypeError, h)
    end.

(** Running over a value ([for], [enumerate], [zip], [join], [extend], a
    comprehension): the items it has at that moment, which are the items
    the loop sees as long as its body does not resize what it runs over.
    An iterator gives the items that remain and is left at its end
    (where a loop ends early, by an exception or at the shorter side of a
    [zip], Python leaves it further back). *)
Definition iterate (v : value) : M (list value) :=
  fun h =>
    match v with
    | VStr s => (Ok (characters s), h)
    | VRef l =>
        match object_at h l with
        | OList items => (Ok items, h)
        | ODict entries => (Ok (map fst entries), h)
        | OIter source position =>
            (Ok (drop position (source_items h source)),
             <[l := OIter source (Nat.max position (length (source_items h source)))]> h)
        | OError _ => (Raise TypeError, h)
        end
    | _ => (Raise TypeError, h)
    end.

(** [for x in l: body(x)] *)
Fixpoint for_each {A : Type} (body : A -> M unit) (l : list A) : M unit :=
  match l with
  | [] => mret tt
  | x :: l' => _ ← body x; for_each body l'
  end.

(** [sep.join(v)]: every item has to be a [str]. *)
Definition join (sep : string) (v : value) : M string :=
  items ← iterate v;
  parts ← lift (mapM as_str items);
  mret (str_join sep parts).

(** *** Writing lists and dicts *)

(** [target.append(x)] *)
Definition list_append (target x : value) : M unit :=
  fun h =>
    match target with
    | VRef l =>
        match object_at h l with
        | OList items => (Ok tt, <[l := OList (items ++ [x])]> h)
        | _ => (Raise AttributeError, h)
        end
    | _ => (Raise AttributeError, h)
    end.

(** [target.extend(iterable)]: the items of [iterable] are taken, then
    put at the end of the list. *)
Definition list_put_last (target : value) (more : list value) : M unit :=
  fun h =>
    match target with
    | VRef l =>
        match object_at h l with
        | OList items => (Ok tt, <[l := OList (items ++ more)]> h)
        | _ => (Raise AttributeError, h)
        end
    | _ => (Raise AttributeError, h)
    end.

Definition list_extend (target iterable : value) : M unit :=
  is_l ← peek (fun h => is_list h target);
  if is_l : bool then
    more ← iterate iterable;
    list_put_last target more
  else raise AttributeError.

(** [target[i] = x] on a list. *)
Definition list_setitem (target : value) (i : nat) (x : value) : M unit :=
  fun h =>
    match target with
    | VRef l =>
        match object_at h l with
        | OList items =>
            if (i <? length items)%nat
            then (Ok tt, <[l := OList (<[i := x]> items)]> h)
            else (Raise IndexError, h)
        | _ => (Raise TypeError, h)
        end
    | _ => (Raise TypeError, h)
    end.

(** [d[key]] on a [collections.defaultdict]: a missing key is first set
    to what the factory makes. *)
Definition defaultdict_getitem (d key : value) (factory : M value) : M value :=
  fun h =>
    match d with
    | VRef l =>
        match object_at h l with
        | ODict entries =>
            if hashable h key then
              match assoc entries key with
              | Some v => (Ok v, h)
              | None =>
                  (v ← factory;
                   _ ← put l (ODict (entries ++ [(key, v)]));
                   mret v) h
              end
            else (Raise TypeError, h)
        | _ => (Raise TypeError, h)
        end
    | _ => (Raise TypeError, h)
    end.

(** [d[key] = v] *)
Definition dict_setitem (d key v : value) : M unit :=
  fun h =>
    match d with
    | VRef l =>
        match object_at h l with
        | ODict entries =>
            if hashable h key then (Ok tt, <[l := ODict (assoc_set entries key v)]> h)
            else (Raise TypeError, h)
        | _ => (Raise TypeError, h)
        end
    | _ => (Raise TypeError, h)
    end.

(** *** The functions of the module *)

Definition _indent_lines (lines : value) : M value :=
  items ← iterate lines;
  _ ← for_each (fun il : nat * value =>
         let '(i, line) := il in
         line ← lift (as_str line);
         list_setitem lines i (VStr (spaces _INDENT_SIZE +:+ line)))
       (imap (fun i line => (i, line)) items);
  mret lines.

Definition _json_path_to_string (path : value) : M string :=
  items ← iterate path;
  parts ← peek (fun h => map (to_str h) items);
  mret ("/" +:+ str_join "/" parts).

(** [ref[2:]] and [.split("/")]: a list can be sliced but has no [split];
    nothing but a string and a list can be sliced. *)
Definition _schema_reference_to_path (ref : value) : M value :=
  if eq_str ref "#" then
    (* I think "#" is legal, and refers to the whole document. *)
    alloc (OList [])
  else
    match ref with
    | VStr r => alloc (OList (map VStr (split_slash (drop2 r))))
    | VRef l =>
        is_l ← peek (fun h => is_list h ref);
        if is_l : bool then raise AttributeError else raise TypeError
    | _ => raise TypeError
    end.

Definition _instance_path_to_description (instance_path : value) : M string :=
  path_len ← attempt (fun h => len h instance_path);
  message_parts ← alloc (OList []);
  _ ←
    (if Nat.eqb path_len 0 then
       list_append message_parts (VStr "root level of experiment description")
     else
       first ← attempt (fun h => getitem h instance_path (VInt 0));
       if eq_str first "parameters" then
         if Nat.eqb path_len 1 then
           list_append message_parts (VStr "global parameters section")
         else
           _ ← list_append message_parts (VStr "parameter");
           parameter_id ← attempt (fun h => getitem h instance_path (VInt 1));
           match parameter_id with
           | VStr s => list_append message_parts (VStr (dquote +:+ s +:+ dquote))
           | _ =>
               if is_int parameter_id then
                 successor ← lift (plus_one parameter_id);
                 text ← peek (fun h => to_str h successor);
                 list_append message_parts (VStr ("#" +:+ text))
               else mret tt
           end
       else if eq_str first "tasks" then
         if Nat.eqb path_len 1 then
           list_append message_parts (VStr "tasks section")
         else
           second ← attempt (fun h => getitem h instance_path (VInt 1));
           text ← peek (fun h => to_str h second);
           _ ← list_append message_parts
                 (VStr ("task plugin " +:+ dquote +:+ text +:+ dquote));
           n ← attempt (fun h => len h instance_path);
           if (2 <? n)%nat then
             third ← attempt (fun h => getitem h instance_path (VInt 2));
             if eq_str third "outputs" then
               list_append message_parts (VStr "outputs")
             else if eq_str third "plugin" then
               list_append message_parts (VStr "plugin ID")
             else mret tt
           else mret tt
       else if eq_str first "graph" then
         if Nat.eqb path_len 1 then
           list_append message_parts (VStr "graph section")
         else
           second ← attempt (fun h => getitem h instance_path (VInt 1));
           text ← peek (fun h => to_str h second);
           _ ← list_append message_parts
                 (VStr ("step " +:+ dquote +:+ text +:+ dquote));
           n ← attempt (fun h => len h instance_path);
           if (2 <? n)%nat then
             third ← attempt (fun h => getitem h instance_path (VInt 2));
             if eq_str third "dependencies" then
               list_append message_parts (VStr "dependencies")
             else mret tt
           else mret tt
       else mret tt);
  some ← peek (fun h => truth h message_parts);
  if some : bool then join " " message_parts
  else
    (* fallbacks if we don't know another way of describing the location *)
    instance_path_str ← _json_path_to_string instance_path;
    mret ("experiment description location " +:+ instance_path_str).

Fixpoint _extract_schema_by_schema_path
    (depth : nat) (schema_path full_schema schema : value) : M value :=
  match depth with
  | O => raise RecursionError
  | S depth' =>
      let schema := match schema with VNone => full_schema | _ => schema end in
      has_ref ← peek (fun h => is_reference h schema);
      if has_ref : bool then
        ref ← attempt (fun h => getitem h schema (VStr "$ref"));
        ref_schema_path ← _schema_reference_to_path ref;
        (* Here, schema_path may have integer list indices. *)
        _ ← list_extend ref_schema_path schema_path;
        _extract_schema_by_schema_path depth' ref_schema_path full_schema VNone
      else
        schema_path_it ← iter schema_path;
        next_path_component ← next schema_path_it VNone;
        truthy ← peek (fun h => truth h next_path_component);
        if negb truthy then mret schema
        else
          sequence ← peek (fun h => is_list h schema);
          next_path_component ←
            (if sequence : bool then lift (VInt <$> to_int next_path_component)
             else mret next_path_component);
          subschema ← attempt (fun h => getitem h schema next_path_component);
          _extract_schema_by_schema_path depth' schema_path_it full_schema subschema
  end.

Definition _extract_schema_by_reference (depth : nat) (ref schema : value) : M value :=
  ref_schema_path ← _schema_reference_to_path ref;
  _extract_schema_by_schema_path depth ref_schema_path schema VNone.

Definition fallback_name (idx : nat) : value :=
  VStr ("Alternative #" +:+ str_of_int (Z.of_nat idx + 1)).

Definition _get_one_of_alternative_names
    (depth : nat) (alternative_schemas full_schema : value) : M value :=
  name_counts ← alloc (ODict []);
  names ← alloc (OList []);
  alternatives ← iterate alternative_schemas;
  _ ← for_each (fun ia : nat * value =>
         let '(idx, alternative_schema) := ia in
         mapping ← peek (fun h => is_dict h alternative_schema);
         name ←
           (if mapping : bool then
              (* dereference if it's just a "$ref" schema *)
              empty_path ← alloc (OList []);
              alternative_schema ←
                _extract_schema_by_schema_path depth empty_path full_schema
                  alternative_schema;
              name ← attempt (fun h =>
                        dict_get_method h alternative_schema (VStr "title"));
              truthy ← peek (fun h => truth h name);
              if negb truthy then mret (fallback_name idx) else mret name
            else
              (* rare case... would only apply to true/false schemas I think. *)
              mret (fallback_name idx));
         (* uniquefy names, just in case... *)
         name_count ← defaultdict_getitem name_counts name (mret (VInt 0));
         current ← defaultdict_getitem name_counts name (mret (VInt 0));
         increased ← lift (plus_one current);
         _ ← dict_setitem name_counts name increased;
         if eq_zero name_count then list_append names name
         else
           successor ← lift (plus_one name_count);
           text ← peek (fun h =>
                     to_str h name +:+ "(" +:+ to_str h successor +:+ ")");
           list_append names (VStr text))
       (imap (fun idx alternative_schema => (idx, alternative_schema)) alternatives);
  mret names.

(** The validator of the jsonschema library, built for a sub-schema with
    a resolver for the full schema, and asked [is_valid]. *)
Variable jsonschema_is_valid : value -> value -> value -> M bool.

Definition _is_valid_for_sub_schema (full_schema sub_schema sub_instance : value)
    : M bool :=
  jsonschema_is_valid full_schema sub_schema sub_instance.

Definition _one_of_too_many_alternatives_satisfied_message_lines
    (depth : nat) (error schema : value) : M value :=
  alternatives ← attempt (fun h => attribute h error validator_value);
  alt_names ← _get_one_of_alternative_names depth alternatives schema;
  joined ← join ", " alt_names;
  let error_desc := "Must be exactly one of: " +:+ joined in
  satisfied_alt_names ← alloc (OList []);
  names ← iterate alt_names;
  alternatives ← attempt (fun h => attribute h error validator_value);
  alternatives ← iterate alternatives;
  _ ← for_each (fun pair : value * value =>
         let '(alt_name, alt_schema) := pair in
         (* Perform a little "mini" validation to determine which
            alternatives were satisfied. *)
         sub_instance ← attempt (fun h => attribute h error instance);
         satisfied ← _is_valid_for_sub_schema schema alt_schema sub_instance;
         if satisfied : bool then list_append satisfied_alt_names alt_name
         else mret tt)
       (zip names alternatives);
  joined_satisfied ← join ", " satisfied_alt_names;
  let error_desc :=
    error_desc +:+ ".  Content satisfied more than one alternative: "
    +:+ joined_satisfied +:+ "." in
  alloc (OList [VStr error_desc]).

(** [explain] is [_validation_error_to_message_lines], which this
    function calls for the nested failures. *)
Definition _one_of_no_alternatives_satisfied_message_lines
    (explain : value -> value -> M value)
    (depth : nat) (error schema : value) : M value :=
  message_lines ← alloc (OList []);
  (* First error message line describes the error in basic terms. *)
  alternatives ← attempt (fun h => attribute h error validator_value);
  alt_names ← _get_one_of_alternative_names depth alternatives schema;
  joined ← join ", " alt_names;
  let basic_desc :=
    "Must be exactly one of: " +:+ joined
    +:+ "; all alternatives failed validation." in
  _ ← list_append message_lines (VStr basic_desc);
  errors_by_alt ← alloc (ODict []);
  schema_path ← attempt (fun h => attribute h error absolute_schema_path);
  one_of_schema_path_len ← attempt (fun h => len h schema_path);
  nested ← attempt (fun h => attribute h error context);
  some ← peek (fun h => truth h nested);
  _ ← (if some : bool then mret tt else raise AssertionError);
  nested ← attempt (fun h => attribute h error context);
  ctx_errors ← iterate nested;
  _ ← for_each (fun ctx_error : value =>
         ctx_path ← attempt (fun h => attribute h ctx_error absolute_schema_path);
         error_alt_idx ← attempt (fun h =>
                            getitem h ctx_path (VInt (Z.of_nat one_of_schema_path_len)));
         _ ← (if is_int error_alt_idx then mret tt else raise AssertionError);
         alt_name ← attempt (fun h => getitem h alt_names error_alt_idx);
         alt_errors ← defaultdict_getitem errors_by_alt alt_name (alloc (OList []));
         list_append alt_errors ctx_error)
       ctx_errors;
  items ← attempt (fun h => dict_items h errors_by_alt);
  _ ← for_each (fun item : value * value =>
         let '(alt_name, alt_errors) := item in
         header ← peek (fun h =>
                     "Errors associated with alternative " +:+ dquote
                     +:+ to_str h alt_name +:+ dquote +:+ ":");
         _ ← list_append message_lines (VStr header);
         alt_errors ← iterate alt_errors;
         for_each (fun alt_error : value =>
             sub_message_lines ← explain alt_error schema;
             indented ← _indent_lines sub_message_lines;
             list_extend message_lines indented)
           alt_errors)
       items;
  mret message_lines.

Fixpoint _validation_error_to_message_lines
    (depth : nat) (error schema : value) : M value :=
  match depth with
  | O => raise RecursionError
  | S depth' =>
      (* Describe "where" the error occurred *)
      path ← attempt (fun h => attribute h error absolute_path);
      location_desc ← _instance_path_to_description path;
      (* Describe "what" error(s) occurred *)
      keyword ← attempt (fun h => attribute h error validator);
      what_lines ←
        (if eq_str keyword "oneOf" then
           nested ← attempt (fun h => attribute h error context);
           some ← peek (fun h => truth h nested);
           if some : bool then
             _one_of_no_alternatives_satisfied_message_lines
               (_validation_error_to_message_lines depth') depth' error schema
           else
             _one_of_too_many_alternatives_satisfied_message_lines depth' error schema
         else
           (* fallback if we can't be more clever about our message *)
           generic ← attempt (fun h => attribute h error message);
           alloc (OList [generic]));
      n ← attempt (fun h => len h what_lines);
      if Nat.eqb n 1 then
        first_line ← attempt (fun h => getitem h what_lines (VInt 0));
        text ← peek (fun h => to_str h first_line);
        alloc (OList [VStr ("In " +:+ location_desc +:+ ": " +:+ text)])
      else
        message_lines ← alloc (OList [VStr ("In " +:+ location_desc +:+ ":")]);
        indented ← _indent_lines what_lines;
        _ ← list_extend message_lines indented;
        mret message_lines
  end.

Definition validation_error_to_message (depth : nat) (error schema : value)
    : M string :=
  message_lines ← _validation_error_to_message_lines depth error schema;
  join newline message_lines.

Definition validation_errors_to_message (depth : nat) (errors schema : value)
    : M string :=
  errors ← iterate errors;
  messages ← alloc (OList []);
  _ ← for_each (fun error : value =>
         message ← validation_error_to_message depth error schema;
         list_append messages (VStr message))
       errors;
  join (newline +:+ newline) messages.

End Calls.

(** A heap for the examples: a schema with two alternatives, the second
    a reference, an exactly-one-of failure with a nested failure, and the
    list of the failures. *)
Definition sample_heap : Heap.heap :=
  [ ODict [(VStr "title", VStr "Y")];
    ODict [(VStr "y", VRef 0)];
    ODict [(VStr "title", VStr "X")];
    ODict [(VStr "$ref", VStr "#/defs/y")];
    OList [VRef 2; VRef 3];
    ODict [(VStr "defs", VRef 1); (VStr "oneOf", VRef 4)];
    OList [VStr "graph"; VStr "s1"];
    OList [VStr "oneOf"];
    OList [VStr "oneOf"; VInt 1; VStr "type"];
    OError (mkFailure (VStr "type") (VRef 6) (VRef 8) (VInt 3) (VStr "string") VNone
              (VStr "3 is not of type 'string'"));
    OList [VRef 9];
    OError (mkFailure (VStr "oneOf") (VRef 6) (VRef 7) (VInt 3) (VRef 4) (VRef 10)
              (VStr "3 is not valid under any of the given schemas"));
    OList [VRef 11] ].

(** A validation that builds an object of its own. *)
Definition sample_probe (full_schema sub_schema sub_instance : value) : M bool :=
  fun h => (Ok true, h ++ [ODict []]).

Definition sample_repr (h : heap) (l : nat) : string := "<object>".

End Heap.

(** ** What a call may do to the heap *)

Definition is_iterator (o : Heap.object) : bool :=
  match o with
  | Heap.OIter _ _ => true
  | _ => false
  end.

(** [preserved h h']: every list, dict and validation failure of [h] is
    in [h'] at its address as it was; an iterator may have moved on, and
    there may be new objects. *)
Definition preserved (h h' : Heap.heap) : Prop :=
  length h <= length h' /\
  forall (l : nat) (o : Heap.object),
    h !! l = Some o -> is_iterator o = false -> h' !! l = Some o.

(** A value that is no object of [h0]. *)
Definition fresh (h0 : Heap.heap) (v : Heap.value) : Prop :=
  match v with
  | Heap.VRef l => length h0 <= l
  | _ => True
  end.

(** [keeps h0 pre m post]: run in a heap that preserves [h0] and
    satisfies [pre], the computation [m] ends, returning or raising, in a
    heap that preserves [h0]; what it returns satisfies [post] there. *)
Definition keeps {A : Type} (h0 : Heap.heap) (pre : Heap.heap -> Prop)
    (m : Heap.M A) (post : A -> Heap.heap -> Prop) : Prop :=
  forall h, preserved h0 h -> pre h ->
    preserved h0 (snd (m h)) /\
    forall a, fst (m h) = Ok a -> post a (snd (m h)).

(** The values that the dict at [d] holds are no objects of [h0]. *)
Definition holds_fresh (h0 : Heap.heap) (d : nat) (h : Heap.heap) : Prop :=
  exists entries,
    h !! d = Some (Heap.ODict entries) /\
    Forall (fun entry => fresh h0 (snd entry)) entries.

(** * Properties *)

(** ** Strings and sequences *)

Lemma append_assoc (a b c : string) : (a +:+ b) +:+ c = a +:+ (b +:+ c).
Proof.
  induction a as [|ch a IH]; [reflexivity|].
  change (String ch ((a +:+ b) +:+ c) = String ch (a +:+ (b +:+ c))).
  now rewrite IH.
Qed.

Lemma append_nil_r (a : string) : a +:+ "" = a.
Proof.
  induction a as [|ch a IH]; [reflexivity|].
  change (String ch (a +:+ "") = String ch a). now rewrite IH.
Qed.

Lemma py_index_nat {A : Type} (l : list A) (n : nat) :
  py_index l (Z.of_nat n) =
  match l !! n with Some x => Ok x | None => Raise IndexError end.
Proof.
  unfold py_index.
  destruct (Z.ltb_spec (Z.of_nat n) 0) as [Hneg|_]; [lia|].
  destruct (Z.ltb_spec (Z.of_nat n) 0) as [Hneg|_]; [lia|].
  now rewrite Nat2Z.id.
Qed.

Lemma py_index_nonneg {A : Type} (l : list A) (i : Z) :
  (0 <= i)%Z ->
  py_index l i = match l !! Z.to_nat i with Some x => Ok x | None => Raise IndexError end.
Proof.
  intros Hi. rewrite <- (Z2Nat.id i) at 1 by assumption. apply py_index_nat.
Qed.

Lemma str_join_cons (sep x y : string) (l : list string) :
  str_join sep (x :: y :: l) = x +:+ sep +:+ str_join sep (y :: l).
Proof. reflexivity. Qed.

(** ** Domain Locator *)

(** The description is computed without an exception for every path, and
    it is the one the case analysis gives. *)
Lemma instance_path_description (path : list token) :
  _instance_path_to_description path = Ok (Spec.locate path).
Proof.
  unfold _instance_path_to_description, Spec.locate.
  destruct path as [|first [|second [|third rest]]].
  - reflexivity.
  - change (py_index [first] 0) with (Ok first : res token).
    cbn [mbind res_bind length Nat.eqb].
    destruct (token_is first "parameters"); [reflexivity|].
    destruct (token_is first "tasks"); [reflexivity|].
    destruct (token_is first "graph"); reflexivity.
  - change (py_index [first; second] 0) with (Ok first : res token).
    change (py_index [first; second] 1) with (Ok second : res token).
    cbn [mbind res_bind length Nat.eqb Nat.ltb Nat.leb].
    destruct (token_is first "parameters").
    { destruct second; reflexivity. }
    destruct (token_is first "tasks"); [reflexivity|].
    destruct (token_is first "graph"); reflexivity.
  - change (py_index (first :: second :: third :: rest) 0) with (Ok first : res token).
    change (py_index (first :: second :: third :: rest) 1) with (Ok second : res token).
    change (py_index (first :: second :: third :: rest) 2) with (Ok third : res token).
    cbn [mbind res_bind length Nat.eqb Nat.ltb Nat.leb].
    destruct (token_is first "parameters").
    { destruct second; reflexivity. }
    destruct (token_is first "tasks").
    { unfold Spec.quoted.
      destruct (token_is third "outputs");
        [|destruct (token_is third "plugin")];
        cbn [mbind res_bind app str_join]; f_equal;
        rewrite ?append_assoc, ?append_nil_r; reflexivity. }
    destruct (token_is first "graph").
    { unfold Spec.quoted.
      destruct (token_is third "dependencies");
        cbn [mbind res_bind app str_join]; f_equal;
        rewrite ?append_assoc, ?append_nil_r; reflexivity. }
    reflexivity.
Qed.

(** C7.  The locator never fails and follows the case analysis: the
    empty path is the root level; under "parameters" a path of one token
    is the global parameters section and a longer one names the parameter,
    quoted for a string and "#<n+1>" for an integer; "tasks" and "graph"
    give their phrases; every other first token gives the fallback with
    the slash-joined path. *)
Theorem locator_is_total_and_by_cases :
  (forall path, _instance_path_to_description path = Ok (Spec.locate path))
  /\ _instance_path_to_description [] = Ok "root level of experiment description"
  /\ _instance_path_to_description [TStr "parameters"]
     = Ok "global parameters section"
  /\ (forall name rest,
        _instance_path_to_description (TStr "parameters" :: TStr name :: rest)
        = Ok ("parameter " +:+ dquote +:+ name +:+ dquote))
  /\ (forall n rest,
        _instance_path_to_description (TStr "parameters" :: TInt n :: rest)
        = Ok ("parameter #" +:+ str_of_int (n + 1)))
  /\ _instance_path_to_description [TStr "tasks"; TStr "train"; TStr "outputs"]
     = Ok ("task plugin " +:+ dquote +:+ "train" +:+ dquote +:+ " outputs")
  /\ _instance_path_to_description [TStr "graph"; TStr "step1"; TStr "dependencies"]
     = Ok ("step " +:+ dquote +:+ "step1" +:+ dquote +:+ " dependencies")
  /\ (forall first rest,
        _instance_path_to_description (first :: rest)
        = Ok (if token_is first "parameters" || token_is first "tasks"
                 || token_is first "graph"
              then Spec.locate (first :: rest)
              else "experiment description location /"
                   +:+ str_join "/" (map str_of_token (first :: rest)))).
Proof.
  split; [exact instance_path_description|].
  repeat split; try (intros; rewrite instance_path_description; reflexivity).
  intros first rest. rewrite instance_path_description. f_equal.
  unfold Spec.locate.
  destruct (token_is first "parameters"); [reflexivity|].
  destruct (token_is first "tasks"); [reflexivity|].
  destruct (token_is first "graph"); reflexivity.
Qed.

(** ** Schema Reference Resolver *)

Section Resolver.

Variables (depth : nat) (full_schema node : json).
Hypothesis node_given : node <> JNull.
Hypothesis node_plain : ref_of node = None.


(** A token that tests false ends the walk, whatever follows it. *)
Lemma extract_falsy_token (tok : token) (rest : list token) :
  truthy_token tok = false ->
  _extract_schema_by_schema_path (S depth) (tok :: rest) full_schema node = Ok node.
Proof.
  intros Hfalse. cbn [_extract_schema_by_schema_path].
  destruct node; try congruence; cbn in *; now rewrite ?node_plain, ?Hfalse.
Qed.

(** Any other token is consumed: it is made an index when the node is a
    list, the node is subscripted, and the walk goes on in the child. *)
Lemma extract_truthy_token (tok : token) (rest : list token) :
  truthy_token tok = true ->
  _extract_schema_by_schema_path (S depth) (tok :: rest) full_schema node =
    (key ← (if is_list node then TInt <$> int_of_token tok else Ok tok);
     child ← py_getitem node key;
     _extract_schema_by_schema_path depth rest full_schema child).
Proof.
  intros Htrue. cbn [_extract_schema_by_schema_path].
  destruct node; try congruence; cbn in *; now rewrite ?node_plain, ?Htrue.
Qed.

End Resolver.

(** A reference node restarts the walk at the root of the full schema,
    with the path of the reference put before the remaining path. *)
Lemma extract_reference (depth : nat) (path : list token) (full_schema : json)
    (d : list (string * json)) (r : string) :
  dict_get d "$ref" = Some (JStr r) ->
  _extract_schema_by_schema_path (S depth) path full_schema (JDict d) =
    _extract_schema_by_schema_path depth
      (map TStr (_schema_reference_to_path r) ++ path) full_schema JNull.
Proof.
  intros Href. cbn [_extract_schema_by_schema_path ref_of].
  now rewrite Href.
Qed.

(** The fragment "#" is the whole document. *)
Lemma reference_to_root : _schema_reference_to_path "#" = [].
Proof. reflexivity. Qed.


Lemma extract_missing_index (depth : nat) (full_schema : json)
    (l : list json) (i : Z) (rest : list token) :
  (0 < i)%Z ->
  (Z.of_nat (length l) <= i)%Z ->
  _extract_schema_by_schema_path (S depth) (TInt i :: rest) full_schema (JList l)
    = Raise IndexError.
Proof.
  intros Hpos Hout.
  rewrite extract_truthy_token; [|discriminate|reflexivity|].
  - cbn. rewrite py_index_nonneg by lia.
    rewrite (lookup_ge_None_2 l (Z.to_nat i)) by lia. reflexivity.
  - cbn. apply negb_true_iff. apply Z.eqb_neq. lia.
Qed.

(** C1.  The walk does not consume every token of a non-empty path: in
    the schema [{"oneOf": [{"title": "A"}]}] the path [oneOf, 0] yields the
    sequence under "oneOf" and not its element 0, and in
    [{"": {"b": 1}}] the path ["", "b"] yields the whole document. *)
Theorem extract_stops_at_zero_and_empty_tokens :
  _extract_schema_by_schema_path 8 [TStr "oneOf"; TInt 0]
      (JDict [("oneOf", JList [JDict [("title", JStr "A")]])]) JNull
    = Ok (JList [JDict [("title", JStr "A")]])
  /\ _extract_schema_by_schema_path 8 [TStr ""; TStr "b"]
      (JDict [("", JDict [("b", JInt 1)])]) JNull
    = Ok (JDict [("", JDict [("b", JInt 1)])]).
Proof. split; vm_compute; reflexivity. Qed.

(** C9.  A step that the document lacks does not always raise: the key ""
    is missing in [{"a": 1}] and index 0 is out of range in the empty
    sequence of [{"items": []}], yet both walks return the node they
    stopped at, and with the alternative [{"$ref": "#/"}] the public entry
    point returns an ordinary message.  With the alternative
    [{"$ref": "#/defs/missing"}] the KeyError reaches the caller. *)
Theorem extract_missing_step_returns_node :
  _extract_schema_by_schema_path 8 [TStr ""] (JDict [("a", JInt 1)]) JNull
    = Ok (JDict [("a", JInt 1)])
  /\ _extract_schema_by_schema_path 8 [TStr "items"; TInt 0]
       (JDict [("items", JList [])]) JNull
    = Ok (JList [])
  /\ validation_error_to_message (fun _ _ _ => Ok false) 8
       (mkValidationError "oneOf" [] [TStr "oneOf"] (JInt 3)
          (JList [JDict [("$ref", JStr "#/")]]) [] "3 is not valid")
       (JDict [("title", JStr "Root");
               ("oneOf", JList [JDict [("$ref", JStr "#/")]])])
    = Ok ("In root level of experiment description: Must be exactly one of: Root."
          +:+ "  Content satisfied more than one alternative: .")
  /\ validation_error_to_message (fun _ _ _ => Ok false) 8
       (mkValidationError "oneOf" [] [TStr "oneOf"] (JInt 3)
          (JList [JDict [("$ref", JStr "#/defs/missing")]]) [] "3 is not valid")
       (JDict [("defs", JDict []);
               ("oneOf", JList [JDict [("$ref", JStr "#/defs/missing")]])])
    = Raise KeyError.
Proof. repeat split; vm_compute; reflexivity. Qed.

(** C4.  Resolving a path against a reference node and resolving it
    against the dereferenced node differ when the reference has an empty
    segment: with the document [{"": {"a": 1}, "a": 2}], the reference
    "#/" and the path [a], the first gives the whole document and the
    second gives 2. *)
Theorem reference_with_empty_segment_not_predereferenced :
  let full := JDict [("", JDict [("a", JInt 1)]); ("a", JInt 2)] in
  _extract_schema_by_schema_path 8 [TStr "a"] full (JDict [("$ref", JStr "#/")])
    = Ok full
  /\ (node ← _extract_schema_by_reference 8 "#/" full;
      _extract_schema_by_schema_path 8 [TStr "a"] full node)
    = Ok (JInt 2).
Proof. split; vm_compute; reflexivity. Qed.

(** ** Pre-dereferencing *)

Lemma extract_null_is_root (depth : nat) (path : list token) (full_schema : json) :
  _extract_schema_by_schema_path depth path full_schema JNull
  = _extract_schema_by_schema_path depth path full_schema full_schema.
Proof.
  destruct depth as [|depth]; [reflexivity|].
  cbn [_extract_schema_by_schema_path]. now destruct full_schema.
Qed.

(** One frame of the resolver. *)
Lemma extract_unfold (depth : nat) (path : list token) (full_schema schema : json) :
  _extract_schema_by_schema_path (S depth) path full_schema schema =
  let node := match schema with JNull => full_schema | _ => schema end in
  match ref_of node with
  | Some ref =>
      ref_schema_path ← reference_path ref;
      _extract_schema_by_schema_path depth (ref_schema_path ++ path) full_schema JNull
  | None =>
      if negb (truthy_opt_token (head path)) then Ok node
      else
        match head path with
        | None => Ok node
        | Some tok =>
            key ← (if is_list node then TInt <$> int_of_token tok else Ok tok);
            child ← py_getitem node key;
            _extract_schema_by_schema_path depth (tail path) full_schema child
        end
  end.
Proof. reflexivity. Qed.

(** More depth does not change an outcome other than RecursionError. *)
Lemma extract_deeper (depth : nat) :
  forall path full_schema schema r,
  _extract_schema_by_schema_path depth path full_schema schema = r ->
  r <> Raise RecursionError ->
  _extract_schema_by_schema_path (S depth) path full_schema schema = r.
Proof.
  induction depth as [|depth IH]; intros path full_schema schema r Hr Hne.
  - cbn in Hr. congruence.
  - rewrite (extract_unfold (S depth)). rewrite (extract_unfold depth) in Hr.
    cbv zeta in *. revert Hr.
    set (node := match schema with JNull => full_schema | _ => schema end).
    destruct (ref_of node) as [ref|].
    + destruct (reference_path ref) as [rp|e]; cbn [mbind res_bind]; [|trivial].
      intros Hr. now apply IH.
    + destruct (truthy_opt_token (head path)); cbn [negb]; [|trivial].
      destruct (head path) as [tok|]; [|trivial].
      destruct (if is_list node then TInt <$> int_of_token tok else Ok tok)
        as [key|e]; cbn [mbind res_bind]; [|trivial].
      destruct (py_getitem node key) as [child|e]; cbn [mbind res_bind]; [|trivial].
      intros Hr. now apply IH.
Qed.

Lemma extract_deeper_by (k depth : nat) (path : list token) (full_schema schema : json)
    (r : res json) :
  _extract_schema_by_schema_path depth path full_schema schema = r ->
  r <> Raise RecursionError ->
  _extract_schema_by_schema_path (k + depth) path full_schema schema = r.
Proof.
  intros Hr Hne. induction k as [|k IH]; [exact Hr|].
  cbn [Nat.add]. now apply extract_deeper.
Qed.

Lemma clean_list (l : list json) :
  clean_references (JList l) = forallb clean_references l.
Proof. induction l as [|x l IH]; [reflexivity|]. cbn in *. now rewrite IH. Qed.

Lemma clean_dict (d : list (string * json)) :
  clean_references (JDict d)
  = clean_reference d && forallb (fun kv => clean_references (snd kv)) d.
Proof.
  cbn [clean_references]. f_equal.
  induction d as [|[k v] d IH]; [reflexivity|]. cbn [forallb snd]. now rewrite IH.
Qed.

Lemma clean_dict_get (d : list (string * json)) (key : string) (v : json) :
  forallb (fun kv => clean_references (snd kv)) d = true ->
  dict_get d key = Some v -> clean_references v = true.
Proof.
  induction d as [|[k w] d IH]; cbn [dict_get forallb snd]; [discriminate|].
  intros [Hw Hd]%andb_true_iff. destruct (String.eqb k key).
  - now intros [= <-].
  - now apply IH.
Qed.

Lemma clean_lookup (l : list json) (i : nat) (v : json) :
  forallb clean_references l = true -> l !! i = Some v -> clean_references v = true.
Proof.
  intros Hall Hi. rewrite forallb_forall in Hall. apply Hall.
  apply list_elem_of_In. now apply list_elem_of_lookup_2 in Hi.
Qed.

Lemma py_index_lookup {A : Type} (l : list A) (i : Z) (x : A) :
  py_index l i = Ok x -> exists n, l !! n = Some x.
Proof.
  unfold py_index. destruct (_ <? 0)%Z; [discriminate|].
  destruct (l !! _) as [y|] eqn:Hy; [|discriminate]. intros [= <-]. eauto.
Qed.

Lemma clean_getitem (node : json) (key : token) (child : json) :
  clean_references node = true ->
  py_getitem node key = Ok child ->
  clean_references child = true.
Proof.
  intros Hnode. destruct node as [|b|z|s|l|d], key as [i|k]; cbn [py_getitem];
    try discriminate.
  - destruct (py_index (list_ascii_of_string s) i); cbn [mbind res_bind];
      [|discriminate]. now intros [= <-].
  - rewrite clean_list in Hnode. intros [n Hn]%py_index_lookup.
    now apply (clean_lookup l n).
  - rewrite clean_dict in Hnode. apply andb_true_iff in Hnode as [_ Hd].
    destruct (dict_get d k) as [v|] eqn:Hv; [|discriminate]. intros [= <-].
    now apply (clean_dict_get d k).
Qed.

Lemma clean_reference_path (node ref : json) (rp : list token) :
  clean_references node = true ->
  ref_of node = Some ref ->
  reference_path ref = Ok rp ->
  Forall (fun tok => truthy_token tok = true) rp.
Proof.
  intros Hnode Href Hrp. destruct node as [| | | | |d]; try discriminate.
  cbn [ref_of] in Href. rewrite clean_dict in Hnode.
  apply andb_true_iff in Hnode as [Hclean _]. unfold clean_reference in Hclean.
  rewrite Href in Hclean. destruct ref as [| | |r| |]; try discriminate.
  cbn [reference_path] in Hrp. injection Hrp as <-.
  rewrite forallb_forall in Hclean. apply Forall_forall. intros tok Htok.
  apply list_elem_of_In, in_map_iff in Htok as (s & <- & Hs).
  cbn [truthy_token]. now apply Hclean.
Qed.

Lemma clean_start (full_schema schema : json) :
  clean_references full_schema = true ->
  clean_references schema = true ->
  clean_references match schema with JNull => full_schema | _ => schema end = true.
Proof. now destruct schema. Qed.

Section PreDereferencing.

Variable full_schema : json.
Hypothesis root_clean : clean_references full_schema = true.

(** A walk along [q ++ p] is a walk along [q] followed by a walk along
    [p] from where the first one ends, when no token of [q] tests
    false. *)
Lemma walk_splits (depth : nat) :
  forall (q p : list token) (schema : json) (r : res json),
  clean_references schema = true ->
  Forall (fun tok => truthy_token tok = true) q ->
  _extract_schema_by_schema_path depth (q ++ p) full_schema schema = r ->
  r <> Raise RecursionError ->
  exists depth',
    (node ← _extract_schema_by_schema_path depth' q full_schema schema;
     _extract_schema_by_schema_path depth' p full_schema node) = r.
Proof.
  induction depth as [|depth IH]; intros q p schema r Hschema Hq Hr Hne.
  - cbn in Hr. congruence.
  - pose proof Hr as Hwhole. rewrite extract_unfold in Hr. cbv zeta in Hr.
    pose proof (clean_start _ _ root_clean Hschema) as Hnode.
    set (node := match schema with JNull => full_schema | _ => schema end) in *.
    destruct (ref_of node) as [ref|] eqn:Href.
    + destruct (reference_path ref) as [rp|e] eqn:Hrp; cbn [mbind res_bind] in Hr.
      * rewrite app_assoc in Hr.
        destruct (IH (rp ++ q) p JNull r) as [depth' Hsplit]; auto.
        { apply Forall_app. split; [|assumption].
          now apply (clean_reference_path node ref). }
        exists (S depth'). rewrite (extract_unfold depth' q). cbv zeta.
        fold node. rewrite Href, Hrp. cbn [mbind res_bind].
        destruct (_extract_schema_by_schema_path depth' (rp ++ q) full_schema JNull)
          as [n|e]; cbn [mbind res_bind] in *; [|assumption].
        now apply extract_deeper.
      * exists 1. rewrite (extract_unfold 0 q). cbv zeta. fold node.
        rewrite Href, Hrp. cbn [mbind res_bind]. assumption.
    + destruct q as [|tok q].
      * exists (S depth). rewrite (extract_unfold depth []). cbv zeta. fold node.
        rewrite Href. cbn [head truthy_opt_token negb mbind res_bind].
        cbn [app] in Hwhole. subst node. destruct schema; try exact Hwhole.
        now rewrite <- extract_null_is_root.
      * apply Forall_cons in Hq as [Htok Hq].
        cbn [app head tail truthy_opt_token] in Hr. rewrite Htok in Hr.
        cbn [negb] in Hr.
        destruct (if is_list node then TInt <$> int_of_token tok else Ok tok)
          as [key|e] eqn:Hkey; cbn [mbind res_bind] in Hr.
        2:{ exists 1. rewrite (extract_unfold 0 (tok :: q)). cbv zeta. fold node.
            rewrite Href. cbn [head tail truthy_opt_token]. rewrite Htok.
            cbn [negb]. rewrite Hkey. cbn [mbind res_bind]. assumption. }
        destruct (py_getitem node key) as [child|e] eqn:Hchild;
          cbn [mbind res_bind] in Hr.
        2:{ exists 1. rewrite (extract_unfold 0 (tok :: q)). cbv zeta. fold node.
            rewrite Href. cbn [head tail truthy_opt_token]. rewrite Htok.
            cbn [negb]. rewrite Hkey. cbn [mbind res_bind]. rewrite Hchild.
            cbn [mbind res_bind]. assumption. }
        destruct (IH q p child r) as [depth' Hsplit]; auto.
        { now apply (clean_getitem node key). }
        exists (S depth'). rewrite (extract_unfold depth' (tok :: q)). cbv zeta.
        fold node. rewrite Href. cbn [head tail truthy_opt_token]. rewrite Htok.
        cbn [negb]. rewrite Hkey. cbn [mbind res_bind]. rewrite Hchild.
        cbn [mbind res_bind].
        destruct (_extract_schema_by_schema_path depth' q full_schema child)
          as [n|e]; cbn [mbind res_bind] in *; [|assumption].
        now apply extract_deeper.
Qed.


(** Conversely, a walk along [q] followed by a walk along [p] is a walk
    along [q ++ p]. *)
Lemma walk_joins (depth : nat) :
  forall (depth2 : nat) (q p : list token) (schema : json) (r : res json),
  clean_references schema = true ->
  Forall (fun tok => truthy_token tok = true) q ->
  (node ← _extract_schema_by_schema_path depth q full_schema schema;
   _extract_schema_by_schema_path depth2 p full_schema node) = r ->
  r <> Raise RecursionError ->
  exists depth',
    _extract_schema_by_schema_path depth' (q ++ p) full_schema schema = r.
Proof.
  induction depth as [|depth IH]; intros depth2 q p schema r Hschema Hq Hr Hne.
  - cbn in Hr. congruence.
  - rewrite extract_unfold in Hr. cbv zeta in Hr.
    pose proof (clean_start _ _ root_clean Hschema) as Hnode.
    set (node := match schema with JNull => full_schema | _ => schema end) in *.
    destruct (ref_of node) as [ref|] eqn:Href.
    + destruct (reference_path ref) as [rp|e] eqn:Hrp; cbn [mbind res_bind] in Hr.
      * destruct (IH depth2 (rp ++ q) p JNull r) as [depth' Hjoin]; auto.
        { apply Forall_app. split; [|assumption].
          now apply (clean_reference_path node ref). }
        exists (S depth'). rewrite extract_unfold. cbv zeta. fold node.
        rewrite Href, Hrp. cbn [mbind res_bind]. now rewrite app_assoc.
      * exists 1. rewrite extract_unfold. cbv zeta. fold node.
        rewrite Href, Hrp. cbn [mbind res_bind]. assumption.
    + destruct q as [|tok q].
      * cbn [head truthy_opt_token negb mbind res_bind] in Hr.
        exists depth2. cbn [app]. subst node. destruct schema; try exact Hr.
        now rewrite extract_null_is_root.
      * apply Forall_cons in Hq as [Htok Hq].
        cbn [head tail truthy_opt_token] in Hr. rewrite Htok in Hr.
        cbn [negb] in Hr.
        destruct (if is_list node then TInt <$> int_of_token tok else Ok tok)
          as [key|e] eqn:Hkey; cbn [mbind res_bind] in Hr.
        2:{ exists 1. rewrite extract_unfold. cbv zeta. fold node.
            rewrite Href. cbn [app head tail truthy_opt_token]. rewrite Htok.
            cbn [negb]. rewrite Hkey. cbn [mbind res_bind]. assumption. }
        destruct (py_getitem node key) as [child|e] eqn:Hchild;
          cbn [mbind res_bind] in Hr.
        2:{ exists 1. rewrite extract_unfold. cbv zeta. fold node.
            rewrite Href. cbn [app head tail truthy_opt_token]. rewrite Htok.
            cbn [negb]. rewrite Hkey. cbn [mbind res_bind]. rewrite Hchild.
            cbn [mbind res_bind]. assumption. }
        destruct (IH depth2 q p child r) as [depth' Hjoin]; auto.
        { now apply (clean_getitem node key). }
        exists (S depth'). rewrite extract_unfold. cbv zeta. fold node.
        rewrite Href. cbn [app head tail truthy_opt_token]. rewrite Htok.
        cbn [negb]. rewrite Hkey. cbn [mbind res_bind]. rewrite Hchild.
        cbn [mbind res_bind]. assumption.
Qed.

(** Where no reference of the document has an empty segment, resolving a
    path against a reference node and resolving it against the
    dereferenced node have the same outcome, given enough depth. *)
Lemma clean_reference_predereferenced (d : list (string * json)) (ref : string)
    (path : list token) (r : res json) :
  dict_get d "$ref" = Some (JStr ref) ->
  clean_reference d = true ->
  r <> Raise RecursionError ->
  (exists depth,
     _extract_schema_by_schema_path depth path full_schema (JDict d) = r)
  <->
  (exists depth,
     (node ← _extract_schema_by_reference depth ref full_schema;
      _extract_schema_by_schema_path depth path full_schema node) = r).
Proof.
  intros Href Hclean Hne.
  assert (Hrp : Forall (fun tok => truthy_token tok = true)
                       (map TStr (_schema_reference_to_path ref))).
  { unfold clean_reference in Hclean. rewrite Href in Hclean.
    rewrite forallb_forall in Hclean. apply Forall_forall. intros tok Htok.
    apply list_elem_of_In, in_map_iff in Htok as (s & <- & Hs).
    cbn [truthy_token]. now apply Hclean. }
  unfold _extract_schema_by_reference. split.
  - intros [[|depth] Hr]; [cbn in Hr; congruence|].
    rewrite (extract_reference _ _ _ _ _ Href) in Hr.
    now apply (walk_splits depth (map TStr (_schema_reference_to_path ref)) path
                 JNull r).
  - intros [depth Hr].
    destruct (walk_joins depth depth (map TStr (_schema_reference_to_path ref)) path
                JNull r) as [depth' Hjoin]; auto.
    exists (S depth'). now rewrite (extract_reference _ _ _ _ _ Href).
Qed.

End PreDereferencing.

(** ** Alternative Namer *)

(** C5.  The names of one call can coincide: the titles "A", "A", "A(2)"
    give the names "A", "A(2)", "A(2)". *)
Theorem alternative_names_can_collide :
  _get_one_of_alternative_names 8
    (JList [JDict [("title", JStr "A")]; JDict [("title", JStr "A")];
            JDict [("title", JStr "A(2)")]])
    (JDict [])
  = Ok [NStr "A"; NStr "A(2)"; NStr "A(2)"]
  /\ ~ NoDup [NStr "A"; NStr "A(2)"; NStr "A(2)"].
Proof.
  split; [vm_compute; reflexivity|].
  intros Hnodup. apply NoDup_cons in Hnodup as [_ Hnodup].
  apply NoDup_cons in Hnodup as [Hnotin _].
  apply Hnotin. constructor.
Qed.

Lemma key_eqb_refl (a : pyname) : key_eqb a a = true.
Proof. unfold key_eqb. now apply bool_decide_eq_true. Qed.

Lemma key_eqb_trans_l (a b c : pyname) :
  key_eqb a b = true -> key_eqb a c = key_eqb b c.
Proof.
  unfold key_eqb. intros Hab%bool_decide_eq_true. now rewrite Hab.
Qed.

Lemma counts_get_set (name_counts : list (pyname * Z)) (key : pyname) (c : Z)
    (name : pyname) :
  counts_get (counts_set name_counts key c) name =
  if key_eqb key name then c else counts_get name_counts name.
Proof.
  induction name_counts as [|[k c'] rest IH]; cbn [counts_set counts_get].
  - reflexivity.
  - destruct (key_eqb k key) eqn:Hk; cbn [counts_get].
    + rewrite (key_eqb_trans_l _ _ name Hk).
      now destruct (key_eqb key name).
    + rewrite IH. destruct (key_eqb k name) eqn:Hkn; [|reflexivity].
      destruct (key_eqb key name) eqn:Hkey; [|reflexivity].
      unfold key_eqb in *.
      apply bool_decide_eq_true in Hkn, Hkey.
      apply bool_decide_eq_false in Hk. congruence.
Qed.

Lemma occurrences_snoc (earlier : list pyname) (key name : pyname) :
  Spec.occurrences (earlier ++ [key]) name =
  (Spec.occurrences earlier name + (if key_eqb key name then 1 else 0))%nat.
Proof.
  unfold Spec.occurrences. rewrite filter_app, length_app. f_equal.
  rewrite filter_cons, filter_nil.
  destruct (key_eqb key name) eqn:Hk.
  - now rewrite decide_True.
  - rewrite decide_False; [reflexivity|congruence].
Qed.

Lemma counts_agree_step (name_counts : list (pyname * Z)) (earlier : list pyname)
    (key : pyname) :
  counts_agree name_counts earlier ->
  counts_agree (counts_set name_counts key (counts_get name_counts key + 1))
               (earlier ++ [key]).
Proof.
  intros Hagree name. rewrite counts_get_set, occurrences_snoc.
  destruct (key_eqb key name) eqn:Hk.
  - rewrite Hagree. unfold Spec.occurrences.
    assert (Heq : forall c, key_eqb c key = key_eqb c name).
    { intros c. unfold key_eqb in *. apply bool_decide_eq_true in Hk.
      now rewrite Hk. }
    rewrite (list_filter_iff _ (fun c => key_eqb c name = true)).
    + lia.
    + intros c. now rewrite Heq.
  - rewrite Hagree. lia.
Qed.

Lemma naming_step_candidate (depth : nat) (full_schema : json)
    (name_counts : list (pyname * Z)) (names : list pyname) (idx : Z) (alt : json) :
  naming_step depth full_schema (name_counts, names) (idx, alt) =
  (name ← Spec.candidate_name depth full_schema idx alt;
   let name_count := counts_get name_counts name in
   Ok (counts_set name_counts name (name_count + 1),
       names ++ [if (name_count =? 0)%Z then name
                 else NStr (str_of_name name +:+ "(" +:+ str_of_int (name_count + 1) +:+ ")")])).
Proof.
  unfold naming_step, Spec.candidate_name.
  destruct alt as [| | | | |d]; cbn [mbind res_bind hash_key fallback_name];
    try (destruct (counts_get name_counts _ =? 0)%Z; reflexivity).
  destruct (_extract_schema_by_schema_path depth [] full_schema (JDict d))
    as [node|e]; cbn [mbind res_bind]; [|reflexivity].
  destruct (get_title node) as [title|e]; cbn [mbind res_bind]; [|reflexivity].
  destruct (truthy title); cbn [negb mbind res_bind].
  - destruct (hash_key title) as [name|e]; cbn [mbind res_bind]; [|reflexivity].
    destruct (counts_get name_counts name =? 0)%Z; reflexivity.
  - cbn [hash_key fallback_name mbind res_bind].
    destruct (counts_get name_counts _ =? 0)%Z; reflexivity.
Qed.

Lemma naming_loop (depth : nat) (full_schema : json) (ias : list (Z * json)) :
  forall (name_counts : list (pyname * Z)) (names earlier : list pyname),
  counts_agree name_counts earlier ->
  snd <$> foldM (naming_step depth full_schema) (name_counts, names) ias =
  (candidates ←
     mapM (fun ia => Spec.candidate_name depth full_schema (fst ia) (snd ia)) ias;
   Ok (names ++ Spec.uniquify earlier candidates)).
Proof.
  induction ias as [|[idx alt] ias IH]; intros name_counts names earlier Hagree.
  - cbn. now rewrite app_nil_r.
  - cbn [foldM mapM fst snd]. rewrite naming_step_candidate.
    destruct (Spec.candidate_name depth full_schema idx alt) as [name|e];
      cbn [mbind res_bind fmap res_fmap]; [|reflexivity].
    rewrite (IH _ _ (earlier ++ [name])) by now apply counts_agree_step.
    destruct (mapM _ ias) as [candidates|e]; cbn [mbind res_bind mret res_ret];
      [|reflexivity].
    f_equal. rewrite <- app_assoc. f_equal. cbn [Spec.uniquify app]. f_equal.
    cbv zeta. rewrite !(Hagree name). unfold Spec.render.
    destruct (Spec.occurrences earlier name) as [|k]; [reflexivity|].
    destruct (Z.eqb_spec (Z.of_nat (S k)) 0) as [Hz|_]; [lia|reflexivity].
Qed.

Lemma names_refine_specification (depth : nat) (alternatives : list json)
    (full_schema : json) :
  _get_one_of_alternative_names depth (JList alternatives) full_schema =
  Spec.names depth alternatives full_schema.
Proof.
  unfold _get_one_of_alternative_names, Spec.names. cbn [py_iter mbind res_bind].
  pose proof (naming_loop depth full_schema (enumerate alternatives) [] [] []) as Hloop.
  cbn [app] in Hloop. rewrite <- Hloop by (intros name; reflexivity).
  destruct (foldM _ _ _) as [[name_counts names]|e]; reflexivity.
Qed.

Lemma mapM_res_length {A B : Type} (f : A -> res B) (l : list A) (k : list B) :
  mapM f l = Ok k -> length k = length l.
Proof.
  revert k. induction l as [|x l IH]; intros k; cbn [mapM].
  - cbn. intros [= <-]. reflexivity.
  - destruct (f x) as [y|e]; cbn [mbind res_bind]; [|discriminate].
    destruct (mapM f l) as [k'|e]; cbn [mbind res_bind mret res_ret]; [|discriminate].
    intros [= <-]. cbn. f_equal. now apply IH.
Qed.

Lemma uniquify_length (candidates earlier : list pyname) :
  length (Spec.uniquify earlier candidates) = length candidates.
Proof.
  revert earlier. induction candidates as [|c rest IH]; intros earlier; cbn;
    [reflexivity|]. now rewrite IH.
Qed.

Lemma enumerate_length {A : Type} (l : list A) : length (enumerate l) = length l.
Proof. unfold enumerate. apply length_imap. Qed.

(** One name per alternative. *)
Lemma names_length (depth : nat) (alternatives : list json) (full_schema : json)
    (names : list pyname) :
  _get_one_of_alternative_names depth (JList alternatives) full_schema = Ok names ->
  length names = length alternatives.
Proof.
  rewrite names_refine_specification. unfold Spec.names.
  destruct (mapM _ _) as [candidates|e] eqn:Hcands; cbn [mbind res_bind];
    [|discriminate].
  intros [= <-]. rewrite uniquify_length.
  apply mapM_res_length in Hcands. now rewrite Hcands, enumerate_length.
Qed.

(** ** Loops that may raise *)

Lemma mapM_res_Forall2 {A B : Type} (f : A -> res B) (l : list A) (k : list B) :
  Forall2 (fun x y => f x = Ok y) l k -> mapM f l = Ok k.
Proof.
  induction 1 as [|x y l k Hxy _ IH]; [reflexivity|].
  cbn [mapM]. rewrite Hxy. cbn [mbind res_bind]. rewrite IH. reflexivity.
Qed.

Lemma mapM_res_inv {A B : Type} (f : A -> res B) (l : list A) (k : list B) :
  mapM f l = Ok k -> Forall2 (fun x y => f x = Ok y) l k.
Proof.
  revert k. induction l as [|x l IH]; intros k; cbn [mapM].
  - intros [= <-]. constructor.
  - destruct (f x) as [y|e] eqn:Hx; cbn [mbind res_bind]; [|discriminate].
    destruct (mapM f l) as [k'|e]; cbn [mbind res_bind mret res_ret]; [|discriminate].
    intros [= <-]. constructor; [assumption|now apply IH].
Qed.

Lemma join_names_strings (sep : string) (names : list string) :
  join_names sep (map NStr names) = Ok (str_join sep names).
Proof.
  unfold join_names.
  rewrite (mapM_res_Forall2 name_as_str (map NStr names) names); [reflexivity|].
  induction names; constructor; auto.
Qed.

(** ** Public Entry Points *)

Section EntryPoints.

Variable probe : json -> json -> json -> res bool.
Variables (depth : nat) (schema : json).

Lemma one_message (error : ValidationError) (lines : list string) :
  _validation_error_to_message_lines probe depth error schema = Ok lines ->
  validation_error_to_message probe depth error schema = Ok (str_join newline lines).
Proof. unfold validation_error_to_message. now intros ->. Qed.

Lemma all_messages (errors : list ValidationError) (messages : list string) :
  Forall2 (fun error m => validation_error_to_message probe depth error schema = Ok m)
          errors messages ->
  validation_errors_to_message probe depth errors schema
    = Ok (str_join (newline +:+ newline) messages).
Proof.
  intros Hall. unfold validation_errors_to_message.
  now rewrite (mapM_res_Forall2 _ _ _ Hall).
Qed.

Lemma no_message : validation_errors_to_message probe depth [] schema = Ok "".
Proof. reflexivity. Qed.

Lemma single_message (error : ValidationError) :
  validation_errors_to_message probe depth [error] schema
    = validation_error_to_message probe depth error schema.
Proof.
  unfold validation_errors_to_message. cbn [mapM].
  destruct (validation_error_to_message probe depth error schema); reflexivity.
Qed.

End EntryPoints.

(** C8.  The message of one failure is the lines of the composer joined
    with a newline; the message of a sequence of failures is the messages
    of its elements, in order, joined with two newlines; it is empty for
    the empty sequence and the message of the element for a sequence of
    one. *)
Theorem entry_points_join_messages
    (probe : json -> json -> json -> res bool) (depth : nat) (schema : json)
    (errors : list ValidationError) (messages : list string) :
  Forall2 (fun error m => validation_error_to_message probe depth error schema = Ok m)
          errors messages ->
  validation_errors_to_message probe depth errors schema
    = Ok (str_join (newline +:+ newline) messages)
  /\ Forall2 (fun error m =>
       exists lines,
         _validation_error_to_message_lines probe depth error schema = Ok lines
         /\ m = str_join newline lines) errors messages
  /\ validation_errors_to_message probe depth [] schema = Ok ""
  /\ (forall error,
        validation_errors_to_message probe depth [error] schema
          = validation_error_to_message probe depth error schema)
  /\ (forall m1 m2 rest,
        str_join (newline +:+ newline) (m1 :: m2 :: rest)
          = m1 +:+ (newline +:+ newline) +:+ str_join (newline +:+ newline) (m2 :: rest)).
Proof.
  intros Hall. split; [now apply all_messages|].
  split.
  { eapply Forall2_impl; [exact Hall|]. intros error m Hm.
    unfold validation_error_to_message in Hm.
    destruct (_validation_error_to_message_lines probe depth error schema)
      as [lines|e]; [|discriminate].
    exists lines. split; [reflexivity|]. now injection Hm as <-. }
  split; [apply no_message|].
  split; [apply single_message|].
  reflexivity.
Qed.

Lemma entry_points_join_messages_witness :
  validation_errors_to_message (fun _ _ _ => Ok true) 4
    [mkValidationError "type" [TStr "parameters"; TInt 2] [TStr "type"]
       (JInt 3) (JStr "string") [] "3 is not of type 'string'";
     mkValidationError "required" [] [TStr "required"]
       (JDict []) (JList [JStr "graph"]) [] "'graph' is a required property"]
    (JDict [])
  = Ok ("In parameter #3: 3 is not of type 'string'" +:+ newline +:+ newline +:+
        "In root level of experiment description: 'graph' is a required property").
Proof.
  refine (proj1 (entry_points_join_messages (fun _ _ _ => Ok true) 4 (JDict [])
    [_; _]
    ["In parameter #3: 3 is not of type 'string'";
     "In root level of experiment description: 'graph' is a required property"] _)).
  repeat constructor.
Defined.

(** ** Message Composer *)

(** The body of the composer, for rewriting. *)
Lemma message_lines_unfold (probe : json -> json -> json -> res bool)
    (depth : nat) (error : ValidationError) (schema : json) :
  _validation_error_to_message_lines probe depth error schema =
  (location_desc ← _instance_path_to_description (absolute_path error);
   what_lines ←
     (if String.eqb (validator error) "oneOf" then
        match context error with
        | _ :: _ =>
            _one_of_no_alternatives_satisfied_message_lines depth error schema
              (map (fun ctx_error =>
                      (ctx_error,
                       _validation_error_to_message_lines probe depth ctx_error schema))
                   (context error))
        | [] =>
            _one_of_too_many_alternatives_satisfied_message_lines probe depth error schema
        end
      else Ok [message error]);
   if Nat.eqb (length what_lines) 1 then
     first_line ← py_index what_lines 0;
     Ok ["In " +:+ location_desc +:+ ": " +:+ first_line]
   else
     Ok (("In " +:+ location_desc +:+ ":") :: _indent_lines what_lines)).
Proof. destruct error; reflexivity. Qed.

(** An exception of the namer (so one of the resolver under it) is the
    outcome of the entry points: nothing catches it. *)
Lemma names_error_reaches_caller (probe : json -> json -> json -> res bool)
    (depth : nat) (schema : json) (error : ValidationError) (e : pyerr) :
  validator error = "oneOf" ->
  _get_one_of_alternative_names depth (validator_value error) schema = Raise e ->
  validation_error_to_message probe depth error schema = Raise e.
Proof.
  intros Hone Hnames. unfold validation_error_to_message.
  rewrite message_lines_unfold, instance_path_description, Hone.
  cbn [mbind res_bind]. change (String.eqb "oneOf" "oneOf") with true. cbv iota.
  destruct (context error) as [|c ctx].
  - unfold _one_of_too_many_alternatives_satisfied_message_lines.
    now rewrite Hnames.
  - unfold _one_of_no_alternatives_satisfied_message_lines.
    now rewrite Hnames.
Qed.

Lemma first_error_reaches_caller (probe : json -> json -> json -> res bool)
    (depth : nat) (schema : json) (error : ValidationError)
    (rest : list ValidationError) (e : pyerr) :
  validation_error_to_message probe depth error schema = Raise e ->
  validation_errors_to_message probe depth (error :: rest) schema = Raise e.
Proof.
  intros Hraise. unfold validation_errors_to_message. cbn [mapM].
  now rewrite Hraise.
Qed.

(** ** Message Composer: too many alternatives satisfied *)

Section TooMany.

Variable probe : json -> json -> json -> res bool.
Variables (depth : nat) (schema : json).

Lemma probe_loop (sub_instance : json) (names : list string) :
  forall (alternatives : list json) (valid : list bool) (acc : list pyname),
  Forall2 (fun alt v => _is_valid_for_sub_schema probe schema alt sub_instance = Ok v)
          alternatives valid ->
  foldM (probe_step probe schema sub_instance) acc (zip (map NStr names) alternatives)
    = Ok (acc ++ map NStr (Spec.satisfied names valid)).
Proof.
  induction names as [|name names IH]; intros alternatives valid acc Hvalid.
  - cbn. now rewrite app_nil_r.
  - destruct Hvalid as [|alt v alternatives valid Hv Hvalid].
    + cbn. now rewrite app_nil_r.
    + cbn [map zip zip_with foldM probe_step]. rewrite Hv. cbn [mbind res_bind].
      unfold Spec.satisfied. cbn [zip zip_with]. rewrite filter_cons.
      destruct v; cbn [mbind res_bind snd].
      * rewrite decide_True by reflexivity.
        rewrite (IH _ _ _ Hvalid). cbn [map fst]. now rewrite <- app_assoc.
      * rewrite decide_False by discriminate. now rewrite (IH _ _ _ Hvalid).
Qed.

Lemma too_many_lines (error : ValidationError) (alternatives : list json)
    (names : list string) (valid : list bool) :
  validator_value error = JList alternatives ->
  _get_one_of_alternative_names depth (JList alternatives) schema
    = Ok (map NStr names) ->
  Forall2 (fun alt v =>
             _is_valid_for_sub_schema probe schema alt (instance error) = Ok v)
          alternatives valid ->
  _one_of_too_many_alternatives_satisfied_message_lines probe depth error schema
    = Ok [Spec.too_many_line names valid].
Proof.
  intros Hvalue Hnames Hvalid.
  unfold _one_of_too_many_alternatives_satisfied_message_lines.
  rewrite Hvalue, Hnames. cbn [mbind res_bind py_iter].
  rewrite join_names_strings. cbn [mbind res_bind].
  rewrite (probe_loop _ _ _ _ _ Hvalid). cbn [mbind res_bind app].
  rewrite join_names_strings. cbn [mbind res_bind].
  unfold Spec.too_many_line. now rewrite append_assoc.
Qed.

Lemma satisfied_none (names : list string) (valid : list bool) :
  Forall (fun v => v = false) valid -> Spec.satisfied names valid = [].
Proof.
  intros Hnone. unfold Spec.satisfied.
  revert names. induction Hnone as [|v valid -> _ IH]; intros [|name names];
    try reflexivity.
  cbn [zip zip_with]. rewrite filter_cons, decide_False by discriminate.
  apply IH.
Qed.

End TooMany.

(** C3.  For an exactly-one-of failure without nested failures the body
    is the single line made of "Must be exactly one of: <names>" and
    ".  Content satisfied more than one alternative: <satisfied names>.",
    where the satisfied names are those of the alternatives the probe
    finds valid, in order; the line stands with an empty list when the
    probe finds none. *)
Theorem too_many_satisfied_body
    (probe : json -> json -> json -> res bool) (depth : nat) (schema : json)
    (error : ValidationError) (alternatives : list json)
    (names : list string) (valid : list bool) :
  validator error = "oneOf" ->
  context error = [] ->
  validator_value error = JList alternatives ->
  _get_one_of_alternative_names depth (JList alternatives) schema
    = Ok (map NStr names) ->
  Forall2 (fun alt v =>
             _is_valid_for_sub_schema probe schema alt (instance error) = Ok v)
          alternatives valid ->
  _one_of_too_many_alternatives_satisfied_message_lines probe depth error schema
    = Ok [("Must be exactly one of: " +:+ str_join ", " names) +:+
          (".  Content satisfied more than one alternative: "
             +:+ str_join ", " (Spec.satisfied names valid) +:+ ".")]
  /\ _validation_error_to_message_lines probe depth error schema
    = Ok ["In " +:+ Spec.locate (absolute_path error) +:+ ": " +:+
          Spec.too_many_line names valid]
  /\ (Forall (fun v => v = false) valid ->
      Spec.too_many_line names valid
        = ("Must be exactly one of: " +:+ str_join ", " names) +:+
          ".  Content satisfied more than one alternative: .").
Proof.
  intros Hone Hcontext Hvalue Hnames Hvalid.
  pose proof (too_many_lines probe depth schema error _ _ _ Hvalue Hnames Hvalid)
    as Hbody.
  split; [exact Hbody|]. split.
  - rewrite message_lines_unfold, instance_path_description, Hone, Hcontext, Hbody.
    reflexivity.
  - intros Hnone. unfold Spec.too_many_line.
    now rewrite (satisfied_none _ _ Hnone).
Qed.

Lemma too_many_satisfied_body_witness :
  _validation_error_to_message_lines (fun _ _ _ => Ok true) 8
    (mkValidationError "oneOf" [TStr "graph"; TStr "s1"] [TStr "oneOf"] (JInt 3)
       (JList [JDict [("title", JStr "X")]; JDict [("$ref", JStr "#/defs/y")]])
       [] "3 is valid under each of ...")
    (JDict [("defs", JDict [("y", JDict [("title", JStr "Y")])])])
  = Ok ["In step " +:+ dquote +:+ "s1" +:+ dquote +:+
        ": Must be exactly one of: X, Y.  Content satisfied more than one alternative: X, Y."].
Proof.
  refine (proj1 (proj2 (too_many_satisfied_body (fun _ _ _ => Ok true) 8
    (JDict [("defs", JDict [("y", JDict [("title", JStr "Y")])])])
    (mkValidationError "oneOf" [TStr "graph"; TStr "s1"] [TStr "oneOf"] (JInt 3)
       (JList [JDict [("title", JStr "X")]; JDict [("$ref", JStr "#/defs/y")]])
       [] "3 is valid under each of ...")
    [JDict [("title", JStr "X")]; JDict [("$ref", JStr "#/defs/y")]]
    ["X"; "Y"] [true; true] _ _ _ _ _))).
  - reflexivity.
  - reflexivity.
  - reflexivity.
  - vm_compute. reflexivity.
  - repeat constructor.
Defined.

(** ** Message Composer: no alternative satisfied *)

Lemma first_seen_snoc (owners : list string) (o : string) :
  forall seen,
  Spec.first_seen seen (owners ++ [o]) =
  Spec.first_seen seen owners ++
  (if bool_decide (o ∈ seen ++ owners) then [] else [o]).
Proof.
  induction owners as [|x owners IH]; intros seen; cbn [Spec.first_seen app].
  - rewrite app_nil_r. now destruct (bool_decide (o ∈ seen)).
  - destruct (bool_decide_reflect (x ∈ seen)) as [Hx|Hx].
    + rewrite IH. f_equal.
      rewrite (bool_decide_ext (o ∈ seen ++ owners) (o ∈ seen ++ x :: owners));
        [reflexivity|].
      rewrite !elem_of_app, elem_of_cons.
      split; [intros [?|?]; auto|intros [?|[->|?]]; auto].
    + cbn [app]. rewrite IH. f_equal. f_equal.
      rewrite (bool_decide_ext (o ∈ (x :: seen) ++ owners)
                               (o ∈ seen ++ x :: owners)); [reflexivity|].
      rewrite !elem_of_app, !elem_of_cons. tauto.
Qed.
Lemma first_seen_elem (owners : list string) :
  forall seen x, x ∈ Spec.first_seen seen owners <-> x ∈ owners /\ x ∉ seen.
Proof.
  induction owners as [|o owners IH]; intros seen x; cbn [Spec.first_seen].
  - rewrite !elem_of_nil. tauto.
  - destruct (bool_decide_reflect (o ∈ seen)) as [Ho|Ho].
    + rewrite IH, elem_of_cons. split; [tauto|].
      intros [[->|?] ?]; tauto.
    + rewrite elem_of_cons, IH, !elem_of_cons.
      split.
      * intros [->|[? ?]]; tauto.
      * intros [[->|?] ?]; [tauto|].
        destruct (decide (x = o)); tauto.
Qed.

Lemma first_seen_NoDup (owners : list string) :
  forall seen, NoDup (Spec.first_seen seen owners).
Proof.
  induction owners as [|o owners IH]; intros seen; cbn [Spec.first_seen].
  - constructor.
  - destruct (bool_decide (o ∈ seen)); [apply IH|].
    apply NoDup_cons. split; [|apply IH].
    rewrite first_seen_elem, elem_of_cons. tauto.
Qed.

Lemma key_eqb_str (a b : string) : key_eqb (NStr a) (NStr b) = bool_decide (a = b).
Proof.
  unfold key_eqb. cbn [key_norm]. apply bool_decide_ext. split; congruence.
Qed.

Lemma group_append_keys {V : Type} (f : string -> list V) (o : string) (v : V)
    (keys : list string) :
  NoDup keys ->
  group_append (map (fun name => (NStr name, f name)) keys) (NStr o) v =
  if bool_decide (o ∈ keys)
  then map (fun name => (NStr name, if bool_decide (name = o) then f name ++ [v] else f name)) keys
  else map (fun name => (NStr name, f name)) keys ++ [(NStr o, [v])].
Proof.
  induction keys as [|k keys IH]; intros Hnodup; cbn [map group_append].
  - reflexivity.
  - apply NoDup_cons in Hnodup as [Hk Hnodup].
    rewrite key_eqb_str.
    destruct (bool_decide_reflect (k = o)) as [->|Hne].
    + rewrite bool_decide_true by (left).
      f_equal. apply map_ext_in. intros name Hname.
      rewrite bool_decide_false; [reflexivity|].
      intros ->. apply Hk. now apply list_elem_of_In.
    + rewrite IH by assumption.
      destruct (bool_decide_reflect (o ∈ keys)) as [Ho|Ho].
      * rewrite bool_decide_true by (now right). reflexivity.
      * rewrite bool_decide_false; [reflexivity|].
        rewrite elem_of_cons. intros [->|?]; tauto.
Qed.

Lemma filter_owner_none {V : Type} (items : list (string * V)) (o : string) :
  o ∉ map fst items -> filter (fun item => fst item = o) items = [].
Proof.
  induction items as [|[o' v] items IH]; intros Ho; [reflexivity|].
  cbn [map fst] in Ho. rewrite elem_of_cons in Ho.
  rewrite filter_cons. cbn [fst].
  rewrite decide_False by (intros ->; tauto). apply IH. tauto.
Qed.

Lemma fold_group_append {V : Type} (items : list (string * V)) :
  fold_left (fun acc item => group_append acc (NStr (fst item)) (snd item)) items []
    = groups_of items.
Proof.
  induction items as [|[o v] items IH] using rev_ind; [reflexivity|].
  rewrite fold_left_app. cbn [fold_left fst snd]. rewrite IH. unfold groups_of.
  rewrite group_append_keys by apply first_seen_NoDup.
  rewrite map_app. cbn [map fst]. rewrite first_seen_snoc. cbn [app].
  rewrite (bool_decide_ext (o ∈ Spec.first_seen [] (map fst items))
                           (o ∈ map fst items)).
  2:{ rewrite first_seen_elem, elem_of_nil. tauto. }
  destruct (bool_decide_reflect (o ∈ map fst items)) as [Ho|Ho].
  - rewrite app_nil_r. apply map_ext_in. intros name _. f_equal.
    rewrite filter_app, map_app, filter_cons, filter_nil. cbn [fst].
    destruct (bool_decide_reflect (name = o)) as [->|Hne].
    + now rewrite decide_True.
    + rewrite decide_False by congruence. now rewrite app_nil_r.
  - rewrite map_app. cbn [map]. f_equal.
    + apply map_ext_in. intros name Hname. f_equal.
      rewrite filter_app, map_app, filter_cons, filter_nil. cbn [fst].
      rewrite decide_False; [now rewrite app_nil_r|].
      intros <-. apply Ho. apply list_elem_of_In in Hname.
      apply first_seen_elem in Hname. tauto.
    + f_equal. f_equal.
      rewrite filter_app, map_app, filter_cons, filter_nil. cbn [fst].
      rewrite decide_True by reflexivity.
      now rewrite (filter_owner_none items o Ho).
Qed.

Lemma attribute_owner {V : Type} (names : list string) (outer nested : ValidationError)
    (v : V) (o : string) (acc : list (pyname * list (ValidationError * V))) :
  Spec.owner names outer nested = Some o ->
  attribute_step (map NStr names) (length (absolute_schema_path outer)) acc (nested, v)
    = Ok (group_append acc (NStr o) (nested, v)).
Proof.
  unfold Spec.owner, attribute_step. cbn [fst]. rewrite py_index_nat.
  destruct (absolute_schema_path nested !! length (absolute_schema_path outer))
    as [[idx|s]|]; try discriminate.
  cbn [mbind res_bind assert_int].
  destruct (Z.ltb_spec idx 0) as [Hneg|Hpos]; [discriminate|].
  intros Ho. rewrite py_index_nonneg by assumption.
  rewrite list_lookup_fmap, Ho. reflexivity.
Qed.

Lemma attribute_loop {V : Type} (names : list string) (outer : ValidationError)
    (ctx : list (ValidationError * V)) (owners : list string) :
  Forall2 (fun c o => Spec.owner names outer (fst c) = Some o) ctx owners ->
  forall acc,
  foldM (attribute_step (map NStr names) (length (absolute_schema_path outer))) acc ctx
    = Ok (fold_left (fun acc item => group_append acc (NStr (fst item)) (snd item))
                    (zip owners ctx) acc).
Proof.
  induction 1 as [|[nested v] o ctx owners Ho _ IH]; intros acc; [reflexivity|].
  cbn [foldM zip zip_with fold_left fst snd].
  rewrite (attribute_owner _ _ _ _ _ _ Ho). cbn [mbind res_bind]. apply IH.
Qed.

Lemma emit_errors (vs : list (ValidationError * res (list string))) :
  Forall (fun v => exists l, snd v = Ok l) vs ->
  forall acc, foldM emit_error acc vs = Ok (acc ++ flat_map lines_of vs).
Proof.
  induction 1 as [|v vs [l Hl] _ IH]; intros acc.
  - cbn. now rewrite app_nil_r.
  - cbn [foldM flat_map].
    assert (Hstep : emit_error acc v = Ok (acc ++ lines_of v)).
    { unfold emit_error, lines_of. now rewrite Hl. }
    rewrite Hstep. cbn [mbind res_bind]. rewrite IH. now rewrite <- app_assoc.
Qed.

Lemma emit_alternatives
    (groups : list (pyname * list (ValidationError * res (list string)))) :
  Forall (fun g => Forall (fun v => exists l, snd v = Ok l) (snd g)) groups ->
  forall acc,
  foldM emit_alternative acc groups
    = Ok (acc ++ flat_map (fun g => alternative_header (fst g) :: flat_map lines_of (snd g))
                          groups).
Proof.
  induction 1 as [|[name vs] groups Hvs _ IH]; intros acc.
  - cbn. now rewrite app_nil_r.
  - cbn [foldM flat_map emit_alternative fst snd] in *.
    rewrite (emit_errors vs Hvs). cbn [mbind res_bind]. rewrite IH.
    rewrite <- !app_assoc. reflexivity.
Qed.

Lemma groups_of_explained (items : list (string * (ValidationError * res (list string)))) :
  Forall (fun item => exists l, snd (snd item) = Ok l) items ->
  Forall (fun g => Forall (fun v => exists l, snd v = Ok l) (snd g)) (groups_of items).
Proof.
  intros Hitems. unfold groups_of. apply Forall_map, Forall_forall. intros name _.
  cbn [snd]. apply Forall_map, Forall_forall. intros item Hitem.
  apply list_elem_of_filter in Hitem as [_ Hitem].
  rewrite Forall_forall in Hitems. now apply Hitems.
Qed.

Lemma block_lines (name : string)
    (items : list (string * (ValidationError * res (list string))))
    (explained : list (string * list string)) :
  Forall2 (fun item ol => fst item = fst ol /\ snd (snd item) = Ok (snd ol))
          items explained ->
  alternative_header (NStr name)
    :: flat_map lines_of (map snd (filter (fun item => fst item = name) items))
  = Spec.block explained name.
Proof.
  intros Hrel. unfold Spec.block, alternative_header, Spec.quoted. cbn [str_of_name].
  rewrite !append_assoc. f_equal.
  induction Hrel as [|[o [c r]] [o' l] items explained [Ho Hr] _ IH]; [reflexivity|].
  cbn [fst snd] in Ho, Hr. subst o' r. rewrite filter_cons. cbn [fst flat_map snd].
  destruct (String.eqb_spec o name) as [->|Hne].
  - rewrite decide_True by reflexivity. cbn [map flat_map snd]. now rewrite IH.
  - rewrite decide_False by assumption. now rewrite IH.
Qed.

Lemma flat_map_map {A B C : Type} (g : B -> list C) (h : A -> B) (l : list A) :
  flat_map g (map h l) = flat_map (fun x => g (h x)) l.
Proof. induction l as [|x l IH]; [reflexivity|]. cbn. now rewrite IH. Qed.

Lemma first_seen_nonempty (o : string) (owners : list string) :
  Spec.first_seen [] (o :: owners) = o :: Spec.first_seen [o] owners.
Proof. reflexivity. Qed.

Section NoneSatisfied.

Variable probe : json -> json -> json -> res bool.
Variables (depth : nat) (schema : json).

Lemma context_items (names : list string) (outer : ValidationError)
    (ctx : list ValidationError) (explained : list (string * list string)) :
  Forall2 (fun nested ol =>
             Spec.owner names outer nested = Some (fst ol)
             /\ _validation_error_to_message_lines probe depth nested schema = Ok (snd ol)) ctx explained ->
  Forall2 (fun c o => Spec.owner names outer (fst c) = Some o)
          (map (fun c => (c, _validation_error_to_message_lines probe depth c schema)) ctx) (map fst explained)
  /\ Forall2 (fun item ol => fst item = fst ol /\ snd (snd item) = Ok (snd ol))
             (zip (map fst explained) (map (fun c => (c, _validation_error_to_message_lines probe depth c schema)) ctx)) explained.
Proof.
  induction 1 as [|c ol ctx explained [Ho Hl] _ [IH1 IH2]]; [split; constructor|].
  split; constructor; auto.
Qed.

Lemma none_satisfied_lines (error : ValidationError) (alternatives : list json)
    (names : list string) (explained : list (string * list string)) :
  context error <> [] ->
  validator_value error = JList alternatives ->
  _get_one_of_alternative_names depth (JList alternatives) schema
    = Ok (map NStr names) ->
  Forall2 (fun nested ol =>
             Spec.owner names error nested = Some (fst ol)
             /\ _validation_error_to_message_lines probe depth nested schema = Ok (snd ol)) (context error) explained ->
  _one_of_no_alternatives_satisfied_message_lines depth error schema
    (map (fun c => (c, _validation_error_to_message_lines probe depth c schema))
       (context error))
    = Ok (Spec.none_satisfied_body names explained).
Proof.
  intros Hctx Hvalue Hnames Hexplained.
  unfold _one_of_no_alternatives_satisfied_message_lines.
  rewrite Hvalue, Hnames. cbn [mbind res_bind].
  rewrite join_names_strings. cbn [mbind res_bind app].
  destruct (context_items _ _ _ _ Hexplained) as [Howners Hitems].
  destruct (context error) as [|c ctx] eqn:Hc; [congruence|].
  cbn [map mbind res_bind]. rewrite <- (map_cons
    (fun c => (c, _validation_error_to_message_lines probe depth c schema)) c ctx).
  rewrite (attribute_loop _ _ _ _ Howners). cbn [mbind res_bind].
  rewrite fold_group_append.
  rewrite emit_alternatives.
  2:{ apply groups_of_explained.
      eapply Forall2_Forall_l; [exact Hitems|].
      apply Forall_forall. intros ol _ item [_ Hl]. eauto. }
  unfold Spec.none_satisfied_body. cbn [app]. f_equal. f_equal.
  unfold groups_of. rewrite flat_map_map. cbn [fst snd].
  assert (Hfst : map fst (zip (map fst explained)
                    (map (fun c => (c, _validation_error_to_message_lines probe depth c schema))
                           (c :: ctx))) = map fst explained).
  { apply fst_zip.
    apply Forall2_length in Hexplained. rewrite !length_map. lia. }
  rewrite Hfst. apply flat_map_ext. intros name.
  now apply block_lines.
Qed.

End NoneSatisfied.

(** C2.  For an exactly-one-of failure with nested failures the body
    starts with "Must be exactly one of: <names>; all alternatives failed
    validation."; a nested failure belongs to the alternative whose index
    is the element of its schema path at the length of the outer schema
    path; then, for each name that owns a nested failure, in the order the
    names are first met, comes the header 'Errors associated with
    alternative "<name>":' and the explanations of its nested failures, in
    their order, each line indented by four spaces. *)
Theorem none_satisfied_body_grouped
    (probe : json -> json -> json -> res bool) (depth : nat) (schema : json)
    (error : ValidationError) (alternatives : list json)
    (names : list string) (explained : list (string * list string)) :
  validator error = "oneOf" ->
  context error <> [] ->
  validator_value error = JList alternatives ->
  _get_one_of_alternative_names depth (JList alternatives) schema
    = Ok (map NStr names) ->
  Forall2 (fun nested ol =>
             Spec.owner names error nested = Some (fst ol)
             /\ _validation_error_to_message_lines probe depth nested schema
                = Ok (snd ol)) (context error) explained ->
  _one_of_no_alternatives_satisfied_message_lines depth error schema
    (map (fun nested =>
            (nested, _validation_error_to_message_lines probe depth nested schema))
         (context error))
    = Ok (Spec.none_satisfied_body names explained)
  /\ _validation_error_to_message_lines probe depth error schema
    = Ok (("In " +:+ Spec.locate (absolute_path error) +:+ ":")
          :: map Spec.indent (Spec.none_satisfied_body names explained)).
Proof.
  intros Hone Hctx Hvalue Hnames Hexplained.
  pose proof (none_satisfied_lines probe depth schema error _ _ _
                Hctx Hvalue Hnames Hexplained) as Hbody.
  split; [exact Hbody|].
  rewrite message_lines_unfold, instance_path_description, Hone.
  cbn [mbind res_bind]. change (String.eqb "oneOf" "oneOf") with true. cbv iota.
  destruct (context error) as [|c ctx]; [congruence|].
  rewrite Hbody. cbn [mbind res_bind].
  inversion Hexplained as [|c' [o l] ctx' explained' _ _ Heq1 Heq2]. subst.
  reflexivity.
Qed.

Lemma none_satisfied_body_grouped_witness :
  _validation_error_to_message_lines (fun _ _ _ => Ok false) 8
    (mkValidationError "oneOf" [TStr "graph"; TStr "s1"] [TStr "oneOf"] (JInt 3)
       (JList [JDict [("title", JStr "X")]; JDict [("$ref", JStr "#/defs/y")]])
       [mkValidationError "type" [TStr "graph"; TStr "s1"]
          [TStr "oneOf"; TInt 1; TStr "type"] (JInt 3) (JStr "string") []
          "3 is not of type 'string'";
        mkValidationError "type" [TStr "graph"; TStr "s1"]
          [TStr "oneOf"; TInt 0; TStr "type"] (JInt 3) (JStr "object") []
          "3 is not of type 'object'";
        mkValidationError "minLength" [TStr "graph"; TStr "s1"]
          [TStr "oneOf"; TInt 1; TStr "minLength"] (JInt 3) (JInt 1) []
          "3 is too short"]
       "3 is not valid under any of the given schemas")
    (JDict [("defs", JDict [("y", JDict [("title", JStr "Y")])])])
  = Ok ["In step " +:+ dquote +:+ "s1" +:+ dquote +:+ ":";
        "    Must be exactly one of: X, Y; all alternatives failed validation.";
        "    Errors associated with alternative " +:+ dquote +:+ "Y" +:+ dquote +:+ ":";
        "        In step " +:+ dquote +:+ "s1" +:+ dquote +:+ ": 3 is not of type 'string'";
        "        In step " +:+ dquote +:+ "s1" +:+ dquote +:+ ": 3 is too short";
        "    Errors associated with alternative " +:+ dquote +:+ "X" +:+ dquote +:+ ":";
        "        In step " +:+ dquote +:+ "s1" +:+ dquote +:+ ": 3 is not of type 'object'"].
Proof.
  refine (proj2 (none_satisfied_body_grouped (fun _ _ _ => Ok false) 8
    (JDict [("defs", JDict [("y", JDict [("title", JStr "Y")])])])
    (mkValidationError "oneOf" [TStr "graph"; TStr "s1"] [TStr "oneOf"] (JInt 3)
       (JList [JDict [("title", JStr "X")]; JDict [("$ref", JStr "#/defs/y")]])
       [_; _; _] "3 is not valid under any of the given schemas")
    [JDict [("title", JStr "X")]; JDict [("$ref", JStr "#/defs/y")]]
    ["X"; "Y"]
    [("Y", ["In step " +:+ dquote +:+ "s1" +:+ dquote +:+ ": 3 is not of type 'string'"]);
     ("X", ["In step " +:+ dquote +:+ "s1" +:+ dquote +:+ ": 3 is not of type 'object'"]);
     ("Y", ["In step " +:+ dquote +:+ "s1" +:+ dquote +:+ ": 3 is too short"])]
    _ _ _ _ _)).
  - reflexivity.
  - discriminate.
  - reflexivity.
  - vm_compute. reflexivity.
  - repeat constructor.
Defined.

(** ** The store *)

Lemma run_bind {A B : Type} (m : InPlace.M A) (k : A -> InPlace.M B) (s : InPlace.store) :
  (m ≫= k) s =
  match m s with
  | (Ok a, s') => k a s'
  | (Raise e, s') => (Raise e, s')
  end.
Proof. reflexivity. Qed.

Lemma prefix_of_insert {A : Type} (s t : list A) (i : nat) (x : A) :
  s `prefix_of` t -> length s <= i -> s `prefix_of` <[i := x]> t.
Proof.
  intros [k ->] Hi. exists (<[i - length s := x]> k).
  now rewrite insert_app_r_alt.
Qed.

Lemma prefix_of_alter {A : Type} (f : A -> A) (s t : list A) (i : nat) :
  s `prefix_of` t -> length s <= i -> s `prefix_of` alter f i t.
Proof.
  intros [k ->] Hi. exists (alter f (i - length s) k).
  now rewrite alter_app_r_alt.
Qed.

Lemma prefix_of_lookup {A : Type} (s t : list A) (i : nat) (x : A) :
  s `prefix_of` t -> s !! i = Some x -> t !! i = Some x.
Proof. intros [k ->] Hx. now apply lookup_app_l_Some. Qed.

Lemma run_lift {A : Type} (r : res A) (s : InPlace.store) : InPlace.lift r s = (r, s).
Proof. reflexivity. Qed.

Lemma run_ret {A : Type} (a : A) (s : InPlace.store) :
  (mret a : InPlace.M A) s = (Ok a, s).
Proof. reflexivity. Qed.

Lemma run_new_list (xs : list string) (s : InPlace.store) :
  InPlace.new_list xs s = (Ok (length s), s ++ [xs]).
Proof. reflexivity. Qed.

Lemma run_contents (l : nat) (s : InPlace.store) (xs : list string) :
  s !! l = Some xs -> InPlace.contents l s = (Ok xs, s).
Proof. unfold InPlace.contents. now intros ->. Qed.

Lemma run_list_len (l : nat) (s : InPlace.store) (xs : list string) :
  s !! l = Some xs -> InPlace.list_len l s = (Ok (length xs), s).
Proof.
  intros Hl. unfold InPlace.list_len. rewrite run_bind, (run_contents _ _ _ Hl).
  reflexivity.
Qed.

Lemma run_list_getitem (l : nat) (i : Z) (s : InPlace.store) (xs : list string) :
  s !! l = Some xs -> InPlace.list_getitem l i s = (py_index xs i, s).
Proof.
  intros Hl. unfold InPlace.list_getitem. rewrite run_bind, (run_contents _ _ _ Hl).
  reflexivity.
Qed.

Lemma alter_as_insert {A : Type} (f : A -> A) (l : nat) (s : list A) (x : A) :
  s !! l = Some x -> alter f l s = <[l := f x]> s.
Proof.
  intros Hl. apply list_eq. intros j. destruct (decide (j = l)) as [->|Hne].
  - rewrite list_lookup_alter_eq, Hl. cbn.
    rewrite list_lookup_insert_eq; [reflexivity|]. now apply lookup_lt_Some in Hl.
  - rewrite list_lookup_alter_ne, list_lookup_insert_ne by congruence. reflexivity.
Qed.

Lemma run_list_setitem (l i : nat) (x : string) (s : InPlace.store) (xs : list string) :
  s !! l = Some xs -> i < length xs ->
  InPlace.list_setitem l i x s = (Ok tt, <[l := <[i := x]> xs]> s).
Proof.
  intros Hl Hi. unfold InPlace.list_setitem.
  rewrite run_bind, (run_contents _ _ _ Hl).
  destruct (Nat.ltb_spec i (length xs)) as [_|Hge]; [|lia].
  unfold InPlace.update. now rewrite (alter_as_insert _ _ _ _ Hl).
Qed.

Lemma run_list_append (l : nat) (x : string) (s : InPlace.store) (xs : list string) :
  s !! l = Some xs ->
  InPlace.list_append l x s = (Ok tt, <[l := xs ++ [x]]> s).
Proof.
  intros Hl. unfold InPlace.list_append, InPlace.update.
  now rewrite (alter_as_insert _ _ _ _ Hl).
Qed.

Lemma run_list_extend (l other : nat) (s : InPlace.store) (xs ys : list string) :
  s !! l = Some xs -> s !! other = Some ys ->
  InPlace.list_extend l other s = (Ok tt, <[l := xs ++ ys]> s).
Proof.
  intros Hl Hother. unfold InPlace.list_extend.
  rewrite run_bind, (run_contents _ _ _ Hother).
  unfold InPlace.update. now rewrite (alter_as_insert _ _ _ _ Hl).
Qed.

(** The loop of [_indent_lines] from the index [length done] on. *)
Lemma indent_loop (lines : nat) (rest : list string) :
  forall (done : list string) (s : InPlace.store),
  s !! lines = Some (done ++ rest) ->
  InPlace.for_each (fun i =>
      line ← InPlace.list_getitem lines (Z.of_nat i);
      InPlace.list_setitem lines i (spaces _INDENT_SIZE +:+ line))
    (seq (length done) (length rest)) s
  = (Ok tt, <[lines := done ++ _indent_lines rest]> s).
Proof.
  induction rest as [|x rest IH]; intros done s Hs.
  - cbn [length seq InPlace.for_each _indent_lines map].
    rewrite list_insert_id; [reflexivity|]. exact Hs.
  - cbn [length seq InPlace.for_each]. rewrite !run_bind.
    rewrite (run_list_getitem _ _ _ _ Hs), py_index_nat.
    rewrite lookup_app_r by lia. rewrite Nat.sub_diag. cbn [lookup list_lookup].
    rewrite (run_list_setitem _ _ _ _ _ Hs) by (rewrite length_app; cbn; lia).
    assert (Hins : <[length done := spaces _INDENT_SIZE +:+ x]> (done ++ x :: rest)
                   = (done ++ [spaces _INDENT_SIZE +:+ x]) ++ rest).
    { rewrite insert_app_r_alt by lia. rewrite Nat.sub_diag. cbn.
      now rewrite <- app_assoc. }
    rewrite Hins.
    replace (S (length done)) with (length (done ++ [spaces _INDENT_SIZE +:+ x]))
      by (rewrite length_app; cbn; lia).
    rewrite IH.
    + rewrite list_insert_insert_eq. f_equal. f_equal.
      cbn [_indent_lines map]. now rewrite <- app_assoc.
    + apply list_lookup_insert_eq. now apply lookup_lt_Some in Hs.
Qed.

Lemma run_indent_lines (lines : nat) (s : InPlace.store) (xs : list string) :
  s !! lines = Some xs ->
  InPlace._indent_lines lines s = (Ok lines, <[lines := _indent_lines xs]> s).
Proof.
  intros Hs. unfold InPlace._indent_lines.
  rewrite run_bind, (run_list_len _ _ _ Hs), run_bind.
  pose proof (indent_loop lines xs [] s Hs) as Hloop.
  cbn [length app] in Hloop. rewrite Hloop. reflexivity.
Qed.

(** ** Computations that only touch what they allocate *)

Lemma list_append_extends (a : nat) (x : string) :
  extends (InPlace.list_append a x) a (fun acc => Ok (acc ++ [x])).
Proof.
  intros s0 s acc Hpre Ha Hacc. rewrite (run_list_append _ _ _ _ Hacc). cbn [fst snd].
  split; [now apply prefix_of_insert|]. split; [reflexivity|].
  apply list_lookup_insert_eq. now apply lookup_lt_Some in Hacc.
Qed.

Lemma extends_bind (m1 m2 : InPlace.M unit) (a : nat)
    (f1 f2 : list string -> res (list string)) :
  extends m1 a f1 -> extends m2 a f2 ->
  extends (_ ← m1; m2) a (fun acc => acc' ← f1 acc; f2 acc').
Proof.
  intros H1 H2 s0 s acc Hpre Ha Hacc. rewrite run_bind.
  destruct (H1 s0 s acc Hpre Ha Hacc) as [Hpre1 Hres1].
  destruct (f1 acc) as [acc'|e]; cbn [mbind res_bind].
  - destruct Hres1 as [Hok Hacc1]. destruct (m1 s) as [r1 s1]. cbn [fst snd] in *.
    subst r1. now apply (H2 s0 s1 acc').
  - destruct (m1 s) as [r1 s1]. cbn [fst snd] in *. subst r1. cbn [fst snd].
    split; [assumption|reflexivity].
Qed.

Lemma for_each_extends {A B : Type} (body : A -> InPlace.M unit)
    (pure_body : list string -> B -> res (list string)) (a : nat)
    (xs : list A) (ys : list B) :
  Forall2 (fun x y => extends (body x) a (fun acc => pure_body acc y)) xs ys ->
  extends (InPlace.for_each body xs) a (fun acc => foldM pure_body acc ys).
Proof.
  induction 1 as [|x y xs ys Hxy _ IH].
  - intros s0 s acc Hpre Ha Hacc. cbn. auto.
  - cbn [InPlace.for_each foldM]. now apply extends_bind.
Qed.

Lemma emit_error_extends (a : nat) (x : ValidationError * InPlace.M nat)
    (y : ValidationError * res (list string)) :
  explained_alike x y ->
  extends (InPlace.emit_error a x) a (fun acc => emit_error acc y).
Proof.
  intros [_ Hbuilds] s0 s acc Hpre Ha Hacc.
  unfold InPlace.emit_error, emit_error. rewrite run_bind.
  destruct (Hbuilds s) as [Hgrow Hres].
  destruct (snd y) as [lines|e]; cbn [mbind res_bind].
  - destruct Hres as (l & Hok & Hfresh & Hlines).
    destruct (snd x s) as [r1 s1]. cbn [fst snd] in *. subst r1.
    assert (Hacc1 : s1 !! a = Some acc) by now apply (prefix_of_lookup s).
    assert (Hla : a <> l).
    { apply lookup_lt_Some in Hacc. lia. }
    assert (Hlen0 : length s0 <= length s) by now apply prefix_length.
    rewrite run_bind, (run_indent_lines _ _ _ Hlines).
    rewrite (run_list_extend a l _ acc (_indent_lines lines)).
    + cbn [fst snd]. split.
      * apply prefix_of_insert; [|assumption].
        apply prefix_of_insert; [|lia]. now transitivity s.
      * split; [reflexivity|]. apply list_lookup_insert_eq.
        rewrite length_insert. now apply lookup_lt_Some in Hacc1.
    + now rewrite list_lookup_insert_ne by congruence.
    + apply list_lookup_insert_eq. now apply lookup_lt_Some in Hlines.
  - destruct (snd x s) as [r1 s1]. cbn [fst snd] in *. subst r1. cbn [fst snd].
    split; [now transitivity s|reflexivity].
Qed.

Lemma emit_alternative_extends (a : nat)
    (g : pyname * list (ValidationError * InPlace.M nat))
    (h : pyname * list (ValidationError * res (list string))) :
  grouped_alike g h ->
  extends (InPlace.emit_alternative a g) a (fun acc => emit_alternative acc h).
Proof.
  destruct g as [name xs], h as [name' ys]. intros [Hname Halike].
  cbn [fst snd] in *. subst name'.
  unfold InPlace.emit_alternative, emit_alternative.
  apply (extends_bind _ _ a (fun acc => Ok (acc ++ [alternative_header name]))
           (fun acc => foldM emit_error acc ys)).
  - apply list_append_extends.
  - apply for_each_extends.
    eapply Forall2_impl; [exact Halike|]. intros x y. apply emit_error_extends.
Qed.

Lemma group_append_alike (name : pyname)
    (x : ValidationError * InPlace.M nat) (y : ValidationError * res (list string))
    (g : list (pyname * list (ValidationError * InPlace.M nat)))
    (h : list (pyname * list (ValidationError * res (list string)))) :
  explained_alike x y ->
  Forall2 grouped_alike g h ->
  Forall2 grouped_alike (group_append g name x) (group_append h name y).
Proof.
  intros Hxy. induction 1 as [|[k xs] [k' ys] g h [Hk Hxs] Hgh IH];
    cbn [group_append].
  - constructor; [|constructor]. split; [reflexivity|]. cbn [snd].
    constructor; [assumption|constructor].
  - cbn [fst snd] in *. subst k'. destruct (key_eqb k name).
    + constructor; [|assumption]. split; [reflexivity|]. cbn [snd].
      apply Forall2_app; [assumption|]. now constructor.
    + constructor; [|assumption]. now split.
Qed.

Lemma attribute_step_alike (names : list pyname) (len : nat)
    (x : ValidationError * InPlace.M nat) (y : ValidationError * res (list string))
    (g : list (pyname * list (ValidationError * InPlace.M nat)))
    (h : list (pyname * list (ValidationError * res (list string)))) :
  explained_alike x y ->
  Forall2 grouped_alike g h ->
  match attribute_step names len g x, attribute_step names len h y with
  | Ok g', Ok h' => Forall2 grouped_alike g' h'
  | Raise e, Raise e' => e = e'
  | _, _ => False
  end.
Proof.
  intros Hxy Hgh. unfold attribute_step. destruct (Hxy) as [Hfst _]. rewrite <- Hfst.
  destruct (py_index (absolute_schema_path (fst x)) (Z.of_nat len)) as [tok|e];
    cbn [mbind res_bind]; [|reflexivity].
  destruct (assert_int tok) as [idx|e]; cbn [mbind res_bind]; [|reflexivity].
  destruct (py_index names idx) as [name|e]; cbn [mbind res_bind]; [|reflexivity].
  now apply group_append_alike.
Qed.

Lemma attribute_alike (names : list pyname) (len : nat)
    (ctxS : list (ValidationError * InPlace.M nat))
    (ctxP : list (ValidationError * res (list string))) :
  Forall2 explained_alike ctxS ctxP ->
  forall g h, Forall2 grouped_alike g h ->
  match foldM (attribute_step names len) g ctxS,
        foldM (attribute_step names len) h ctxP with
  | Ok g', Ok h' => Forall2 grouped_alike g' h'
  | Raise e, Raise e' => e = e'
  | _, _ => False
  end.
Proof.
  induction 1 as [|x y ctxS ctxP Hxy _ IH]; intros g h Hgh; cbn [foldM].
  - assumption.
  - pose proof (attribute_step_alike names len x y g h Hxy Hgh) as Hstep.
    destruct (attribute_step names len g x) as [g'|e],
             (attribute_step names len h y) as [h'|e']; cbn [mbind res_bind];
      try contradiction; [now apply IH|assumption].
Qed.

Lemma too_many_builds (probe : json -> json -> json -> res bool)
    (depth : nat) (error : ValidationError) (schema : json) :
  builds (InPlace._one_of_too_many_alternatives_satisfied_message_lines
            probe depth error schema)
         (_one_of_too_many_alternatives_satisfied_message_lines
            probe depth error schema).
Proof.
  intros s.
  unfold InPlace._one_of_too_many_alternatives_satisfied_message_lines,
         _one_of_too_many_alternatives_satisfied_message_lines.
  rewrite run_bind, run_lift.
  destruct (_get_one_of_alternative_names depth (validator_value error) schema)
    as [alt_names|e]; cbn [mbind res_bind fst snd]; [|split; [reflexivity|reflexivity]].
  rewrite run_bind, run_lift.
  destruct (join_names ", " alt_names) as [joined|e]; cbn [mbind res_bind fst snd];
    [|split; reflexivity].
  rewrite run_bind, run_lift.
  destruct (py_iter (validator_value error)) as [alternatives|e];
    cbn [mbind res_bind fst snd]; [|split; reflexivity].
  rewrite run_bind, run_lift.
  destruct (foldM _ _ _) as [satisfied|e]; cbn [mbind res_bind fst snd];
    [|split; reflexivity].
  rewrite run_bind, run_lift.
  destruct (join_names ", " satisfied) as [joined_satisfied|e];
    cbn [mbind res_bind fst snd]; [|split; reflexivity].
  rewrite run_new_list. cbn [fst snd].
  split; [now apply prefix_app_r|].
  eexists. split; [reflexivity|]. split; [lia|].
  rewrite lookup_app_r by lia. now rewrite Nat.sub_diag.
Qed.

Lemma none_builds (depth : nat) (error : ValidationError) (schema : json)
    (ctxS : list (ValidationError * InPlace.M nat))
    (ctxP : list (ValidationError * res (list string))) :
  Forall2 explained_alike ctxS ctxP ->
  builds (InPlace._one_of_no_alternatives_satisfied_message_lines
            depth error schema ctxS)
         (_one_of_no_alternatives_satisfied_message_lines depth error schema ctxP).
Proof.
  intros Halike s.
  unfold InPlace._one_of_no_alternatives_satisfied_message_lines,
         _one_of_no_alternatives_satisfied_message_lines.
  rewrite run_bind, run_new_list.
  assert (Hgrow : s `prefix_of` s ++ [[]]) by now apply prefix_app_r.
  assert (Hempty : (s ++ [[]]) !! length s = Some (@nil string)).
  { rewrite lookup_app_r by lia. now rewrite Nat.sub_diag. }
  rewrite run_bind, run_lift.
  destruct (_get_one_of_alternative_names depth (validator_value error) schema)
    as [alt_names|e]; cbn [mbind res_bind fst snd]; [|split; [assumption|reflexivity]].
  rewrite run_bind, run_lift.
  destruct (join_names ", " alt_names) as [joined|e]; cbn [mbind res_bind fst snd];
    [|split; [assumption|reflexivity]].
  rewrite run_bind, (run_list_append _ _ _ _ Hempty). cbn [app].
  set (basic := "Must be exactly one of: " +:+ joined
                +:+ "; all alternatives failed validation.").
  set (s2 := <[length s := [basic]]> (s ++ [[]])).
  assert (Hgrow2 : s `prefix_of` s2) by now apply prefix_of_insert.
  assert (Hbasic : s2 !! length s = Some [basic]).
  { apply list_lookup_insert_eq. rewrite length_app. cbn. lia. }
  rewrite run_bind, run_lift.
  destruct Halike as [|x y ctxS ctxP Hxy Halike];
    cbn [mbind res_bind fst snd]; [split; [assumption|reflexivity]|].
  rewrite run_bind, run_lift.
  assert (Hall : Forall2 explained_alike (x :: ctxS) (y :: ctxP))
    by (constructor; assumption).
  assert (Hnil : Forall2 grouped_alike [] []) by constructor.
  pose proof (attribute_alike alt_names (length (absolute_schema_path error))
                (x :: ctxS) (y :: ctxP) Hall [] [] Hnil) as Hgroups.
  destruct (foldM _ [] (x :: ctxS)) as [groupsS|e],
           (foldM _ [] (y :: ctxP)) as [groupsP|e'];
    cbn [mbind res_bind fst snd]; try contradiction.
  2:{ subst e'. split; [assumption|reflexivity]. }
  rewrite run_bind.
  assert (Hloop : extends (InPlace.for_each (InPlace.emit_alternative (length s)) groupsS)
                    (length s) (fun acc => foldM emit_alternative acc groupsP)).
  { apply for_each_extends. eapply Forall2_impl; [exact Hgroups|].
    intros g h. apply emit_alternative_extends. }
  destruct (Hloop s s2 [basic] Hgrow2 (le_n _) Hbasic) as [Hgrow3 Hres].
  destruct (foldM emit_alternative [basic] groupsP) as [lines|e].
  - destruct Hres as [Hok Hlines].
    destruct (InPlace.for_each _ groupsS s2) as [r3 s3]. cbn [fst snd] in *.
    subst r3. rewrite run_ret. cbn [fst snd].
    split; [assumption|]. exists (length s). auto.
  - destruct (InPlace.for_each _ groupsS s2) as [r3 s3]. cbn [fst snd] in *.
    subst r3. cbn [fst snd]. auto.
Qed.

Lemma ValidationError_nested_ind (P : ValidationError -> Prop) :
  (forall error, Forall P (context error) -> P error) -> forall error, P error.
Proof.
  intros Hstep. fix IH 1. intros [v ap asp i vv ctx m]. apply Hstep. cbn [context].
  revert ctx. fix IHctx 1. intros [|c ctx]; constructor; [apply IH|apply IHctx].
Qed.

Lemma new_list_builds (xs : list string) : builds (InPlace.new_list xs) (Ok xs).
Proof.
  intros s. rewrite run_new_list. cbn [fst snd].
  split; [now apply prefix_app_r|].
  exists (length s). split; [reflexivity|]. split; [lia|].
  rewrite lookup_app_r by lia. now rewrite Nat.sub_diag.
Qed.

(** The end of the composer: one line goes after the location, several
    lines go under it, indented. *)
Lemma compose_builds (location_desc : string) (W : InPlace.M nat)
    (w : res (list string)) :
  builds W w ->
  builds
    (what_lines ← W;
     n ← InPlace.list_len what_lines;
     if Nat.eqb n 1 then
       first_line ← InPlace.list_getitem what_lines 0;
       InPlace.new_list ["In " +:+ location_desc +:+ ": " +:+ first_line]
     else
       message_lines ← InPlace.new_list ["In " +:+ location_desc +:+ ":"];
       indented ← InPlace._indent_lines what_lines;
       _ ← InPlace.list_extend message_lines indented;
       mret message_lines)
    (what_lines ← w;
     if Nat.eqb (length what_lines) 1 then
       first_line ← py_index what_lines 0;
       Ok ["In " +:+ location_desc +:+ ": " +:+ first_line]
     else
       Ok (("In " +:+ location_desc +:+ ":") :: _indent_lines what_lines)).
Proof.
  intros HW s. rewrite run_bind. destruct (HW s) as [Hgrow Hres].
  destruct w as [lines|e]; cbn [mbind res_bind].
  2:{ destruct (W s) as [r1 s1]. cbn [fst snd] in *. subst r1. cbn [fst snd]. auto. }
  destruct Hres as (l & Hok & Hfresh & Hlines).
  destruct (W s) as [r1 s1]. cbn [fst snd] in *. subst r1.
  rewrite run_bind, (run_list_len _ _ _ Hlines).
  destruct (Nat.eqb (length lines) 1) eqn:Hone.
  - rewrite run_bind, (run_list_getitem _ _ _ _ Hlines).
    destruct (py_index lines 0) as [first_line|e]; cbn [mbind res_bind fst snd].
    + rewrite run_new_list. cbn [fst snd]. split.
      * apply prefix_app_r. assumption.
      * exists (length s1). split; [reflexivity|].
        apply prefix_length in Hgrow. split; [lia|].
        rewrite lookup_app_r by lia. now rewrite Nat.sub_diag.
    + auto.
  - rewrite run_bind, run_new_list.
    set (hdr := "In " +:+ location_desc +:+ ":").
    assert (Hlines' : (s1 ++ [[hdr]]) !! l = Some lines)
      by now apply lookup_app_l_Some.
    rewrite run_bind, (run_indent_lines _ _ _ Hlines').
    assert (Hl : l < length s1) by now apply lookup_lt_Some in Hlines.
    assert (Hhdr : <[l := _indent_lines lines]> (s1 ++ [[hdr]]) !! length s1
                   = Some [hdr]).
    { rewrite list_lookup_insert_ne by lia.
      rewrite lookup_app_r by lia. now rewrite Nat.sub_diag. }
    rewrite run_bind.
    rewrite (run_list_extend (length s1) l _ [hdr] (_indent_lines lines) Hhdr).
    2:{ apply list_lookup_insert_eq. rewrite length_app. cbn. lia. }
    rewrite run_ret. cbn [fst snd]. split.
    + apply prefix_length in Hgrow as Hlen.
      apply prefix_of_insert; [|lia]. apply prefix_of_insert; [|lia].
      now apply prefix_app_r.
    + exists (length s1). split; [reflexivity|].
      apply prefix_length in Hgrow. split; [lia|].
      apply list_lookup_insert_eq. rewrite length_insert, length_app. cbn. lia.
Qed.

Lemma store_message_lines_unfold (probe : json -> json -> json -> res bool)
    (depth : nat) (error : ValidationError) (schema : json) :
  InPlace._validation_error_to_message_lines probe depth error schema =
  (location_desc ← InPlace.lift (_instance_path_to_description (absolute_path error));
   what_lines ←
     (if String.eqb (validator error) "oneOf" then
        match context error with
        | _ :: _ =>
            InPlace._one_of_no_alternatives_satisfied_message_lines depth error schema
              (map (fun ctx_error =>
                      (ctx_error,
                       InPlace._validation_error_to_message_lines
                         probe depth ctx_error schema))
                   (context error))
        | [] =>
            InPlace._one_of_too_many_alternatives_satisfied_message_lines
              probe depth error schema
        end
      else InPlace.new_list [message error]);
   n ← InPlace.list_len what_lines;
   if Nat.eqb n 1 then
     first_line ← InPlace.list_getitem what_lines 0;
     InPlace.new_list ["In " +:+ location_desc +:+ ": " +:+ first_line]
   else
     message_lines ← InPlace.new_list ["In " +:+ location_desc +:+ ":"];
     indented ← InPlace._indent_lines what_lines;
     _ ← InPlace.list_extend message_lines indented;
     mret message_lines).
Proof. destruct error; reflexivity. Qed.

Lemma message_lines_build (probe : json -> json -> json -> res bool)
    (depth : nat) (schema : json) (error : ValidationError) :
  builds (InPlace._validation_error_to_message_lines probe depth error schema)
         (_validation_error_to_message_lines probe depth error schema).
Proof.
  induction error as [error IH] using ValidationError_nested_ind.
  rewrite store_message_lines_unfold, message_lines_unfold.
  rewrite instance_path_description.
  intros s. rewrite run_bind, run_lift. cbn [mbind res_bind].
  revert s. apply compose_builds.
  destruct (String.eqb (validator error) "oneOf"); [|apply new_list_builds].
  destruct (context error) as [|c ctx] eqn:Hctx; [apply too_many_builds|].
  apply none_builds. rewrite <- Hctx in *. clear Hctx.
  induction IH as [|c' ctx' Hc _ IHctx]; constructor; [|assumption].
  split; [reflexivity|exact Hc].
Qed.

(** The indentation changes the object at its address and nothing else. *)
Lemma run_indent_lines_alter (lines : nat) (s : InPlace.store) :
  InPlace._indent_lines lines s = (Ok lines, alter _indent_lines lines s).
Proof.
  destruct (s !! lines) as [xs|] eqn:Hs.
  - rewrite (run_indent_lines _ _ _ Hs). now rewrite (alter_as_insert _ _ _ _ Hs).
  - unfold InPlace._indent_lines, InPlace.list_len.
    rewrite !run_bind. unfold InPlace.contents. rewrite Hs. cbn.
    f_equal. apply list_eq. intros j. rewrite list_lookup_alter.
    destruct (decide (lines = j)) as [<-|]; [now rewrite Hs|reflexivity].
Qed.

Section StoreEntryPoints.

Variable probe : json -> json -> json -> res bool.
Variables (depth : nat) (schema : json).

Lemma one_message_run (error : ValidationError) (s : InPlace.store) :
  s `prefix_of` snd (InPlace.validation_error_to_message probe depth error schema s)
  /\ fst (InPlace.validation_error_to_message probe depth error schema s)
     = validation_error_to_message probe depth error schema.
Proof.
  unfold InPlace.validation_error_to_message, validation_error_to_message.
  rewrite run_bind.
  destruct (message_lines_build probe depth schema error s) as [Hgrow Hres].
  destruct (_validation_error_to_message_lines probe depth error schema)
    as [lines|e]; cbn [mbind res_bind].
  - destruct Hres as (l & Hok & _ & Hlines).
    destruct (InPlace._validation_error_to_message_lines probe depth error schema s)
      as [r1 s1]. cbn [fst snd] in *. subst r1.
    rewrite run_bind, (run_contents _ _ _ Hlines), run_ret. cbn [fst snd]. auto.
  - destruct (InPlace._validation_error_to_message_lines probe depth error schema s)
      as [r1 s1]. cbn [fst snd] in *. subst r1. cbn [fst snd]. auto.
Qed.

Lemma each_message_run (errors : list ValidationError) :
  forall s : InPlace.store,
  s `prefix_of`
    snd (mapM (fun error => InPlace.validation_error_to_message probe depth error schema)
              errors s)
  /\ fst (mapM (fun error => InPlace.validation_error_to_message probe depth error schema)
               errors s)
     = mapM (fun error => validation_error_to_message probe depth error schema) errors.
Proof.
  induction errors as [|error errors IH]; intros s; cbn [mapM].
  - rewrite run_ret. cbn [fst snd]. auto.
  - rewrite run_bind. destruct (one_message_run error s) as [Hgrow Hres].
    destruct (InPlace.validation_error_to_message probe depth error schema s)
      as [r1 s1]. cbn [fst snd] in *. rewrite <- Hres.
    destruct r1 as [m|e]; cbn [mbind res_bind fst snd]; [|auto].
    rewrite run_bind. destruct (IH s1) as [Hgrow' Hres'].
    destruct (mapM (fun error => InPlace.validation_error_to_message probe depth error schema)
                   errors s1) as [r2 s2]. cbn [fst snd] in *. rewrite <- Hres'.
    destruct r2 as [ms|e]; cbn [mbind res_bind fst snd].
    + rewrite run_ret. cbn [fst snd]. split; [now transitivity s1|reflexivity].
    + split; [now transitivity s1|reflexivity].
Qed.

Lemma all_messages_run (errors : list ValidationError) (s : InPlace.store) :
  s `prefix_of` snd (InPlace.validation_errors_to_message probe depth errors schema s)
  /\ fst (InPlace.validation_errors_to_message probe depth errors schema s)
     = validation_errors_to_message probe depth errors schema.
Proof.
  unfold InPlace.validation_errors_to_message, validation_errors_to_message.
  rewrite run_bind. destruct (each_message_run errors s) as [Hgrow Hres].
  destruct (mapM (fun error => InPlace.validation_error_to_message probe depth error schema)
                 errors s) as [r1 s1]. cbn [fst snd] in *. rewrite <- Hres.
  destruct r1 as [ms|e]; cbn [mbind res_bind fst snd]; [|auto].
  rewrite run_ret. cbn [fst snd]. auto.
Qed.

End StoreEntryPoints.

(** * Further properties *)

(** ** References and paths as strings *)

Lemma string_rev_app (s1 s2 : string) : String.rev_app s1 s2 = String.rev s1 +:+ s2.
Proof.
  unfold String.rev. revert s2.
  induction s1 as [|c s1 IH]; intros s2; [reflexivity|].
  cbn [String.rev_app]. rewrite IH, (IH (String c "")), append_assoc. reflexivity.
Qed.

Lemma string_rev_cons (c : ascii) (s : string) :
  String.rev (String c s) = String.rev s +:+ String c "".
Proof. unfold String.rev at 1. cbn [String.rev_app]. apply string_rev_app. Qed.

Lemma split_slash_go_cons (cur s : string) :
  exists first rest, split_slash_go cur s = first :: rest.
Proof.
  revert cur. induction s as [|c s IH]; intros cur; cbn [split_slash_go]; eauto.
  destruct (Ascii.eqb c "/"); eauto.
Qed.

Lemma join_split_slash_go (s : string) :
  forall cur, str_join "/" (split_slash_go cur s) = String.rev cur +:+ s.
Proof.
  induction s as [|c s IH]; intros cur; cbn [split_slash_go].
  - cbn [str_join]. now rewrite append_nil_r.
  - destruct (Ascii.eqb_spec c "/"%char) as [->|Hc].
    + destruct (split_slash_go_cons "" s) as (first & rest & Hsplit).
      pose proof (IH "") as Hjoin. rewrite Hsplit in *.
      rewrite str_join_cons, Hjoin. reflexivity.
    + rewrite IH, string_rev_cons, append_assoc. reflexivity.
Qed.

(** Joining the pieces of a split gives the string back. *)
Lemma join_split_slash (s : string) : str_join "/" (split_slash s) = s.
Proof. unfold split_slash. now rewrite join_split_slash_go. Qed.

Lemma split_slash_go_segment (seg : string) :
  slash_free seg = true ->
  forall cur,
  split_slash_go cur seg = [String.rev cur +:+ seg]
  /\ forall rest,
     split_slash_go cur (seg +:+ String "/" rest)
     = (String.rev cur +:+ seg) :: split_slash_go "" rest.
Proof.
  unfold slash_free. induction seg as [|c seg IH]; intros Hfree cur.
  - split; [cbn [split_slash_go]; now rewrite append_nil_r|].
    intros rest. change ("" +:+ String "/" rest) with (String "/" rest).
    cbn [split_slash_go]. change (Ascii.eqb "/" "/") with true. cbv iota.
    now rewrite append_nil_r.
  - cbn [list_ascii_of_string forallb] in Hfree.
    apply andb_true_iff in Hfree as [Hc Hfree].
    apply negb_true_iff in Hc.
    destruct (IH Hfree (String c cur)) as [Hlast Hmore].
    assert (Hrev : String.rev (String c cur) +:+ seg = String.rev cur +:+ String c seg).
    { rewrite string_rev_cons, append_assoc. reflexivity. }
    split.
    + cbn [split_slash_go]. rewrite Hc, Hlast. now rewrite Hrev.
    + intros rest. change (String c seg +:+ String "/" rest)
        with (String c (seg +:+ String "/" rest)).
      cbn [split_slash_go]. rewrite Hc, Hmore. now rewrite Hrev.
Qed.

(** Splitting the join of segments without a slash gives the segments. *)
Lemma split_join_slash (segs : list string) :
  segs <> [] ->
  Forall (fun seg => slash_free seg = true) segs ->
  split_slash (str_join "/" segs) = segs.
Proof.
  unfold split_slash. induction segs as [|seg segs IH]; [congruence|].
  intros _ Hfree. apply Forall_cons in Hfree as [Hseg Hfree].
  destruct (split_slash_go_segment seg Hseg "") as [Hlast Hmore].
  destruct segs as [|seg' segs].
  - cbn [str_join]. exact Hlast.
  - rewrite str_join_cons.
    change ("/" +:+ str_join "/" (seg' :: segs))
      with (String "/" (str_join "/" (seg' :: segs))).
    rewrite Hmore. cbn. f_equal. now apply IH.
Qed.

Lemma map_str_of_token_TStr (segs : list string) :
  map str_of_token (map TStr segs) = segs.
Proof. induction segs as [|s segs IH]; [reflexivity|]. cbn. now rewrite IH. Qed.

(** X1.  A reference that starts with "#/" is given back, after the "#",
    by rendering the path it is converted to. *)
Theorem reference_path_renders_back (rest : string) :
  "#" +:+ _json_path_to_string (map TStr (_schema_reference_to_path ("#/" +:+ rest)))
  = "#/" +:+ rest.
Proof.
  unfold _schema_reference_to_path, _json_path_to_string.
  change (String.eqb ("#/" +:+ rest) "#") with false. cbv iota.
  change (drop2 ("#/" +:+ rest)) with rest.
  now rewrite map_str_of_token_TStr, join_split_slash.
Qed.

(** X2.  Segments without a slash, at least one of them, are recovered
    from the reference "#" followed by their rendering. *)
Theorem rendered_segments_convert_back (segs : list string) :
  segs <> [] ->
  Forall (fun seg => slash_free seg = true) segs ->
  _schema_reference_to_path ("#" +:+ _json_path_to_string (map TStr segs)) = segs.
Proof.
  intros Hne Hfree. unfold _schema_reference_to_path, _json_path_to_string.
  rewrite map_str_of_token_TStr.
  change (String.eqb ("#" +:+ "/" +:+ str_join "/" segs) "#") with false. cbv iota.
  change (drop2 ("#" +:+ "/" +:+ str_join "/" segs)) with (str_join "/" segs).
  now apply split_join_slash.
Qed.

Lemma rendered_segments_convert_back_witness :
  _schema_reference_to_path
    ("#" +:+ _json_path_to_string (map TStr ["definitions"; ""; "0"]))
  = ["definitions"; ""; "0"].
Proof.
  apply (rendered_segments_convert_back ["definitions"; ""; "0"]).
  - discriminate.
  - repeat constructor.
Defined.

(** X3.  The converted path is empty for the reference "#" and for no
    other: "#/" is the path of the one segment "". *)
Theorem reference_path_empty_iff (ref : string) :
  _schema_reference_to_path ref = [] <-> ref = "#".
Proof.
  unfold _schema_reference_to_path. split.
  - destruct (String.eqb_spec ref "#") as [->|Hne]; [reflexivity|].
    unfold split_slash.
    destruct (split_slash_go_cons "" (drop2 ref)) as (first & rest & ->).
    discriminate.
  - now intros ->.
Qed.

(** ** More on the resolver *)

(** X4.  What the resolver returns is never a reference node, and it is
    null only when the full schema is. *)
Theorem resolved_node_is_plain (depth : nat) :
  forall (path : list token) (full_schema schema node : json),
  _extract_schema_by_schema_path depth path full_schema schema = Ok node ->
  ref_of node = None /\ (node = JNull -> full_schema = JNull).
Proof.
  induction depth as [|depth IH]; intros path full_schema schema node Hr.
  - discriminate.
  - rewrite extract_unfold in Hr. cbv zeta in Hr.
    set (start := match schema with JNull => full_schema | _ => schema end) in *.
    assert (Hstart : start = JNull -> full_schema = JNull).
    { subst start. destruct schema; congruence. }
    destruct (ref_of start) as [ref|] eqn:Href.
    + destruct (reference_path ref) as [rp|e]; cbn [mbind res_bind] in Hr;
        [|discriminate]. now apply IH in Hr.
    + destruct (truthy_opt_token (head path)); cbn [negb] in Hr.
      * destruct (head path) as [tok|].
        -- destruct (if is_list start then TInt <$> int_of_token tok else Ok tok)
             as [key|e]; cbn [mbind res_bind] in Hr; [|discriminate].
           destruct (py_getitem start key) as [child|e]; cbn [mbind res_bind] in Hr;
             [|discriminate]. now apply IH in Hr.
        -- injection Hr as <-. auto.
      * injection Hr as <-. auto.
Qed.

Lemma resolved_node_is_plain_witness :
  ref_of (JDict [("title", JStr "B")]) = None
  /\ (JDict [("title", JStr "B")] = JNull ->
      JDict [("a", JDict [("$ref", JStr "#/b")]); ("b", JDict [("title", JStr "B")])]
      = JNull).
Proof.
  apply (resolved_node_is_plain 4 [TStr "a"]
    (JDict [("a", JDict [("$ref", JStr "#/b")]); ("b", JDict [("title", JStr "B")])])
    JNull).
  vm_compute. reflexivity.
Defined.

(** X5.  A full schema that is a reference to "#" refers to itself: from
    its root the resolver raises RecursionError, whatever the path and
    the depth allowed. *)
Theorem self_reference_never_resolves (d : list (string * json)) :
  dict_get d "$ref" = Some (JStr "#") ->
  forall (depth : nat) (path : list token),
  _extract_schema_by_schema_path depth path (JDict d) JNull = Raise RecursionError.
Proof.
  intros Href depth. induction depth as [|depth IH]; intros path; [reflexivity|].
  rewrite extract_unfold. cbv zeta. cbn [ref_of]. rewrite Href.
  cbn [reference_path _schema_reference_to_path]. apply IH.
Qed.

Lemma self_reference_never_resolves_witness :
  _extract_schema_by_schema_path 50 [TStr "title"]
    (JDict [("$ref", JStr "#"); ("title", JStr "T")]) JNull
  = Raise RecursionError.
Proof.
  apply (self_reference_never_resolves [("$ref", JStr "#"); ("title", JStr "T")]).
  reflexivity.
Defined.

(** X6.  An outcome of the resolver other than RecursionError stays the
    same when more depth is allowed. *)
Theorem resolver_outcome_is_stable (extra depth : nat) (path : list token)
    (full_schema schema : json) (r : res json) :
  _extract_schema_by_schema_path depth path full_schema schema = r ->
  r <> Raise RecursionError ->
  _extract_schema_by_schema_path (extra + depth) path full_schema schema = r.
Proof. apply extract_deeper_by. Qed.

Lemma resolver_outcome_is_stable_witness :
  _extract_schema_by_schema_path (100 + 6) [TStr "a"; TStr "missing"]
    (JDict [("a", JDict [("$ref", JStr "#/b")]); ("b", JDict [])]) JNull
  = Raise KeyError.
Proof.
  apply (resolver_outcome_is_stable 100 6).
  - vm_compute. reflexivity.
  - discriminate.
Defined.

(** X7.  In a sequence a negative index counts from the end: the index
    [i] with [-len <= i < 0] goes on in the element at [len + i]. *)
Theorem negative_index_counts_from_end (depth : nat) (full_schema : json)
    (l : list json) (i : Z) (rest : list token) :
  (i < 0)%Z -> (- Z.of_nat (length l) <= i)%Z ->
  exists child,
    l !! Z.to_nat (Z.of_nat (length l) + i) = Some child
    /\ _extract_schema_by_schema_path (S depth) (TInt i :: rest) full_schema (JList l)
       = _extract_schema_by_schema_path depth rest full_schema child.
Proof.
  intros Hneg Hlow.
  destruct (l !! Z.to_nat (Z.of_nat (length l) + i)) as [child|] eqn:Hchild.
  2:{ apply lookup_ge_None in Hchild. lia. }
  exists child. split; [reflexivity|].
  rewrite extract_truthy_token; [|discriminate|reflexivity|].
  - cbn [is_list fmap res_fmap int_of_token mbind res_bind py_getitem].
    unfold py_index. destruct (Z.ltb_spec i 0) as [_|?]; [|lia].
    destruct (Z.ltb_spec (Z.of_nat (length l) + i) 0) as [?|_]; [lia|].
    now rewrite Hchild.
  - cbn. apply negb_true_iff, Z.eqb_neq. lia.
Qed.

Lemma negative_index_counts_from_end_witness :
  exists child,
    [JStr "first"; JStr "last"] !! Z.to_nat (Z.of_nat 2 + -1) = Some child
    /\ _extract_schema_by_schema_path 2 [TInt (-1)] JNull
         (JList [JStr "first"; JStr "last"])
       = _extract_schema_by_schema_path 1 [] JNull child.
Proof.
  apply (negative_index_counts_from_end 1 JNull [JStr "first"; JStr "last"] (-1) []);
    cbn; lia.
Defined.

(** X8.  A step into a null value of a mapping goes on at the root of the
    full schema: null is taken for the omitted argument. *)
Theorem null_value_restarts_at_root (depth : nat) (full_schema : json)
    (d : list (string * json)) (key : string) (rest : list token) :
  dict_get d "$ref" = None ->
  key <> "" ->
  dict_get d key = Some JNull ->
  _extract_schema_by_schema_path (S depth) (TStr key :: rest) full_schema (JDict d)
  = _extract_schema_by_schema_path depth rest full_schema full_schema.
Proof.
  intros Href Hkey Hnull.
  rewrite extract_truthy_token; [|discriminate|exact Href|].
  - cbn [is_list mbind res_bind py_getitem]. rewrite Hnull. cbn [mbind res_bind].
    apply extract_null_is_root.
  - cbn. apply negb_true_iff. now apply String.eqb_neq.
Qed.

Lemma null_value_restarts_at_root_witness :
  _extract_schema_by_schema_path 3 [TStr "default"]
    (JDict [("title", JStr "T"); ("default", JNull)])
    (JDict [("title", JStr "T"); ("default", JNull)])
  = _extract_schema_by_schema_path 2 []
      (JDict [("title", JStr "T"); ("default", JNull)])
      (JDict [("title", JStr "T"); ("default", JNull)]).
Proof.
  apply (null_value_restarts_at_root 2
    (JDict [("title", JStr "T"); ("default", JNull)])
    [("title", JStr "T"); ("default", JNull)] "default" []).
  - reflexivity.
  - discriminate.
  - reflexivity.
Defined.

(** X9.  On a sequence a non-empty string token is read as an integer:
    the walk goes on in the element at that index, also for "0", and a
    string that is no integer raises ValueError. *)
Theorem string_token_indexes_sequence (depth : nat) (full_schema : json)
    (l : list json) (s : string) (rest : list token) :
  s <> "" ->
  _extract_schema_by_schema_path (S depth) (TStr s :: rest) full_schema (JList l)
  = (index ← int_of_str s;
     child ← py_index l index;
     _extract_schema_by_schema_path depth rest full_schema child).
Proof.
  intros Hs. rewrite extract_truthy_token; [|discriminate|reflexivity|].
  - cbn [is_list int_of_token]. destruct (int_of_str s); reflexivity.
  - cbn. apply negb_true_iff. now apply String.eqb_neq.
Qed.

Lemma string_token_indexes_sequence_witness :
  _extract_schema_by_schema_path 2 [TStr "0"] JNull (JList [JStr "first"])
  = (index ← int_of_str "0";
     child ← py_index [JStr "first"] index;
     _extract_schema_by_schema_path 1 [] JNull child).
Proof.
  apply (string_token_indexes_sequence 1 JNull [JStr "first"] "0" []).
  discriminate.
Defined.

(** X10.  A step on a number or a boolean raises TypeError, not a lookup
    error. *)
Theorem step_on_scalar_raises_type_error (depth : nat) (full_schema node : json)
    (tok : token) (rest : list token) :
  truthy_token tok = true ->
  (exists i, node = JInt i) \/ (exists b, node = JBool b) ->
  _extract_schema_by_schema_path (S depth) (tok :: rest) full_schema node
    = Raise TypeError
  /\ is_lookup_error TypeError = false.
Proof.
  intros Htok Hscalar. split; [|reflexivity].
  destruct Hscalar as [[i ->]|[b ->]].
  - rewrite extract_truthy_token; [|discriminate|reflexivity|assumption].
    destruct tok; reflexivity.
  - rewrite extract_truthy_token; [|discriminate|reflexivity|assumption].
    destruct tok; reflexivity.
Qed.

Lemma step_on_scalar_raises_type_error_witness :
  _extract_schema_by_schema_path 2 [TStr "x"] (JDict [("minimum", JInt 1)]) (JInt 1)
    = Raise TypeError
  /\ is_lookup_error TypeError = false.
Proof.
  apply (step_on_scalar_raises_type_error 1 (JDict [("minimum", JInt 1)])
           (JInt 1) (TStr "x") []).
  - reflexivity.
  - left. exists 1%Z. reflexivity.
Defined.

(** X11.  In a full schema none of whose references has an empty segment,
    resolving a path against a reference node and resolving it against
    the node the reference resolves to have the same outcomes, RecursionError
    apart: each outcome of one is an outcome of the other at some depth. *)
Theorem reference_is_transparent_without_empty_segments
    (full_schema : json) (d : list (string * json)) (ref : string)
    (path : list token) (r : res json) :
  clean_references full_schema = true ->
  dict_get d "$ref" = Some (JStr ref) ->
  clean_reference d = true ->
  r <> Raise RecursionError ->
  (exists depth,
     _extract_schema_by_schema_path depth path full_schema (JDict d) = r)
  <->
  (exists depth,
     (node ← _extract_schema_by_reference depth ref full_schema;
      _extract_schema_by_schema_path depth path full_schema node) = r).
Proof.
  intros Hroot Href Hclean Hne. now apply clean_reference_predereferenced.
Qed.

Lemma reference_is_transparent_without_empty_segments_witness :
  exists depth,
    (node ← _extract_schema_by_reference depth "#/defs/y"
              (JDict [("defs", JDict [("y", JDict [("title", JStr "Y")])])]);
     _extract_schema_by_schema_path depth [TStr "title"]
       (JDict [("defs", JDict [("y", JDict [("title", JStr "Y")])])]) node)
    = Ok (JStr "Y").
Proof.
  apply (reference_is_transparent_without_empty_segments
    (JDict [("defs", JDict [("y", JDict [("title", JStr "Y")])])])
    [("$ref", JStr "#/defs/y")] "#/defs/y" [TStr "title"] (Ok (JStr "Y"))).
  - reflexivity.
  - reflexivity.
  - reflexivity.
  - discriminate.
  - exists 5. vm_compute. reflexivity.
Defined.

(** ** More on the namer *)

(** X12.  When the namer returns, it returns as many names as there are
    alternatives. *)
Theorem one_name_per_alternative (depth : nat) (alternatives : list json)
    (full_schema : json) (names : list pyname) :
  _get_one_of_alternative_names depth (JList alternatives) full_schema = Ok names ->
  length names = length alternatives.
Proof. apply names_length. Qed.

Lemma one_name_per_alternative_witness :
  length [NStr "A"; NStr "Alternative #2"; NStr "A(2)"]
  = length [JDict [("title", JStr "A")]; JBool true; JDict [("$ref", JStr "#/a")]].
Proof.
  apply (one_name_per_alternative 5 _ (JDict [("a", JDict [("title", JStr "A")])])).
  vm_compute. reflexivity.
Defined.

Lemma occurrences_none (earlier : list pyname) (name : pyname) :
  key_norm name ∉ map key_norm earlier -> Spec.occurrences earlier name = 0.
Proof.
  unfold Spec.occurrences. induction earlier as [|c earlier IH]; [reflexivity|].
  cbn [map]. rewrite elem_of_cons. intros Hnot.
  rewrite filter_cons, decide_False.
  - apply IH. tauto.
  - unfold key_eqb. intros Heq%bool_decide_eq_true. apply Hnot. now left.
Qed.

Lemma uniquify_distinct (candidates : list pyname) :
  forall earlier,
  NoDup (map key_norm (earlier ++ candidates)) ->
  Spec.uniquify earlier candidates = candidates.
Proof.
  induction candidates as [|c rest IH]; intros earlier Hnodup; [reflexivity|].
  cbn [Spec.uniquify]. rewrite IH by now rewrite <- app_assoc.
  rewrite occurrences_none; [reflexivity|].
  rewrite map_app in Hnodup. apply NoDup_app in Hnodup as (_ & Hdisj & _).
  intros Hin. apply (Hdisj _ Hin). cbn [map]. now left.
Qed.

(** X13.  Candidate names that are pairwise different are returned as
    they are: no suffix is added. *)
Theorem distinct_candidates_are_kept (depth : nat) (alternatives : list json)
    (full_schema : json) (candidates : list pyname) :
  mapM (fun ia => Spec.candidate_name depth full_schema (fst ia) (snd ia))
       (enumerate alternatives) = Ok candidates ->
  NoDup (map key_norm candidates) ->
  _get_one_of_alternative_names depth (JList alternatives) full_schema = Ok candidates.
Proof.
  intros Hcands Hnodup. rewrite names_refine_specification. unfold Spec.names.
  rewrite Hcands. cbn [mbind res_bind]. now rewrite uniquify_distinct.
Qed.

Lemma distinct_candidates_are_kept_witness :
  _get_one_of_alternative_names 5
    (JList [JDict [("title", JStr "A")]; JBool true; JDict [("$ref", JStr "#/b")]])
    (JDict [("b", JDict [("title", JStr "B")])])
  = Ok [NStr "A"; NStr "Alternative #2"; NStr "B"].
Proof.
  apply distinct_candidates_are_kept.
  - vm_compute. reflexivity.
  - cbn. repeat (apply NoDup_cons; split; [rewrite ?elem_of_cons, ?elem_of_nil; intros H; repeat (destruct H as [H|H]; try discriminate); exact H |]). apply NoDup_nil_2.
Defined.

Lemma fallback_candidates (depth : nat) (full_schema : json) (alternatives : list json) :
  Forall (fun alt => forall d, alt <> JDict d) alternatives ->
  forall f : nat -> Z,
  mapM (fun ia => Spec.candidate_name depth full_schema (fst ia) (snd ia))
       (imap (fun i alt => (f i, alt)) alternatives)
  = Ok (imap (fun i _ => NStr ("Alternative #" +:+ str_of_int (f i + 1))) alternatives).
Proof.
  induction 1 as [|alt alternatives Halt _ IH]; intros f; [reflexivity|].
  rewrite !imap_cons. cbn [mapM fst snd].
  assert (Hcand : Spec.candidate_name depth full_schema (f 0%nat) alt
                  = Ok (NStr ("Alternative #" +:+ str_of_int (f 0%nat + 1)))).
  { destruct alt; try reflexivity. now destruct (Halt d). }
  rewrite Hcand. cbn [mbind res_bind].
  change (imap ((fun i (alt : json) => (f i, alt)) ∘ S) alternatives)
    with (imap (fun i (alt : json) => ((f ∘ S) i, alt)) alternatives).
  rewrite (IH (f ∘ S)). reflexivity.
Qed.

Lemma fallback_names_distinct {A : Type} (l : list A) :
  NoDup (map key_norm
           (imap (fun i _ => NStr ("Alternative #" +:+ str_of_int (Z.of_nat i + 1))) l)).
Proof.
  apply NoDup_alt. intros i j name.
  rewrite !list_lookup_fmap, !list_lookup_imap.
  destruct (l !! i) as [x|]; [|discriminate].
  destruct (l !! j) as [y|]; [|discriminate].
  cbn. intros [= <-] [= Heq].
  change (str_of_int (Z.of_nat j + 1) = str_of_int (Z.of_nat i + 1)) in Heq.
  apply (inj pretty) in Heq. lia.
Qed.

(** X14.  Alternatives none of which is a mapping are named
    "Alternative #1", "Alternative #2", ... by their positions, whatever
    the full schema and the depth. *)
Theorem non_mappings_are_numbered (depth : nat) (alternatives : list json)
    (full_schema : json) :
  Forall (fun alt => forall d, alt <> JDict d) alternatives ->
  _get_one_of_alternative_names depth (JList alternatives) full_schema
  = Ok (imap (fun i _ => NStr ("Alternative #" +:+ str_of_int (Z.of_nat i + 1)))
             alternatives).
Proof.
  intros Hplain. rewrite names_refine_specification. unfold Spec.names, enumerate.
  rewrite (fallback_candidates depth full_schema alternatives Hplain Z.of_nat).
  cbn [mbind res_bind]. f_equal. apply uniquify_distinct. cbn [app].
  apply fallback_names_distinct.
Qed.

Lemma non_mappings_are_numbered_witness :
  _get_one_of_alternative_names 0 (JList [JBool true; JBool false; JNull]) JNull
  = Ok [NStr "Alternative #1"; NStr "Alternative #2"; NStr "Alternative #3"].
Proof.
  apply (non_mappings_are_numbered 0 [JBool true; JBool false; JNull] JNull).
  repeat constructor; discriminate.
Defined.

(** ** More on the composer *)

Lemma join_names_not_all_strings (sep : string) (names : list pyname) :
  Exists (fun name => forall s, name <> NStr s) names ->
  join_names sep names = Raise TypeError.
Proof.
  intros Hsome. unfold join_names.
  assert (Hmap : mapM name_as_str names = Raise TypeError).
  { induction names as [|name names IH]; [now apply Exists_nil in Hsome|].
    cbn [mapM]. apply Exists_cons in Hsome as [Hname|Hrest].
    - destruct name; try reflexivity. now destruct (Hname s).
    - destruct name; try reflexivity. cbn [name_as_str mbind res_bind].
      now rewrite (IH Hrest). }
  now rewrite Hmap.
Qed.

(** X15.  A display name that is not a string (a title that is a number
    or true) makes the message of an exactly-one-of failure a TypeError. *)
Theorem non_string_name_raises_type_error
    (probe : json -> json -> json -> res bool) (depth : nat) (schema : json)
    (error : ValidationError) (names : list pyname) :
  validator error = "oneOf" ->
  _get_one_of_alternative_names depth (validator_value error) schema = Ok names ->
  Exists (fun name => forall s, name <> NStr s) names ->
  validation_error_to_message probe depth error schema = Raise TypeError.
Proof.
  intros Hone Hnames Hsome. unfold validation_error_to_message.
  rewrite message_lines_unfold, instance_path_description, Hone.
  cbn [mbind res_bind]. change (String.eqb "oneOf" "oneOf") with true. cbv iota.
  destruct (context error) as [|c ctx].
  - unfold _one_of_too_many_alternatives_satisfied_message_lines.
    rewrite Hnames. cbn [mbind res_bind].
    now rewrite (join_names_not_all_strings _ _ Hsome).
  - unfold _one_of_no_alternatives_satisfied_message_lines.
    rewrite Hnames. cbn [mbind res_bind].
    now rewrite (join_names_not_all_strings _ _ Hsome).
Qed.

Lemma non_string_name_raises_type_error_witness :
  validation_error_to_message (fun _ _ _ => Ok true) 5
    (mkValidationError "oneOf" [] [TStr "oneOf"] (JInt 3)
       (JList [JDict [("title", JInt 5)]; JDict [("title", JStr "B")]]) [] "m")
    (JDict [])
  = Raise TypeError.
Proof.
  apply (non_string_name_raises_type_error _ 5 (JDict []) _ [NInt 5; NStr "B"]).
  - reflexivity.
  - vm_compute. reflexivity.
  - left. discriminate.
Defined.

(** X16.  For a validator other than "oneOf" the message is the one line
    "In <location>: <message of the failure>", whatever the schema, the
    nested failures and the depth: no exception is raised. *)
Theorem other_validators_give_one_line
    (probe : json -> json -> json -> res bool) (depth : nat) (schema : json)
    (error : ValidationError) :
  validator error <> "oneOf" ->
  _validation_error_to_message_lines probe depth error schema
    = Ok ["In " +:+ Spec.locate (absolute_path error) +:+ ": " +:+ message error]
  /\ validation_error_to_message probe depth error schema
    = Ok ("In " +:+ Spec.locate (absolute_path error) +:+ ": " +:+ message error).
Proof.
  intros Hother.
  assert (Hlines : _validation_error_to_message_lines probe depth error schema
    = Ok ["In " +:+ Spec.locate (absolute_path error) +:+ ": " +:+ message error]).
  { rewrite message_lines_unfold, instance_path_description.
    apply String.eqb_neq in Hother. rewrite Hother. reflexivity. }
  split; [exact Hlines|].
  unfold validation_error_to_message. now rewrite Hlines.
Qed.

Lemma other_validators_give_one_line_witness :
  validation_error_to_message (fun _ _ _ => Raise ExternalError) 0
    (mkValidationError "anyOf" [TStr "tasks"; TStr "t"; TStr "plugin"] [TStr "anyOf"]
       (JInt 3) (JList [])
       [mkValidationError "type" [] [] JNull JNull [] "nested"] "3 is not valid")
    JNull
  = Ok ("In task plugin " +:+ dquote +:+ "t" +:+ dquote
        +:+ " plugin ID: 3 is not valid").
Proof.
  refine (proj2 (other_validators_give_one_line (fun _ _ _ => Raise ExternalError)
    0 JNull
    (mkValidationError "anyOf" [TStr "tasks"; TStr "t"; TStr "plugin"] [TStr "anyOf"]
       (JInt 3) (JList [])
       [mkValidationError "type" [] [] JNull JNull [] "nested"] "3 is not valid") _)).
  discriminate.
Defined.

(** X17.  A message that is returned has a first line that starts with
    "In <location>", and every line after it starts with four spaces. *)
Theorem message_shape
    (probe : json -> json -> json -> res bool) (depth : nat) (schema : json)
    (error : ValidationError) (lines : list string) :
  _validation_error_to_message_lines probe depth error schema = Ok lines ->
  exists first rest,
    lines = ("In " +:+ Spec.locate (absolute_path error) +:+ first)
            :: map (fun line => "    " +:+ line) rest.
Proof.
  rewrite message_lines_unfold, instance_path_description. cbn [mbind res_bind].
  destruct (if String.eqb (validator error) "oneOf" then _ else _) as [what|e];
    cbn [mbind res_bind]; [|discriminate].
  destruct (Nat.eqb (length what) 1).
  - destruct (py_index what 0) as [w|e]; cbn [mbind res_bind]; [|discriminate].
    intros [= <-]. exists (": " +:+ w), []. reflexivity.
  - intros [= <-]. exists ":", what. reflexivity.
Qed.

Lemma message_shape_witness :
  exists first rest,
    ["In root level of experiment description: m"]
    = ("In " +:+ Spec.locate [] +:+ first) :: map (fun line => "    " +:+ line) rest.
Proof.
  apply (message_shape (fun _ _ _ => Ok true) 0 JNull
           (mkValidationError "type" [] [] JNull JNull [] "m")).
  reflexivity.
Defined.

(** ** More on the entry points *)

Lemma str_join_app (sep : string) (l1 l2 : list string) :
  l1 <> [] -> l2 <> [] ->
  str_join sep (l1 ++ l2) = str_join sep l1 +:+ sep +:+ str_join sep l2.
Proof.
  intros H1 H2. induction l1 as [|x l1 IH]; [congruence|].
  destruct l1 as [|y l1].
  - destruct l2 as [|z l2]; [congruence|]. reflexivity.
  - change ((x :: y :: l1) ++ l2) with (x :: y :: (l1 ++ l2)).
    rewrite !str_join_cons.
    change (y :: l1 ++ l2) with ((y :: l1) ++ l2). rewrite IH by discriminate.
    now rewrite !append_assoc.
Qed.

Lemma mapM_res_app {A B : Type} (f : A -> res B) (l1 l2 : list A) :
  mapM f (l1 ++ l2) = (k1 ← mapM f l1; k2 ← mapM f l2; Ok (k1 ++ k2)).
Proof.
  induction l1 as [|x l1 IH]; cbn [app mapM].
  - cbn [mbind res_bind mret res_ret]. now destruct (mapM f l2).
  - destruct (f x) as [y|e]; cbn [mbind res_bind]; [|reflexivity].
    rewrite IH. destruct (mapM f l1) as [k1|e]; cbn [mbind res_bind]; [|reflexivity].
    destruct (mapM f l2) as [k2|e]; reflexivity.
Qed.

Lemma all_messages_inv (probe : json -> json -> json -> res bool) (depth : nat)
    (schema : json) (errors : list ValidationError) (m : string) :
  validation_errors_to_message probe depth errors schema = Ok m ->
  exists messages,
    mapM (fun error => validation_error_to_message probe depth error schema) errors
      = Ok messages
    /\ m = str_join (newline +:+ newline) messages.
Proof.
  unfold validation_errors_to_message.
  destruct (mapM _ errors) as [messages|e]; cbn [mbind res_bind]; [|discriminate].
  intros [= <-]. eauto.
Qed.

(** X18.  The message of two sequences of failures put together, neither
    empty, is their messages with a blank line between them. *)
Theorem messages_of_concatenation
    (probe : json -> json -> json -> res bool) (depth : nat) (schema : json)
    (errors1 errors2 : list ValidationError) (m1 m2 : string) :
  errors1 <> [] -> errors2 <> [] ->
  validation_errors_to_message probe depth errors1 schema = Ok m1 ->
  validation_errors_to_message probe depth errors2 schema = Ok m2 ->
  validation_errors_to_message probe depth (errors1 ++ errors2) schema
    = Ok (m1 +:+ (newline +:+ newline) +:+ m2).
Proof.
  intros Hne1 Hne2 (k1 & Hk1 & ->)%all_messages_inv (k2 & Hk2 & ->)%all_messages_inv.
  unfold validation_errors_to_message.
  rewrite mapM_res_app, Hk1, Hk2. cbn [mbind res_bind]. f_equal.
  apply str_join_app.
  - apply mapM_res_length in Hk1. destruct k1, errors1; cbn in *; congruence.
  - apply mapM_res_length in Hk2. destruct k2, errors2; cbn in *; congruence.
Qed.

Lemma messages_of_concatenation_witness :
  validation_errors_to_message (fun _ _ _ => Ok true) 0
    ([mkValidationError "type" [] [] JNull JNull [] "a";
      mkValidationError "type" [] [] JNull JNull [] "b"]
     ++ [mkValidationError "type" [TStr "graph"] [] JNull JNull [] "c"]) JNull
  = Ok (("In root level of experiment description: a" +:+ newline +:+ newline +:+
         "In root level of experiment description: b")
        +:+ (newline +:+ newline) +:+ "In graph section: c").
Proof.
  apply (messages_of_concatenation (fun _ _ _ => Ok true) 0 JNull).
  - discriminate.
  - discriminate.
  - reflexivity.
  - reflexivity.
Defined.

(** X19.  No partial message: when the message of a failure raises and
    the failures before it have messages, the message of the whole
    sequence raises the same exception. *)
Theorem first_raising_failure_decides
    (probe : json -> json -> json -> res bool) (depth : nat) (schema : json)
    (before after : list ValidationError) (error : ValidationError)
    (messages : list string) (e : pyerr) :
  Forall2 (fun err m => validation_error_to_message probe depth err schema = Ok m)
          before messages ->
  validation_error_to_message probe depth error schema = Raise e ->
  validation_errors_to_message probe depth (before ++ error :: after) schema
    = Raise e.
Proof.
  intros Hbefore Hraise. unfold validation_errors_to_message.
  rewrite mapM_res_app, (mapM_res_Forall2 _ _ _ Hbefore). cbn [mbind res_bind mapM].
  now rewrite Hraise.
Qed.

Lemma first_raising_failure_decides_witness :
  validation_errors_to_message (fun _ _ _ => Ok true) 5
    ([mkValidationError "type" [] [] JNull JNull [] "a"]
     ++ mkValidationError "oneOf" [] [TStr "oneOf"] JNull
          (JList [JDict [("$ref", JStr "#/missing")]]) [] "b"
        :: [mkValidationError "type" [] [] JNull JNull [] "c"])
    (JDict [])
  = Raise KeyError.
Proof.
  apply (first_raising_failure_decides (fun _ _ _ => Ok true) 5 (JDict [])
           _ _ _ ["In root level of experiment description: a"]).
  - repeat constructor.
  - vm_compute. reflexivity.
Defined.

(** ** More on the locator *)

(** X20.  Under "parameters", "tasks" and "graph" the description does
    not look past the third token (the second, under "parameters"):
    deeper locations are described like their ancestor. *)
Theorem locator_ignores_deeper_tokens (first second third : token)
    (rest : list token) :
  token_is first "parameters" || token_is first "tasks" || token_is first "graph"
    = true ->
  _instance_path_to_description (first :: second :: third :: rest)
    = _instance_path_to_description [first; second; third]
  /\ (token_is first "parameters" = true ->
      _instance_path_to_description (first :: second :: third :: rest)
        = _instance_path_to_description [first; second]).
Proof.
  intros Hsection. rewrite !instance_path_description. unfold Spec.locate.
  destruct (token_is first "parameters").
  - split; [|intros _]; destruct second; reflexivity.
  - destruct (token_is first "tasks"); [split; [reflexivity|discriminate]|].
    destruct (token_is first "graph"); [split; [reflexivity|discriminate]|].
    discriminate.
Qed.

Lemma locator_ignores_deeper_tokens_witness :
  _instance_path_to_description
    [TStr "graph"; TStr "s"; TStr "dependencies"; TInt 0; TStr "x"]
  = _instance_path_to_description [TStr "graph"; TStr "s"; TStr "dependencies"].
Proof.
  apply (locator_ignores_deeper_tokens (TStr "graph") (TStr "s")
           (TStr "dependencies") [TInt 0; TStr "x"]).
  reflexivity.
Defined.

(** ** Nested failures that belong to no alternative *)

Lemma foldM_app {A B : Type} (f : A -> B -> res A) (l1 l2 : list B) :
  forall acc, foldM f acc (l1 ++ l2) = (acc' ← foldM f acc l1; foldM f acc' l2).
Proof.
  induction l1 as [|x l1 IH]; intros acc; [reflexivity|].
  cbn [app foldM]. destruct (f acc x) as [acc'|e]; cbn [mbind res_bind]; [|reflexivity].
  apply IH.
Qed.

Lemma owners_of (names : list string) (outer : ValidationError)
    (before : list ValidationError) :
  Forall (fun b => is_Some (Spec.owner names outer b)) before ->
  exists owners,
    Forall2 (fun b o => Spec.owner names outer b = Some o) before owners.
Proof.
  induction 1 as [|b before [o Ho] _ [owners IH]]; [exists []; constructor|].
  exists (o :: owners). now constructor.
Qed.

Lemma attribute_unowned {V : Type} (names : list string) (len : nat)
    (nested : ValidationError) (v : V)
    (acc : list (pyname * list (ValidationError * V))) :
  match absolute_schema_path nested !! len with
  | Some (TInt idx) => (Z.of_nat (length names) <= idx)%Z
  | _ => True
  end ->
  attribute_step (map NStr names) len acc (nested, v)
  = Raise match absolute_schema_path nested !! len with
          | Some (TStr _) => AssertionError
          | _ => IndexError
          end.
Proof.
  intros Hnested. unfold attribute_step. cbn [fst]. rewrite py_index_nat.
  destruct (absolute_schema_path nested !! len) as [[idx|s]|];
    cbn [mbind res_bind assert_int]; try reflexivity.
  rewrite py_index_nonneg by lia.
  rewrite lookup_ge_None_2; [reflexivity|]. rewrite length_map. lia.
Qed.

(** X21.  A nested failure is never skipped: when the failures before it
    have owners and its own schema path has no element after the outer
    path, or an index past the last alternative there, the message raises
    IndexError; when the element is a string, AssertionError. *)
Theorem unowned_nested_failure_raises
    (probe : json -> json -> json -> res bool) (depth : nat) (schema : json)
    (error : ValidationError) (alternatives : list json) (names : list string)
    (before after : list ValidationError) (nested : ValidationError) :
  validator error = "oneOf" ->
  validator_value error = JList alternatives ->
  _get_one_of_alternative_names depth (JList alternatives) schema
    = Ok (map NStr names) ->
  context error = before ++ nested :: after ->
  Forall (fun b => is_Some (Spec.owner names error b)) before ->
  match absolute_schema_path nested !! length (absolute_schema_path error) with
  | Some (TInt idx) => (Z.of_nat (length names) <= idx)%Z
  | _ => True
  end ->
  validation_error_to_message probe depth error schema
    = Raise match absolute_schema_path nested !! length (absolute_schema_path error) with
            | Some (TStr _) => AssertionError
            | _ => IndexError
            end.
Proof.
  intros Hone Hvalue Hnames Hctx Hbefore Hnested.
  unfold validation_error_to_message.
  rewrite message_lines_unfold, instance_path_description, Hone.
  cbn [mbind res_bind]. change (String.eqb "oneOf" "oneOf") with true. cbv iota.
  rewrite Hctx.
  set (explain := fun ctx_error : ValidationError =>
         (ctx_error, _validation_error_to_message_lines probe depth ctx_error schema)).
  assert (Hbody :
    _one_of_no_alternatives_satisfied_message_lines depth error schema
      (map explain (before ++ nested :: after))
    = Raise match absolute_schema_path nested !! length (absolute_schema_path error) with
            | Some (TStr _) => AssertionError
            | _ => IndexError
            end).
  { unfold _one_of_no_alternatives_satisfied_message_lines.
    rewrite Hvalue, Hnames. cbn [mbind res_bind].
    rewrite join_names_strings. cbn [mbind res_bind].
    assert (Hcons : (match map explain (before ++ nested :: after) with
                     | [] => Raise AssertionError
                     | _ => Ok tt
                     end : res unit) = Ok tt) by now destruct before.
    rewrite Hcons. cbn [mbind res_bind].
    rewrite map_app, foldM_app.
    destruct (owners_of _ _ _ Hbefore) as [owners Howners].
    rewrite (attribute_loop names error (map explain before) owners).
    2:{ clear -Howners. induction Howners; constructor; auto. }
    cbn [mbind res_bind map foldM].
    change (explain nested)
      with (nested, _validation_error_to_message_lines probe depth nested schema).
    rewrite (attribute_unowned names _ nested _ _ Hnested). reflexivity. }
  destruct (before ++ nested :: after) as [|c ctx] eqn:Hlist.
  { now destruct before. }
  change (map (fun ctx_error => (ctx_error,
            _validation_error_to_message_lines probe depth ctx_error schema)) (c :: ctx))
    with (map explain (c :: ctx)).
  now rewrite Hbody.
Qed.

Lemma unowned_nested_failure_raises_witness :
  validation_error_to_message (fun _ _ _ => Ok false) 5
    (mkValidationError "oneOf" [] [TStr "oneOf"] (JInt 3)
       (JList [JDict [("title", JStr "X")]])
       [mkValidationError "type" [] [TStr "oneOf"; TInt 0; TStr "type"]
          (JInt 3) (JStr "string") [] "3 is not of type 'string'";
        mkValidationError "type" [] [TStr "oneOf"] (JInt 3) (JStr "string") [] "lost"]
       "3 is not valid")
    (JDict [])
  = Raise IndexError.
Proof.
  apply (unowned_nested_failure_raises (fun _ _ _ => Ok false) 5 (JDict [])
    (mkValidationError "oneOf" [] [TStr "oneOf"] (JInt 3)
       (JList [JDict [("title", JStr "X")]])
       [mkValidationError "type" [] [TStr "oneOf"; TInt 0; TStr "type"]
          (JInt 3) (JStr "string") [] "3 is not of type 'string'";
        mkValidationError "type" [] [TStr "oneOf"] (JInt 3) (JStr "string") [] "lost"]
       "3 is not valid")
    [JDict [("title", JStr "X")]] ["X"]
    [mkValidationError "type" [] [TStr "oneOf"; TInt 0; TStr "type"]
          (JInt 3) (JStr "string") [] "3 is not of type 'string'"]
    []
    (mkValidationError "type" [] [TStr "oneOf"] (JInt 3) (JStr "string") [] "lost")).
  - reflexivity.
  - reflexivity.
  - vm_compute. reflexivity.
  - reflexivity.
  - repeat constructor. exists "X". reflexivity.
  - exact I.
Defined.

(** ** Indices written as strings *)

Lemma digit_of_char (r : N) :
  (r < 10)%N -> digit_value (pretty_N_char r) = Some (Z.of_N r).
Proof.
  intros Hr.
  assert (Hcases : (r = 0 \/ r = 1 \/ r = 2 \/ r = 3 \/ r = 4 \/ r = 5 \/ r = 6
                    \/ r = 7 \/ r = 8 \/ r = 9)%N) by lia.
  repeat (destruct Hcases as [->|Hcases]; [reflexivity|]). now subst r.
Qed.

Lemma digit_is_no_space (c : ascii) (v : Z) :
  digit_value c = Some v -> is_space c = false.
Proof.
  unfold digit_value, is_space.
  destruct (Nat.leb_spec 48 (nat_of_ascii c)); cbn [andb]; [|discriminate].
  destruct (Nat.leb_spec (nat_of_ascii c) 57); [|discriminate]. intros _.
  destruct (Nat.leb_spec 9 (nat_of_ascii c)), (Nat.leb_spec (nat_of_ascii c) 13),
    (Nat.leb_spec 28 (nat_of_ascii c)), (Nat.leb_spec (nat_of_ascii c) 32);
    cbn; try reflexivity; lia.
Qed.

(** The digits of a positive number, most significant first, as
    [pretty] writes them and as [parse_digits] reads them. *)
Lemma pretty_digits (x : N) :
  (0 < x)%N ->
  forall s, exists ds,
    list_ascii_of_string (pretty_N_go x s) = ds ++ list_ascii_of_string s
    /\ ds <> []
    /\ Forall (fun c => exists v, digit_value c = Some v) ds
    /\ forall t acc b, exists acc',
         parse_digits (ds ++ t) acc b = parse_digits t acc' true
         /\ (acc = 0%Z -> acc' = Z.of_N x).
Proof.
  induction (N.lt_wf_0 x) as [x _ IH]. intros Hx s.
  rewrite pretty_N_go_step by assumption.
  assert (Hr : ((x `mod` 10) < 10)%N) by now apply N.mod_lt.
  pose proof (digit_of_char _ Hr) as Hdigit.
  set (c := pretty_N_char (x `mod` 10)%N) in *.
  destruct (N.eq_dec (x `div` 10)%N 0%N) as [Hq|Hq].
  - rewrite Hq, pretty_N_go_0. exists [c]. split; [reflexivity|].
    split; [discriminate|]. split; [repeat constructor; eauto|].
    intros t acc b. exists (10 * acc + Z.of_N (x `mod` 10)%N)%Z.
    cbn [app parse_digits]. rewrite Hdigit. split; [reflexivity|].
    intros ->. pose proof (N.div_mod x 10). lia.
  - destruct (IH (x `div` 10)%N) with (s := String c s)
      as (ds & Hlist & Hne & Hall & Hparse).
    { now apply N.div_lt. }
    { now apply N.neq_0_lt_0. }
    exists (ds ++ [c]). split.
    { rewrite Hlist. cbn [list_ascii_of_string]. now rewrite <- app_assoc. }
    split; [destruct ds; discriminate|].
    split; [apply Forall_app; split; [assumption|repeat constructor; eauto]|].
    intros t acc b. destruct (Hparse (c :: t) acc b) as (acc'' & Hp & Hacc).
    exists (10 * acc'' + Z.of_N (x `mod` 10)%N)%Z.
    rewrite <- app_assoc. cbn [app]. rewrite Hp. cbn [parse_digits].
    rewrite Hdigit. split; [reflexivity|].
    intros Hzero. rewrite (Hacc Hzero). pose proof (N.div_mod x 10).
    rewrite N2Z.inj_div. pose proof (Z.div_mod (Z.of_N x) 10).
    rewrite N2Z.inj_mod. change (Z.of_N 10) with 10%Z. lia.
Qed.

Lemma lstrip_no_space (cs : list ascii) (c : ascii) :
  is_space c = false -> lstrip (c :: cs) = c :: cs.
Proof. intros Hc. cbn [lstrip]. now rewrite Hc. Qed.

Lemma strip_digits (front : list ascii) (ds : list ascii) :
  Forall (fun c => is_space c = false) front ->
  ds <> [] ->
  Forall (fun c => exists v, digit_value c = Some v) ds ->
  strip (front ++ ds) = front ++ ds.
Proof.
  intros Hfront Hne Hds. unfold strip.
  assert (Hall : Forall (fun c => is_space c = false) (front ++ ds)).
  { apply Forall_app. split; [assumption|].
    eapply Forall_impl; [exact Hds|]. intros c [v Hv]. now apply (digit_is_no_space c v). }
  assert (Hcons : front ++ ds <> []) by (destruct front, ds; cbn; congruence).
  revert Hall Hcons. generalize (front ++ ds). intros l Hall Hne'.
  assert (Hl : lstrip l = l).
  { destruct l as [|c l]; [reflexivity|]. apply Forall_cons in Hall as [Hc _].
    now apply lstrip_no_space. }
  rewrite Hl.
  assert (Hrev : lstrip (rev l) = rev l).
  { destruct (rev l) as [|c l'] eqn:Hr; [reflexivity|].
    apply lstrip_no_space.
    assert (Hin : c ∈ l).
    { apply list_elem_of_In, in_rev. rewrite Hr. now left. }
    rewrite Forall_forall in Hall. now apply Hall. }
  rewrite Hrev. apply rev_involutive.
Qed.

Lemma digit_is_no_sign (c : ascii) (v : Z) :
  digit_value c = Some v -> Ascii.eqb c "-" = false /\ Ascii.eqb c "+" = false.
Proof.
  intros Hv. split.
  - destruct (Ascii.eqb_spec c "-"%char) as [->|]; [discriminate|reflexivity].
  - destruct (Ascii.eqb_spec c "+"%char) as [->|]; [discriminate|reflexivity].
Qed.

(** [int(str(i))] is [i]. *)
Lemma int_of_str_of_int (i : Z) : int_of_str (str_of_int i) = Ok i.
Proof.
  unfold str_of_int, pretty, pretty_Z.
  destruct i as [|p|p]; [reflexivity| |].
  - change (pretty p) with (pretty_N_go (N.pos p) "").
    destruct (pretty_digits (Npos p) eq_refl "") as (ds & Hlist & Hne & Hall & Hparse).
    cbn [list_ascii_of_string] in Hlist. rewrite app_nil_r in Hlist.
    unfold int_of_str. rewrite Hlist.
    assert (Hfront : Forall (fun c => is_space c = false) (@nil ascii))
      by constructor.
    pose proof (strip_digits [] ds Hfront Hne Hall) as Hstrip.
    cbn [app] in Hstrip. rewrite Hstrip.
    destruct ds as [|c ds]; [congruence|].
    apply Forall_cons in Hall as Hc. destruct Hc as [[v Hv] _].
    destruct (digit_is_no_sign c v Hv) as [-> ->].
    destruct (Hparse [] 0%Z false) as (acc' & Hp & Hacc).
    rewrite app_nil_r in Hp. rewrite Hp, (Hacc eq_refl). reflexivity.
  - change (pretty p) with (pretty_N_go (N.pos p) "").
    destruct (pretty_digits (Npos p) eq_refl "") as (ds & Hlist & Hne & Hall & Hparse).
    cbn [list_ascii_of_string] in Hlist. rewrite app_nil_r in Hlist.
    unfold int_of_str.
    change (list_ascii_of_string ("-" +:+ pretty_N_go (N.pos p) ""))
      with ("-"%char :: list_ascii_of_string (pretty_N_go (N.pos p) "")).
    rewrite Hlist.
    assert (Hsign : Forall (fun c => is_space c = false) ["-"%char])
      by (repeat constructor).
    pose proof (strip_digits ["-"%char] ds Hsign Hne Hall) as Hstrip.
    cbn [app] in Hstrip. rewrite Hstrip.
    change (Ascii.eqb "-" "-") with true. cbv iota.
    destruct (Hparse [] 0%Z false) as (acc' & Hp & Hacc).
    rewrite app_nil_r in Hp. rewrite Hp, (Hacc eq_refl). reflexivity.
Qed.

Lemma str_of_int_not_empty (i : Z) : str_of_int i <> "".
Proof.
  intros Hempty. pose proof (int_of_str_of_int i) as Hint.
  rewrite Hempty in Hint. discriminate.
Qed.

(** X22.  On a sequence the decimal writing of an index, as a reference
    carries it, addresses the element the index addresses, also for 0 and
    for a negative index. *)
Theorem written_index_addresses_element (depth : nat) (full_schema : json)
    (l : list json) (i : Z) (rest : list token) :
  _extract_schema_by_schema_path (S depth) (TStr (str_of_int i) :: rest)
    full_schema (JList l)
  = (child ← py_index l i;
     _extract_schema_by_schema_path depth rest full_schema child).
Proof.
  rewrite extract_truthy_token; [|discriminate|reflexivity|].
  - cbn [is_list int_of_token]. rewrite int_of_str_of_int. reflexivity.
  - cbn. apply negb_true_iff, String.eqb_neq, str_of_int_not_empty.
Qed.

(** ** The probe and the indentation *)

(** X23.  An exception of the validation library comes through: when the
    probe answers for the alternatives before one and raises for that
    one, the message of an exactly-one-of failure without nested failures
    raises the same exception, whatever the later alternatives are. *)
Theorem probe_failure_reaches_caller
    (probe : json -> json -> json -> res bool) (depth : nat) (schema : json)
    (error : ValidationError) (before after : list json) (alt : json)
    (names : list string) (valid : list bool) (e : pyerr) :
  validator error = "oneOf" ->
  context error = [] ->
  validator_value error = JList (before ++ alt :: after) ->
  _get_one_of_alternative_names depth (JList (before ++ alt :: after)) schema
    = Ok (map NStr names) ->
  Forall2 (fun a v => _is_valid_for_sub_schema probe schema a (instance error) = Ok v)
          before valid ->
  _is_valid_for_sub_schema probe schema alt (instance error) = Raise e ->
  validation_error_to_message probe depth error schema = Raise e.
Proof.
  intros Hone Hctx Hvalue Hnames Hvalid Hraise.
  unfold validation_error_to_message.
  rewrite message_lines_unfold, instance_path_description, Hone, Hctx.
  cbn [mbind res_bind]. change (String.eqb "oneOf" "oneOf") with true. cbv iota.
  unfold _one_of_too_many_alternatives_satisfied_message_lines.
  rewrite Hvalue, Hnames. cbn [mbind res_bind py_iter].
  rewrite join_names_strings. cbn [mbind res_bind].
  apply names_length in Hnames. rewrite length_map, length_app in Hnames.
  cbn [length] in Hnames.
  rewrite <- (take_drop (length before) names).
  assert (Hlen : length (take (length before) names) = length before)
    by (rewrite length_take; lia).
  destruct (drop (length before) names) as [|name later] eqn:Hdrop.
  { apply (f_equal length) in Hdrop. rewrite length_drop in Hdrop.
    cbn [length] in Hdrop. lia. }
  rewrite map_app. cbn [map].
  rewrite zip_with_app by now rewrite length_map.
  cbn [zip_with]. rewrite foldM_app.
  rewrite (probe_loop probe schema (instance error) _ before valid [] Hvalid).
  cbn [mbind res_bind foldM probe_step]. rewrite Hraise. reflexivity.
Qed.

Lemma probe_failure_reaches_caller_witness :
  validation_error_to_message
    (fun _ alt _ => match alt with JBool _ => Raise ExternalError | _ => Ok true end) 5
    (mkValidationError "oneOf" [] [TStr "oneOf"] (JInt 3)
       (JList ([JDict [("title", JStr "X")]] ++ JBool true :: [JNull])) [] "m")
    (JDict [])
  = Raise ExternalError.
Proof.
  apply (probe_failure_reaches_caller _ 5 (JDict []) _
           [JDict [("title", JStr "X")]] [JNull] (JBool true)
           ["X"; "Alternative #2"; "Alternative #3"] [true]).
  - reflexivity.
  - reflexivity.
  - reflexivity.
  - vm_compute. reflexivity.
  - repeat constructor.
  - reflexivity.
Defined.

(** X24.  The indentation returns the list object it was given: indenting
    what it returned indents the caller's list a second time, eight
    spaces in all before each line, and no other object changes. *)
Theorem indent_again_indents_same_list (lines : nat) (s : InPlace.store)
    (xs : list string) :
  s !! lines = Some xs ->
  (again ← InPlace._indent_lines lines; InPlace._indent_lines again) s
  = (Ok lines, <[lines := map (fun line => "        " +:+ line) xs]> s).
Proof.
  intros Hs. rewrite run_bind, (run_indent_lines _ _ _ Hs).
  rewrite (run_indent_lines lines _ (_indent_lines xs)).
  - rewrite list_insert_insert_eq. f_equal. f_equal.
    unfold _indent_lines. rewrite map_map. reflexivity.
  - apply list_lookup_insert_eq. now apply lookup_lt_Some in Hs.
Qed.

Lemma indent_again_indents_same_list_witness :
  (again ← InPlace._indent_lines 1; InPlace._indent_lines again) [["a"]; ["b"; "c"]]
  = (Ok 1, <[1 := map (fun line => "        " +:+ line) ["b"; "c"]]> [["a"]; ["b"; "c"]]).
Proof.
  apply (indent_again_indents_same_list 1 [["a"]; ["b"; "c"]] ["b"; "c"]).
  reflexivity.
Defined.

(** * The namer against the words of the specification *)















(** * Calls on the heap *)

Lemma preserved_refl (h : Heap.heap) : preserved h h.
Proof. split; [lia|auto]. Qed.

Lemma preserved_trans (h1 h2 h3 : Heap.heap) :
  preserved h1 h2 -> preserved h2 h3 -> preserved h1 h3.
Proof.
  intros [Hlen1 Hkeep1] [Hlen2 Hkeep2]. split; [lia|].
  intros l o Ho Hiter. apply Hkeep2; auto.
Qed.

Lemma preserved_alloc (h0 h : Heap.heap) (o : Heap.object) :
  preserved h0 h -> preserved h0 (h ++ [o]).
Proof.
  intros [Hlen Hkeep]. split; [rewrite length_app; lia|].
  intros l o' Ho Hiter. apply lookup_app_l_Some. auto.
Qed.

Lemma preserved_put_fresh (h0 h : Heap.heap) (l : nat) (o : Heap.object) :
  preserved h0 h -> length h0 <= l -> preserved h0 (<[l := o]> h).
Proof.
  intros [Hlen Hkeep] Hfresh. split; [rewrite length_insert; lia|].
  intros l' o' Ho Hiter. rewrite list_lookup_insert_ne.
  - auto.
  - apply lookup_lt_Some in Ho. lia.
Qed.

Lemma preserved_put_iterator (h0 h : Heap.heap) (l : nat) (o : Heap.object) :
  preserved h0 h -> is_iterator (Heap.object_at h l) = true ->
  preserved h0 (<[l := o]> h).
Proof.
  intros [Hlen Hkeep] Hit. split; [rewrite length_insert; lia|].
  intros l' o' Ho Hiter. destruct (decide (l = l')) as [<-|Hne].
  - apply Hkeep in Ho; [|assumption]. unfold Heap.object_at in Hit.
    rewrite Ho in Hit. cbn in Hit. congruence.
  - rewrite list_lookup_insert_ne by assumption. auto.
Qed.

Section Frame.

Variable h0 : Heap.heap.

Lemma keeps_ret {A : Type} (pre : Heap.heap -> Prop) (a : A)
    (post : A -> Heap.heap -> Prop) :
  (forall h, pre h -> post a h) -> keeps h0 pre (mret a) post.
Proof.
  intros Hpost h Hpre HI. cbn. split; [assumption|].
  intros ? [= <-]. auto.
Qed.

Lemma keeps_ret_same {A : Type} (pre : Heap.heap -> Prop) (a : A) :
  keeps h0 pre (mret a) (fun _ h => pre h).
Proof. now apply keeps_ret. Qed.

Lemma keeps_bind {A B : Type} (pre : Heap.heap -> Prop) (m : Heap.M A)
    (k : A -> Heap.M B) (mid : A -> Heap.heap -> Prop)
    (post : B -> Heap.heap -> Prop) :
  keeps h0 pre m mid ->
  (forall a, keeps h0 (mid a) (k a) post) ->
  keeps h0 pre (m ≫= k) post.
Proof.
  intros Hm Hk h Hpre HI. unfold mbind, Heap.M_bind.
  destruct (Hm h Hpre HI) as (Hpre' & Hmid).
  destruct (m h) as [[a|e] h']; cbn [fst snd] in *.
  - apply Hk; auto.
  - split; [assumption|]. intros ? [=].
Qed.

Lemma keeps_weaken {A : Type} (pre pre' : Heap.heap -> Prop) (m : Heap.M A)
    (post post' : A -> Heap.heap -> Prop) :
  (forall h, pre' h -> pre h) ->
  (forall a h, post a h -> post' a h) ->
  keeps h0 pre m post -> keeps h0 pre' m post'.
Proof.
  intros Hpre Hpost Hm h Hh HI. destruct (Hm h Hh (Hpre h HI)) as (? & ?).
  split; auto.
Qed.

(** A fact that does not depend on the heap. *)
Lemma keeps_assume {A : Type} (P : Prop) (m : Heap.M A)
    (post : A -> Heap.heap -> Prop) :
  (P -> keeps h0 (fun _ => True) m post) -> keeps h0 (fun _ => P) m post.
Proof. intros Hm h Hh HP. now apply Hm. Qed.

Lemma keeps_lift {A : Type} (pre : Heap.heap -> Prop) (r : res A) :
  keeps h0 pre (Heap.lift r) (fun _ h => pre h).
Proof. intros h Hpre HI. cbn. auto. Qed.

Lemma keeps_raise {A : Type} (pre : Heap.heap -> Prop) (e : pyerr)
    (post : A -> Heap.heap -> Prop) :
  keeps h0 pre (Heap.raise e) post.
Proof. intros h Hpre HI. cbn. split; [assumption|]. intros ? [=]. Qed.

Lemma keeps_peek {A : Type} (pre : Heap.heap -> Prop) (f : Heap.heap -> A) :
  keeps h0 pre (Heap.peek f) (fun _ h => pre h).
Proof. intros h Hpre HI. cbn. auto. Qed.

Lemma keeps_attempt {A : Type} (pre : Heap.heap -> Prop) (f : Heap.heap -> res A) :
  keeps h0 pre (Heap.attempt f) (fun _ h => pre h).
Proof. intros h Hpre HI. cbn. auto. Qed.

Lemma keeps_for_each {A : Type} (pre : Heap.heap -> Prop) (body : A -> Heap.M unit)
    (l : list A) :
  (forall x, keeps h0 pre (body x) (fun _ h => pre h)) ->
  keeps h0 pre (Heap.for_each body l) (fun _ h => pre h).
Proof.
  intros Hbody. induction l as [|x l IH]; cbn [Heap.for_each].
  - now apply keeps_ret.
  - eapply keeps_bind; [apply Hbody|]. intros ?. exact IH.
Qed.

(** The primitive operations. *)

Ltac keeps_primitive :=
  repeat first
    [ assumption
    | exact I
    | lia
    | progress cbn [fst snd]
    | match goal with
      | |- _ /\ _ => split
      | |- forall a, _ = Ok a -> _ => intros ? ?
      | |- preserved _ (_ ++ [_]) => apply preserved_alloc
      | |- preserved _ (<[_ := _]> _) => apply preserved_put_fresh
      end ].

Lemma keeps_alloc (o : Heap.object) :
  keeps h0 (fun _ => True) (Heap.alloc o) (fun v _ => fresh h0 v).
Proof.
  intros h Hpre _. cbn. split; [now apply preserved_alloc|].
  intros a [= <-]. cbn. apply Hpre.
Qed.

Lemma keeps_put (l : nat) (o : Heap.object) :
  length h0 <= l -> keeps h0 (fun _ => True) (Heap.put l o) (fun _ _ => True).
Proof. intros Hl h Hpre _. unfold Heap.put. keeps_primitive. Qed.

Lemma keeps_iter (v : Heap.value) :
  keeps h0 (fun _ => True) (Heap.iter v) (fun _ _ => True).
Proof.
  intros h Hpre _. unfold Heap.iter, Heap.alloc.
  destruct v as [| | | |l]; [keeps_primitive..|].
  destruct (Heap.object_at h l); keeps_primitive.
Qed.

Lemma keeps_next (it default : Heap.value) :
  keeps h0 (fun _ => True) (Heap.next it default) (fun _ _ => True).
Proof.
  intros h Hpre _. unfold Heap.next.
  destruct it as [| | | |l]; [keeps_primitive..|].
  destruct (Heap.object_at h l) as [| |source position|] eqn:Hobj;
    [keeps_primitive..| |keeps_primitive].
  destruct (Heap.source_items h source !! position); [|keeps_primitive].
  cbn [fst snd]. split; [|keeps_primitive].
  apply preserved_put_iterator; [assumption|]. now rewrite Hobj.
Qed.

Lemma keeps_iterate (v : Heap.value) :
  keeps h0 (fun _ => True) (Heap.iterate v) (fun _ _ => True).
Proof.
  intros h Hpre _. unfold Heap.iterate.
  destruct v as [| | | |l]; [keeps_primitive..|].
  destruct (Heap.object_at h l) as [| |source position|] eqn:Hobj;
    [keeps_primitive..| |keeps_primitive].
  cbn [fst snd]. split; [|keeps_primitive].
  apply preserved_put_iterator; [assumption|]. now rewrite Hobj.
Qed.

Lemma keeps_list_append (target x : Heap.value) :
  fresh h0 target ->
  keeps h0 (fun _ => True) (Heap.list_append target x) (fun _ _ => True).
Proof.
  intros Hfresh h Hpre _. unfold Heap.list_append.
  destruct target as [| | | |l]; [keeps_primitive..|].
  destruct (Heap.object_at h l); keeps_primitive.
Qed.

Lemma keeps_list_put_last (target : Heap.value) (more : list Heap.value) :
  fresh h0 target ->
  keeps h0 (fun _ => True) (Heap.list_put_last target more) (fun _ _ => True).
Proof.
  intros Hfresh h Hpre _. unfold Heap.list_put_last.
  destruct target as [| | | |l]; [keeps_primitive..|].
  destruct (Heap.object_at h l); keeps_primitive.
Qed.

Lemma keeps_list_setitem (target : Heap.value) (i : nat) (x : Heap.value) :
  fresh h0 target ->
  keeps h0 (fun _ => True) (Heap.list_setitem target i x) (fun _ _ => True).
Proof.
  intros Hfresh h Hpre _. unfold Heap.list_setitem.
  destruct target as [| | | |l]; [keeps_primitive..|].
  destruct (Heap.object_at h l) as [items| | |]; [|keeps_primitive..].
  destruct (i <? length items)%nat; keeps_primitive.
Qed.

Lemma keeps_dict_setitem (d key v : Heap.value) :
  fresh h0 d ->
  keeps h0 (fun _ => True) (Heap.dict_setitem d key v) (fun _ _ => True).
Proof.
  intros Hfresh h Hpre _. unfold Heap.dict_setitem.
  destruct d as [| | | |l]; [keeps_primitive..|].
  destruct (Heap.object_at h l); [keeps_primitive| |keeps_primitive..].
  destruct (Heap.hashable h key); keeps_primitive.
Qed.

Lemma keeps_defaultdict_getitem (d key : Heap.value) (factory : Heap.M Heap.value) :
  fresh h0 d ->
  keeps h0 (fun _ => True) factory (fun _ _ => True) ->
  keeps h0 (fun _ => True) (Heap.defaultdict_getitem d key factory) (fun _ _ => True).
Proof.
  intros Hfresh Hfactory h Hpre HI. unfold Heap.defaultdict_getitem.
  destruct d as [| | | |l]; [keeps_primitive..|].
  destruct (Heap.object_at h l) as [|entries| |]; [keeps_primitive| |keeps_primitive..].
  destruct (Heap.hashable h key); [|keeps_primitive].
  destruct (Heap.assoc entries key); [keeps_primitive|].
  revert h Hpre HI.
  change (keeps h0 (fun _ => True)
            (v ← factory; _ ← Heap.put l (Heap.ODict (entries ++ [(key, v)])); mret v)
            (fun _ _ => True)).
  eapply keeps_bind; [exact Hfactory|]. intros v.
  eapply keeps_bind; [now apply keeps_put|]. intros ?. now apply keeps_ret.
Qed.

(** The dict of the nested failures by alternative. *)

Lemma keeps_alloc_dict :
  keeps h0 (fun _ => True) (Heap.alloc (Heap.ODict []))
        (fun d h => exists l, d = Heap.VRef l /\ length h0 <= l /\ holds_fresh h0 l h).
Proof.
  intros h Hpre _. cbn. split; [now apply preserved_alloc|].
  intros a [= <-]. exists (length h). split; [reflexivity|].
  split; [apply Hpre|]. exists []. split; [|constructor].
  now rewrite lookup_app_r, Nat.sub_diag.
Qed.

Lemma keeps_with_dict {A : Type} (k : Heap.value -> Heap.M A)
    (post : A -> Heap.heap -> Prop) :
  (forall d, length h0 <= d -> keeps h0 (holds_fresh h0 d) (k (Heap.VRef d)) post) ->
  forall v,
    keeps h0 (fun h => exists l, v = Heap.VRef l /\ length h0 <= l /\ holds_fresh h0 l h)
          (k v) post.
Proof. intros Hk v h Hpre (l & -> & Hl & Hd). now apply Hk. Qed.

Lemma assoc_entry (entries : list (Heap.value * Heap.value)) (key v : Heap.value) :
  Heap.assoc entries key = Some v -> exists k, (k, v) ∈ entries.
Proof.
  induction entries as [|[k w] entries IH]; cbn [Heap.assoc]; [discriminate|].
  destruct (Heap.key_eqb k key).
  - intros [= <-]. exists k. now left.
  - intros [k' Hin]%IH. exists k'. now right.
Qed.

Lemma keeps_group_lookup (d : nat) (key : Heap.value) :
  length h0 <= d ->
  keeps h0 (holds_fresh h0 d)
        (Heap.defaultdict_getitem (Heap.VRef d) key (Heap.alloc (Heap.OList [])))
        (fun v h => fresh h0 v /\ holds_fresh h0 d h).
Proof.
  intros Hd h Hpre (entries & Hdict & Hall). unfold Heap.defaultdict_getitem.
  assert (Hobj : Heap.object_at h d = Heap.ODict entries)
    by (unfold Heap.object_at; now rewrite Hdict).
  rewrite Hobj. destruct (Heap.hashable h key).
  2:{ cbn. split; [assumption|]. intros ? [=]. }
  destruct (Heap.assoc entries key) as [v|] eqn:Hv.
  - cbn. split; [assumption|]. intros a [= <-]. split.
    + apply assoc_entry in Hv as [k Hin]. rewrite Forall_forall in Hall.
      apply (Hall _ Hin).
    + exists entries. auto.
  - cbn. split.
    + apply preserved_put_fresh; [now apply preserved_alloc|assumption].
    + intros a [= <-]. split; [cbn; apply Hpre|].
      exists (entries ++ [(key, Heap.VRef (length h))]). split.
      * apply list_lookup_insert_eq. rewrite length_app.
        apply lookup_lt_Some in Hdict. lia.
      * apply Forall_app. split; [assumption|].
        constructor; [cbn; apply Hpre|constructor].
Qed.

Lemma keeps_group_append (d : nat) (target x : Heap.value) :
  keeps h0 (fun h => fresh h0 target /\ holds_fresh h0 d h)
        (Heap.list_append target x)
        (fun _ h => holds_fresh h0 d h).
Proof.
  intros h Hpre (Hfresh & entries & Hdict & Hall). unfold Heap.list_append.
  destruct target as [| | | |l]; [cbn; split; [assumption|intros ? [=]]..|].
  destruct (Heap.object_at h l) as [items| | |] eqn:Hobj;
    [|cbn; split; [assumption|intros ? [=]]..].
  cbn. split; [now apply preserved_put_fresh|].
  intros _ _. exists entries. split; [|assumption].
  rewrite list_lookup_insert_ne; [assumption|].
  intros ->. unfold Heap.object_at in Hobj. rewrite Hdict in Hobj. discriminate.
Qed.

Lemma keeps_group_iterate (d : nat) (v : Heap.value) :
  keeps h0 (holds_fresh h0 d) (Heap.iterate v) (fun _ h => holds_fresh h0 d h).
Proof.
  intros h Hpre Hd.
  split; [apply (keeps_iterate v h Hpre I)|].
  intros items _. unfold Heap.iterate.
  destruct v as [| | | |l]; [exact Hd..|].
  destruct (Heap.object_at h l) as [| |source position|] eqn:Hobj; [exact Hd..| |exact Hd].
  cbn [snd]. destruct Hd as (entries & Hdict & Hall). exists entries.
  split; [|assumption]. rewrite list_lookup_insert_ne; [assumption|].
  intros ->. unfold Heap.object_at in Hobj. rewrite Hdict in Hobj. discriminate.
Qed.

End Frame.

Create HintDb keeps.

(** A computation is taken apart along its binds, branches and loops; an
    operation and a call are closed by their lemmas. *)
Ltac keeps_by tac :=
  first [ tac
        | eapply keeps_weaken; [ | |tac]; [intros; exact I|intros; cbn; auto] ].

Ltac keeps_enter := intros ?; cbv beta; try (apply keeps_assume; intros ?).

Ltac keeps_leaf :=
  lazymatch goal with
  | |- keeps _ _ (mret _) _ =>
      first [apply keeps_ret_same | apply keeps_ret; intros; cbn; auto]
  | |- keeps _ _ (Heap.raise _) _ => apply keeps_raise
  | |- keeps _ _ (Heap.lift _) _ => keeps_by ltac:(apply keeps_lift)
  | |- keeps _ _ (Heap.peek _) _ => keeps_by ltac:(apply keeps_peek)
  | |- keeps _ _ (Heap.attempt _) _ => keeps_by ltac:(apply keeps_attempt)
  | |- keeps _ _ (Heap.alloc _) _ => keeps_by ltac:(apply keeps_alloc)
  | |- keeps _ _ (Heap.iter _) _ => keeps_by ltac:(apply keeps_iter)
  | |- keeps _ _ (Heap.next _ _) _ => keeps_by ltac:(apply keeps_next)
  | |- keeps _ _ (Heap.iterate _) _ => keeps_by ltac:(apply keeps_iterate)
  | |- keeps _ _ (Heap.list_append _ _) _ =>
      keeps_by ltac:(apply keeps_list_append; assumption)
  | |- keeps _ _ (Heap.list_put_last _ _) _ =>
      keeps_by ltac:(apply keeps_list_put_last; assumption)
  | |- keeps _ _ (Heap.list_setitem _ _ _) _ =>
      keeps_by ltac:(apply keeps_list_setitem; assumption)
  | |- keeps _ _ (Heap.dict_setitem _ _ _) _ =>
      keeps_by ltac:(apply keeps_dict_setitem; assumption)
  | |- _ => keeps_by ltac:(solve [auto with keeps])
  end.

Ltac keeps_auto :=
  lazymatch goal with
  | |- keeps _ _ (mbind _ _) _ =>
      eapply keeps_bind; [solve [keeps_auto]|keeps_enter; keeps_auto]
  | |- keeps _ _ (Heap.for_each _ _) _ =>
      keeps_by ltac:(apply keeps_for_each; intros ?; cbv beta; solve [keeps_auto])
  | |- keeps _ _ (Heap.defaultdict_getitem _ _ _) _ =>
      keeps_by ltac:(apply keeps_defaultdict_getitem; [assumption|solve [keeps_auto]])
  | |- keeps _ _ (match ?x with _ => _ end) _ => destruct x; keeps_auto
  | |- _ => keeps_leaf
  end.

Section Functions.

Variable h0 : Heap.heap.
Variable repr : Heap.heap -> nat -> string.

Lemma keeps_join (sep : string) (v : Heap.value) :
  keeps h0 (fun _ => True) (Heap.join sep v) (fun _ _ => True).
Proof. unfold Heap.join. keeps_auto. Qed.

Lemma keeps_list_extend (target iterable : Heap.value) :
  fresh h0 target ->
  keeps h0 (fun _ => True) (Heap.list_extend target iterable) (fun _ _ => True).
Proof. intros Hfresh. unfold Heap.list_extend. keeps_auto. Qed.

Lemma keeps_indent_lines (lines : Heap.value) :
  fresh h0 lines ->
  keeps h0 (fun _ => True) (Heap._indent_lines lines) (fun v _ => fresh h0 v).
Proof. intros Hfresh. unfold Heap._indent_lines. keeps_auto. Qed.

Lemma keeps_json_path_to_string (path : Heap.value) :
  keeps h0 (fun _ => True) (Heap._json_path_to_string repr path) (fun _ _ => True).
Proof. unfold Heap._json_path_to_string. keeps_auto. Qed.

Lemma keeps_schema_reference_to_path (ref : Heap.value) :
  keeps h0 (fun _ => True) (Heap._schema_reference_to_path ref)
        (fun v _ => fresh h0 v).
Proof. unfold Heap._schema_reference_to_path. keeps_auto. Qed.

#[local] Hint Resolve keeps_join keeps_list_extend keeps_indent_lines
  keeps_json_path_to_string keeps_schema_reference_to_path : keeps.

Lemma keeps_instance_path_to_description (instance_path : Heap.value) :
  keeps h0 (fun _ => True) (Heap._instance_path_to_description repr instance_path)
        (fun _ _ => True).
Proof. unfold Heap._instance_path_to_description. keeps_auto. Qed.

Lemma keeps_extract (depth : nat) :
  forall schema_path full_schema schema,
  keeps h0 (fun _ => True)
        (Heap._extract_schema_by_schema_path depth schema_path full_schema schema)
        (fun _ _ => True).
Proof.
  induction depth as [|depth IH]; intros schema_path full_schema schema;
    cbn [Heap._extract_schema_by_schema_path]; [apply keeps_raise|].
  cbv zeta. keeps_auto.
Qed.

#[local] Hint Resolve keeps_instance_path_to_description keeps_extract : keeps.

Lemma keeps_extract_by_reference (depth : nat) (ref schema : Heap.value) :
  keeps h0 (fun _ => True) (Heap._extract_schema_by_reference depth ref schema)
        (fun _ _ => True).
Proof. unfold Heap._extract_schema_by_reference. keeps_auto. Qed.

Lemma keeps_names (depth : nat) (alternative_schemas full_schema : Heap.value) :
  keeps h0 (fun _ => True)
        (Heap._get_one_of_alternative_names repr depth alternative_schemas full_schema)
        (fun v _ => fresh h0 v).
Proof. unfold Heap._get_one_of_alternative_names. keeps_auto. Qed.

Variable jsonschema_is_valid : Heap.value -> Heap.value -> Heap.value -> Heap.M bool.

(** What is assumed of the library: a validation leaves the lists, dicts
    and failures that exist as they are. *)
Hypothesis library_preserves :
  forall full_schema sub_schema sub_instance h,
    preserved h (snd (jsonschema_is_valid full_schema sub_schema sub_instance h)).

Lemma keeps_is_valid (full_schema sub_schema sub_instance : Heap.value) :
  keeps h0 (fun _ => True)
        (Heap._is_valid_for_sub_schema jsonschema_is_valid
           full_schema sub_schema sub_instance)
        (fun _ _ => True).
Proof.
  intros h Hpre _. unfold Heap._is_valid_for_sub_schema.
  split; [|auto].
  eapply preserved_trans; [exact Hpre|apply library_preserves].
Qed.

#[local] Hint Resolve keeps_names keeps_is_valid : keeps.

Lemma keeps_too_many (depth : nat) (error schema : Heap.value) :
  keeps h0 (fun _ => True)
        (Heap._one_of_too_many_alternatives_satisfied_message_lines
           repr jsonschema_is_valid depth error schema)
        (fun v _ => fresh h0 v).
Proof.
  unfold Heap._one_of_too_many_alternatives_satisfied_message_lines. keeps_auto.
Qed.

(** The loop over the nested failures keeps the dict of the groups. *)
Lemma keeps_attribute_loop (d : nat) (alt_names : Heap.value)
    (one_of_schema_path_len : nat) (ctx_errors : list Heap.value) :
  length h0 <= d ->
  keeps h0 (holds_fresh h0 d)
    (Heap.for_each (fun ctx_error : Heap.value =>
         ctx_path ← Heap.attempt (fun h =>
                       Heap.attribute h ctx_error Heap.absolute_schema_path);
         error_alt_idx ← Heap.attempt (fun h =>
                            Heap.getitem h ctx_path
                              (Heap.VInt (Z.of_nat one_of_schema_path_len)));
         _ ← (if Heap.is_int error_alt_idx then mret tt
              else Heap.raise AssertionError);
         alt_name ← Heap.attempt (fun h => Heap.getitem h alt_names error_alt_idx);
         alt_errors ← Heap.defaultdict_getitem (Heap.VRef d) alt_name
                        (Heap.alloc (Heap.OList []));
         Heap.list_append alt_errors ctx_error)
       ctx_errors)
    (fun _ h => holds_fresh h0 d h).
Proof.
  intros Hd. apply keeps_for_each. intros ctx_error.
  eapply keeps_bind; [apply keeps_attempt|]. intros ctx_path. cbv beta.
  eapply keeps_bind; [apply keeps_attempt|]. intros error_alt_idx. cbv beta.
  eapply keeps_bind.
  { instantiate (1 := fun _ h => holds_fresh h0 d h).
    destruct (Heap.is_int error_alt_idx); [now apply keeps_ret|apply keeps_raise]. }
  intros ?. cbv beta.
  eapply keeps_bind; [apply keeps_attempt|]. intros alt_name. cbv beta.
  eapply keeps_bind; [now apply keeps_group_lookup|]. intros alt_errors. cbv beta.
  apply keeps_group_append.
Qed.

Lemma keeps_none (explain : Heap.value -> Heap.value -> Heap.M Heap.value)
    (depth : nat) (error schema : Heap.value) :
  (forall nested_error nested_schema,
     keeps h0 (fun _ => True) (explain nested_error nested_schema)
           (fun v _ => fresh h0 v)) ->
  keeps h0 (fun _ => True)
        (Heap._one_of_no_alternatives_satisfied_message_lines
           repr explain depth error schema)
        (fun v _ => fresh h0 v).
Proof.
  intros Hexplain.
  unfold Heap._one_of_no_alternatives_satisfied_message_lines.
  eapply keeps_bind; [keeps_auto|keeps_enter].
  eapply keeps_bind; [keeps_auto|keeps_enter].
  eapply keeps_bind; [keeps_auto|keeps_enter].
  eapply keeps_bind; [keeps_auto|keeps_enter]. cbv zeta.
  eapply keeps_bind; [keeps_auto|keeps_enter].
  eapply keeps_bind; [apply keeps_alloc_dict|].
  apply keeps_with_dict. intros d Hd.
  eapply keeps_bind; [apply keeps_attempt|]. intros schema_path. cbv beta.
  eapply keeps_bind; [apply keeps_attempt|]. intros one_of_schema_path_len. cbv beta.
  eapply keeps_bind; [apply keeps_attempt|]. intros nested. cbv beta.
  eapply keeps_bind; [apply keeps_peek|]. intros some. cbv beta.
  eapply keeps_bind.
  { instantiate (1 := fun _ h => holds_fresh h0 d h).
    destruct some; [now apply keeps_ret|apply keeps_raise]. }
  intros ?. cbv beta.
  eapply keeps_bind; [apply keeps_attempt|]. intros nested'. cbv beta.
  eapply keeps_bind; [apply keeps_group_iterate|]. intros ctx_errors. cbv beta.
  eapply keeps_bind; [now apply keeps_attribute_loop|]. intros ?. cbv beta.
  eapply (keeps_weaken _ (fun _ => True)); [intros; exact I|intros v h Hv; exact Hv|].
  keeps_auto.
Qed.

#[local] Hint Resolve keeps_too_many keeps_none : keeps.

Lemma keeps_message_lines (depth : nat) :
  forall error schema,
  keeps h0 (fun _ => True)
        (Heap._validation_error_to_message_lines repr jsonschema_is_valid
           depth error schema)
        (fun v _ => fresh h0 v).
Proof.
  induction depth as [|depth IH]; intros error schema;
    cbn [Heap._validation_error_to_message_lines]; [apply keeps_raise|].
  keeps_auto.
Qed.

#[local] Hint Resolve keeps_message_lines : keeps.

Lemma keeps_message (depth : nat) (error schema : Heap.value) :
  keeps h0 (fun _ => True)
        (Heap.validation_error_to_message repr jsonschema_is_valid depth error schema)
        (fun _ _ => True).
Proof. unfold Heap.validation_error_to_message. keeps_auto. Qed.

#[local] Hint Resolve keeps_message : keeps.

Lemma keeps_messages (depth : nat) (errors schema : Heap.value) :
  keeps h0 (fun _ => True)
        (Heap.validation_errors_to_message repr jsonschema_is_valid depth errors schema)
        (fun _ _ => True).
Proof. unfold Heap.validation_errors_to_message. keeps_auto. Qed.

End Functions.

(** The indentation writes to the list it is given and to nothing else. *)
Lemma iterate_elsewhere (v : Heap.value) (h : Heap.heap) (l : nat) :
  v <> Heap.VRef l -> snd (Heap.iterate v h) !! l = h !! l.
Proof.
  intros Hne. unfold Heap.iterate. destruct v as [| | | |l']; try reflexivity.
  destruct (Heap.object_at h l'); try reflexivity.
  cbn [snd]. apply list_lookup_insert_ne. congruence.
Qed.

Lemma setitem_elsewhere (target : Heap.value) (i : nat) (x : Heap.value)
    (h : Heap.heap) (l : nat) :
  target <> Heap.VRef l -> snd (Heap.list_setitem target i x h) !! l = h !! l.
Proof.
  intros Hne. unfold Heap.list_setitem. destruct target as [| | | |l']; try reflexivity.
  destruct (Heap.object_at h l') as [items| | |]; try reflexivity.
  destruct (i <? length items)%nat; [|reflexivity].
  cbn [snd]. apply list_lookup_insert_ne. congruence.
Qed.

Lemma indent_loop_elsewhere (lines : Heap.value) (l : nat)
    (items : list (nat * Heap.value)) :
  lines <> Heap.VRef l ->
  forall h,
  snd (Heap.for_each (fun il : nat * Heap.value =>
         let '(i, line) := il in
         line ← Heap.lift (Heap.as_str line);
         Heap.list_setitem lines i (Heap.VStr (spaces _INDENT_SIZE +:+ line)))
       items h) !! l = h !! l.
Proof.
  intros Hne. induction items as [|[i line] items IH]; intros h; [reflexivity|].
  cbn [Heap.for_each]. unfold mbind at 1, Heap.M_bind at 1.
  unfold mbind at 1, Heap.M_bind at 1, Heap.lift.
  destruct (Heap.as_str line) as [s|e]; [|reflexivity].
  pose proof (setitem_elsewhere lines i (Heap.VStr (spaces _INDENT_SIZE +:+ s)) h l Hne)
    as Hset.
  destruct (Heap.list_setitem lines i _ h) as [[[]|e] h']; cbn [snd] in *.
  - now rewrite IH.
  - exact Hset.
Qed.

Lemma indent_lines_elsewhere (lines : Heap.value) (h : Heap.heap) (l : nat) :
  lines <> Heap.VRef l -> snd (Heap._indent_lines lines h) !! l = h !! l.
Proof.
  intros Hne. unfold Heap._indent_lines. unfold mbind at 1, Heap.M_bind at 1.
  pose proof (iterate_elsewhere lines h l Hne) as Hiter.
  destruct (Heap.iterate lines h) as [[items|e] h1]; cbn [snd] in *; [|exact Hiter].
  unfold mbind, Heap.M_bind.
  pose proof (indent_loop_elsewhere lines l (imap (fun i line => (i, line)) items)
                Hne h1) as Hloop.
  destruct (Heap.for_each _ _ h1) as [[[]|e] h2];
    unfold mret, Heap.M_ret; cbn [snd] in *; congruence.
Qed.

(** C10.  A call of an entry point, of the locator, of the resolver, of
    the namer or of the probe leaves every list, dict and validation
    failure that exists when it is called as it is, so the schema
    document and the failures passed in, whether the call returns or
    raises; the probe is the validation of the library, which is assumed
    to do so.  The indentation writes to the list it is given and to no
    other object. *)
Theorem calls_leave_existing_objects_unchanged
    (repr : Heap.heap -> nat -> string)
    (jsonschema_is_valid : Heap.value -> Heap.value -> Heap.value -> Heap.M bool)
    (depth : nat) (h : Heap.heap) :
  (forall full_schema sub_schema sub_instance h',
     preserved h' (snd (jsonschema_is_valid full_schema sub_schema sub_instance h'))) ->
  (forall errors schema,
     preserved h (snd (Heap.validation_errors_to_message repr jsonschema_is_valid
                         depth errors schema h)))
  /\ (forall error schema,
        preserved h (snd (Heap.validation_error_to_message repr jsonschema_is_valid
                            depth error schema h)))
  /\ (forall instance_path,
        preserved h (snd (Heap._instance_path_to_description repr instance_path h)))
  /\ (forall schema_path full_schema schema,
        preserved h (snd (Heap._extract_schema_by_schema_path
                            depth schema_path full_schema schema h)))
  /\ (forall ref schema,
        preserved h (snd (Heap._extract_schema_by_reference depth ref schema h)))
  /\ (forall alternative_schemas full_schema,
        preserved h (snd (Heap._get_one_of_alternative_names repr
                            depth alternative_schemas full_schema h)))
  /\ (forall full_schema sub_schema sub_instance,
        preserved h (snd (Heap._is_valid_for_sub_schema jsonschema_is_valid
                            full_schema sub_schema sub_instance h)))
  /\ (forall lines l,
        lines <> Heap.VRef l -> snd (Heap._indent_lines lines h) !! l = h !! l).
Proof.
  intros Hlibrary.
  split; [|split; [|split; [|split; [|split; [|split; [|split]]]]]].
  - intros errors schema.
    apply (keeps_messages h repr jsonschema_is_valid Hlibrary depth errors schema h);
      [apply preserved_refl|exact I].
  - intros error schema.
    apply (keeps_message h repr jsonschema_is_valid Hlibrary depth error schema h);
      [apply preserved_refl|exact I].
  - intros instance_path.
    apply (keeps_instance_path_to_description h repr instance_path h);
      [apply preserved_refl|exact I].
  - intros schema_path full_schema schema.
    apply (keeps_extract h depth schema_path full_schema schema h);
      [apply preserved_refl|exact I].
  - intros ref schema.
    apply (keeps_extract_by_reference h depth ref schema h);
      [apply preserved_refl|exact I].
  - intros alternative_schemas full_schema.
    apply (keeps_names h repr depth alternative_schemas full_schema h);
      [apply preserved_refl|exact I].
  - intros full_schema sub_schema sub_instance. apply Hlibrary.
  - intros lines l. apply indent_lines_elsewhere.
Qed.

Lemma calls_leave_existing_objects_unchanged_witness :
  preserved Heap.sample_heap
    (snd (Heap.validation_errors_to_message Heap.sample_repr Heap.sample_probe 8
            (Heap.VRef 12) (Heap.VRef 5) Heap.sample_heap))
  /\ fst (Heap.validation_errors_to_message Heap.sample_repr Heap.sample_probe 8
            (Heap.VRef 12) (Heap.VRef 5) Heap.sample_heap)
     = Ok ("In step " +:+ dquote +:+ "s1" +:+ dquote +:+ ":" +:+ newline +:+
           "    Must be exactly one of: X, Y; all alternatives failed validation."
           +:+ newline +:+
           "    Errors associated with alternative " +:+ dquote +:+ "Y" +:+ dquote
           +:+ ":" +:+ newline +:+
           "        In step " +:+ dquote +:+ "s1" +:+ dquote
           +:+ ": 3 is not of type 'string'").
Proof.
  split; [|vm_compute; reflexivity].
  refine (proj1 (calls_leave_existing_objects_unchanged
                   Heap.sample_repr Heap.sample_probe 8 Heap.sample_heap _) _ _).
  intros full_schema sub_schema sub_instance h. unfold Heap.sample_probe.
  cbn [snd]. apply preserved_alloc, preserved_refl.
Defined.
